(** * DesktopWindow: state reconciliation, sync barrier, transactions

    A shallow embedding of [src/provider/model/DesktopWindow.ts].

    Modelling conventions.
    - A JavaScript [number] is a rational ([Q]); [===] on numbers is numeric
      equality ([Qeq_bool]).  NaN and the infinities are not represented.
      Arithmetic is exact, where a double rounds: a statement about the
      result of arithmetic is made for the numbers on which a double is
      exact as well ([halfPixels]).
    - An object literal of a fixed TypeScript interface is a record.  The
      nested objects of a state ([center], [halfSize], [resizeConstraints])
      are held by value: the class replaces them wholesale or overwrites all
      of their fields at once, so after every call the field-wise contents
      are those of the value model.
    - [Partial<EntityState>] is the same record with every slot optional.  A
      slot that is present holds a defined value, as in every delta built in
      the source file.
    - A promise handed to [addPendingActions] is a pending action: a tag and
      what the promise stands for.  What the windowing surface answers
      when a promise is awaited is supplied by the environment. *)

From Stdlib Require Import QArith Qabs OrdersEx.
From Equations Require Import Equations.
From stdpp Require Import gmap strings pretty list sorting.

Set Default Proof Using "Type".


(** ** Geometry *)

Record Point (T : Type) := { x : T; y : T }.
Arguments x {T} _.
Arguments y {T} _.

Module Rectangle.
Record t := { center : Point Q; halfSize : Point Q }.
End Rectangle.

Record ResizeConstraint := {
  resizableMin : bool;
  resizableMax : bool;
  minSize : Q;
  maxSize : Q
}.

Definition MAX_SAFE_INTEGER : Q := 9007199254740991 # 1.

(** [fin.WindowBounds] *)
Module WindowBounds.
Record t := { left : Q; top : Q; width : Q; height : Q }.
End WindowBounds.

(** ** Entity state and partial states *)

(** The keys of [EntityState]. *)
Inductive Property :=
| PCenter | PHalfSize | PFrame | PHidden | PState | PIcon | PTitle
| PShowTaskbarIcon | PResizeConstraints | POpacity | PAlwaysOnTop | PMaximizable.

Definition all_properties : list Property :=
  [PCenter; PHalfSize; PFrame; PHidden; PState; PIcon; PTitle;
   PShowTaskbarIcon; PResizeConstraints; POpacity; PAlwaysOnTop; PMaximizable].

(** [EntityState[K]] *)
Definition ftype (k : Property) : Type :=
  match k with
  | PCenter | PHalfSize => Point Q
  | PFrame | PHidden | PShowTaskbarIcon | PAlwaysOnTop | PMaximizable => bool
  | PState | PIcon | PTitle => string
  | PResizeConstraints => Point ResizeConstraint
  | POpacity => Q
  end.

(** One slot per key; [F] says what a slot holds. *)
Record StateOf (F : Type → Type) := {
  center : F (Point Q);
  halfSize : F (Point Q);
  frame : F bool;
  hidden : F bool;
  state : F string;
  icon : F string;
  title : F string;
  showTaskbarIcon : F bool;
  resizeConstraints : F (Point ResizeConstraint);
  opacity : F Q;
  alwaysOnTop : F bool;
  maximizable : F bool
}.
Arguments center {F} _.
Arguments halfSize {F} _.
Arguments frame {F} _.
Arguments hidden {F} _.
Arguments state {F} _.
Arguments icon {F} _.
Arguments title {F} _.
Arguments showTaskbarIcon {F} _.
Arguments resizeConstraints {F} _.
Arguments opacity {F} _.
Arguments alwaysOnTop {F} _.
Arguments maximizable {F} _.

Definition Full (T : Type) : Type := T.

(** [EntityState]: every slot is filled. *)
Abbreviation EntityState := (StateOf Full).
(** [Partial<EntityState>]: a slot is [None] when the object has no such key. *)
Abbreviation PartialState := (StateOf option).

(** [s[k]] *)
Definition get {F} (s : StateOf F) (k : Property) : F (ftype k) :=
  match k return F (ftype k) with
  | PCenter => center s
  | PHalfSize => halfSize s
  | PFrame => frame s
  | PHidden => hidden s
  | PState => state s
  | PIcon => icon s
  | PTitle => title s
  | PShowTaskbarIcon => showTaskbarIcon s
  | PResizeConstraints => resizeConstraints s
  | POpacity => opacity s
  | PAlwaysOnTop => alwaysOnTop s
  | PMaximizable => maximizable s
  end.

(** The object whose slot [k] is [f k]. *)
Definition build {F} (f : ∀ k : Property, F (ftype k)) : StateOf F := {|
  center := f PCenter;
  halfSize := f PHalfSize;
  frame := f PFrame;
  hidden := f PHidden;
  state := f PState;
  icon := f PIcon;
  title := f PTitle;
  showTaskbarIcon := f PShowTaskbarIcon;
  resizeConstraints := f PResizeConstraints;
  opacity := f POpacity;
  alwaysOnTop := f PAlwaysOnTop;
  maximizable := f PMaximizable
|}.

(** [{}] *)
Definition emptyState : PartialState := build (λ _, None).

Global Instance Property_eq_dec : EqDecision Property.
Proof. solve_decision. Defined.

(** [{[k]: v}] *)
Definition single (k : Property) (v : ftype k) : PartialState :=
  build (λ k',
    match decide (k = k') with
    | left e => Some (eq_rect k ftype v k' e)
    | right _ => None
    end).

(** [s[k] = v] *)
Definition setProperty (k : Property) (v : ftype k) (s : EntityState) : EntityState :=
  build (F := Full) (λ k',
    match decide (k = k') with
    | left e => eq_rect k ftype v k' e
    | right _ => get s k'
    end).

(** [s.hasOwnProperty(k)] *)
Definition hasOwnProperty (s : PartialState) (k : Property) : bool :=
  match get s k with Some _ => true | None => false end.

(** [Object.keys(s)] *)
Definition keys (s : PartialState) : list Property :=
  filter (λ k, hasOwnProperty s k = true) all_properties.

(** [Object.assign(target, delta)] on a full state. *)
Definition assign (target : EntityState) (delta : PartialState) : EntityState :=
  build (F := Full) (λ k,
    match get delta k with
    | Some v => v
    | None => get target k
    end).

(** ** Strict inequality, per kind of value *)

Definition bool_neq (a b : bool) : bool := negb (Bool.eqb a b).
Definition string_neq (a b : string) : bool := negb (String.eqb a b).
Definition number_neq (a b : Q) : bool := negb (Qeq_bool a b).

Definition constraint_neq (a b : ResizeConstraint) : bool :=
  number_neq (minSize a) (minSize b) || number_neq (maxSize a) (maxSize b)
  || bool_neq (resizableMin a) (resizableMin b)
  || bool_neq (resizableMax a) (resizableMax b).

(** The comparison [isModified] makes once [prevState[key]] is defined. *)
Definition differs (k : Property) : ftype k → ftype k → bool :=
  match k return ftype k → ftype k → bool with
  | PCenter | PHalfSize =>
      λ prevPoint newPoint,
        number_neq (x prevPoint) (x newPoint) || number_neq (y prevPoint) (y newPoint)
  | PResizeConstraints =>
      λ prevConstraints newConstraints,
        existsb (λ dir : Point ResizeConstraint → ResizeConstraint,
                   constraint_neq (dir prevConstraints) (dir newConstraints))
                [x; y]
  | PFrame | PHidden | PShowTaskbarIcon | PAlwaysOnTop | PMaximizable => bool_neq
  | PState | PIcon | PTitle => string_neq
  | POpacity => number_neq
  end.

Definition isModified (key : Property) (prevState : PartialState) (newState : EntityState) : bool :=
  match get prevState key with
  | None => true
  | Some prev => differs key prev (get newState key)
  end.

(** ** Windows *)

Inductive ActionOrigin := APPLICATION | SERVICE | SERVICE_TEMPORARY.
Inductive LifecycleStage := STARTING | READY | ENDING.

Global Instance ActionOrigin_eq_dec : EqDecision ActionOrigin.
Proof. solve_decision. Defined.
Global Instance LifecycleStage_eq_dec : EqDecision LifecycleStage.
Proof. solve_decision. Defined.

Record WindowIdentity := { uuid : string; name : string }.

Global Instance WindowIdentity_eq_dec : EqDecision WindowIdentity.
Proof. solve_decision. Defined.
Global Instance WindowIdentity_countable : Countable WindowIdentity.
Proof.
  refine (inj_countable' (λ i, (uuid i, name i)) (λ p, {| uuid := p.1; name := p.2 |}) _).
  by intros [].
Defined.

(** A [DesktopSnapGroup] object, named by the order of its allocation. *)
Definition GroupRef : Type := nat.

(** The payload of [window.updateOptions]. *)
Inductive OptionsUpdate :=
| ResizeOptions (resizable : bool) (sideLeft sideRight sideTop sideBottom : bool)
    (minWidth minHeight : Q) (maxWidth maxHeight : option Q)
| SimpleOptions (options : PartialState).

(** Calls on the wrapped [fin] window. *)
Inductive Command :=
| hide
| show
| restore
| minimize
| maximize
| setBounds (bounds : WindowBounds.t)
| updateOptions (options : OptionsUpdate)
| bringToFront
| setAsForeground
| close (force : bool)
| mergeGroups (target : WindowIdentity)
| leaveGroup.

(** The tag [addPendingActions] attaches to a promise: the text, the delta
    that [updateState] serialises into it, and "(i of n)" for an array. *)
Record ActionTag := {
  label : string;
  payload : option PartialState;
  position : option (nat * nat)
}.

(** What a pending promise stands for: a call on the wrapped window, or the
    body of [snap] that joins the native groups. *)
Inductive Promise :=
| nativeCall (c : Command)
| joinGroupPromise (other : WindowIdentity).

Record PendingAction := { tag : ActionTag; promise : Promise }.

(** [Mask<eTransformType>] *)
Definition MOVE : Z := Z.shiftl 1 0.
Definition RESIZE : Z := Z.shiftl 1 1.

Record BoundsChange := { transformType : Z; startBounds : Rectangle.t }.

Record DesktopWindow := {
  _identity : WindowIdentity;
  _currentState : EntityState;
  _applicationState : EntityState;
  _modifiedState : PartialState;
  _temporaryState : PartialState;
  _snapGroup : GroupRef;
  _prevGroup : option GroupRef;
  _lifecycleStage : LifecycleStage;
  _pendingActions : list PendingAction;
  _moveInProgress : bool;
  _userInitiatedBoundsChange : option BoundsChange
}.

Definition _id (w : DesktopWindow) : string :=
  uuid (_identity w) +:+ "/" +:+ name (_identity w).

Definition isReady (w : DesktopWindow) : bool :=
  bool_decide (_lifecycleStage w = READY).

(** How an [async] method ends: its promise is rejected when the body throws. *)
Inductive Completion := Resolved | Rejected (message : string).

(** The collaborators the class reaches outside its own file. *)
Class Platform := {
  (** [isWin10()] of [snapanddock/utils/platform] *)
  isWin10 : bool;
  (** [DesktopModel.getMonitorByRect]: the rectangle of the monitor that
      holds a given rectangle *)
  getMonitorByRect : Rectangle.t → Rectangle.t
}.

(** [createTemporaryState()]: the placeholder state of a window whose real
    state has not been fetched yet. *)
Definition createTemporaryState : EntityState := {|
  center := {| x := 500%Q; y := 300%Q |};
  halfSize := {| x := 200%Q; y := 100%Q |};
  frame := false;
  hidden := false;
  state := "normal";
  icon := "";
  title := "";
  showTaskbarIcon := true;
  resizeConstraints :=
    {| x := {| minSize := 0%Q; maxSize := MAX_SAFE_INTEGER; resizableMin := true; resizableMax := true |};
       y := {| minSize := 0%Q; maxSize := MAX_SAFE_INTEGER; resizableMin := true; resizableMax := true |} |};
  opacity := 1%Q;
  alwaysOnTop := false;
  maximizable := true
|}.

(** ** The update pipeline *)

Definition with_currentState (s : EntityState) (w : DesktopWindow) : DesktopWindow := {|
  _identity := _identity w;
  _currentState := s;
  _applicationState := _applicationState w;
  _modifiedState := _modifiedState w;
  _temporaryState := _temporaryState w;
  _snapGroup := _snapGroup w;
  _prevGroup := _prevGroup w;
  _lifecycleStage := _lifecycleStage w;
  _pendingActions := _pendingActions w;
  _moveInProgress := _moveInProgress w;
  _userInitiatedBoundsChange := _userInitiatedBoundsChange w
|}.

Definition with_states (current application : EntityState) (modified temporary : PartialState)
    (w : DesktopWindow) : DesktopWindow := {|
  _identity := _identity w;
  _currentState := current;
  _applicationState := application;
  _modifiedState := modified;
  _temporaryState := temporary;
  _snapGroup := _snapGroup w;
  _prevGroup := _prevGroup w;
  _lifecycleStage := _lifecycleStage w;
  _pendingActions := _pendingActions w;
  _moveInProgress := _moveInProgress w;
  _userInitiatedBoundsChange := _userInitiatedBoundsChange w
|}.

Definition with_pendingActions (actions : list PendingAction) (w : DesktopWindow) : DesktopWindow := {|
  _identity := _identity w;
  _currentState := _currentState w;
  _applicationState := _applicationState w;
  _modifiedState := _modifiedState w;
  _temporaryState := _temporaryState w;
  _snapGroup := _snapGroup w;
  _prevGroup := _prevGroup w;
  _lifecycleStage := _lifecycleStage w;
  _pendingActions := actions;
  _moveInProgress := _moveInProgress w;
  _userInitiatedBoundsChange := _userInitiatedBoundsChange w
|}.

Definition with_lifecycleStage (stage : LifecycleStage) (w : DesktopWindow) : DesktopWindow := {|
  _identity := _identity w;
  _currentState := _currentState w;
  _applicationState := _applicationState w;
  _modifiedState := _modifiedState w;
  _temporaryState := _temporaryState w;
  _snapGroup := _snapGroup w;
  _prevGroup := _prevGroup w;
  _lifecycleStage := stage;
  _pendingActions := _pendingActions w;
  _moveInProgress := _moveInProgress w;
  _userInitiatedBoundsChange := _userInitiatedBoundsChange w
|}.

(** [addPendingActions(tag, actions)] with an array: every promise is pushed
    on [_pendingActions] and tagged "(index + 1 of length)". *)
Definition addPendingActions (text : string) (serialised : option PartialState)
    (actions : list Command) (w : DesktopWindow) : DesktopWindow :=
  with_pendingActions
    (_pendingActions w ++
       imap (λ index action,
               {| tag := {| label := text; payload := serialised;
                            position := Some (S index, length actions) |};
                  promise := nativeCall action |})
            actions)
    w.

(** [addPendingActions(tag, action)] with a single promise. *)
Definition addPendingAction (text : string) (action : Promise) (w : DesktopWindow) : DesktopWindow :=
  with_pendingActions
    (_pendingActions w ++
       [{| tag := {| label := text; payload := None; position := None |}; promise := action |}])
    w.

(** [const {center, halfSize, state, hidden, resizeConstraints, ...options} = delta] *)
Definition restOptions (delta : PartialState) : PartialState := {|
  center := None;
  halfSize := None;
  frame := frame delta;
  hidden := None;
  state := None;
  icon := icon delta;
  title := title delta;
  showTaskbarIcon := showTaskbarIcon delta;
  resizeConstraints := None;
  opacity := opacity delta;
  alwaysOnTop := alwaysOnTop delta;
  maximizable := maximizable delta
|}.

(** [a || b] on two optional objects. *)
Definition orElse {T} (a : option T) (b : T) : T :=
  match a with Some v => v | None => b end.

(** The work-around for RUN-5010 on one axis. *)
Definition maxOption (requested previous : ResizeConstraint) : option Q :=
  if Qeq_bool (maxSize requested) MAX_SAFE_INTEGER then
    if Qeq_bool (maxSize previous) MAX_SAFE_INTEGER then None else Some (-1 # 1)%Q
  else Some (maxSize requested).

Section Window.
Context {platform : Platform}.

(** The native calls [updateState] makes for a delta of service origin;
    [current] is [_currentState] after the delta has been merged in. *)
Definition nativeActions (delta : PartialState) (prevState : string)
    (prevConstraints : Point ResizeConstraint) (current : EntityState) : list Command :=
  let options := restOptions delta in
  let optionsToChange := keys options in
  (* Apply visibility *)
  match hidden delta with
  | Some h => [if h then hide else show]
  | None => []
  end
  ++
  (* Apply window state *)
  match state delta with
  | Some s =>
      if string_neq s prevState then
        if String.eqb s "normal" then [restore]
        else if String.eqb s "minimized" then [minimize]
        else if String.eqb s "maximized" then [maximize]
        else []
      else []
  | None => []
  end
  ++
  (* Apply bounds *)
  match center delta, halfSize delta with
  | None, None => []
  | c, h =>
      let newCenter := orElse c (center current) in
      let newHalfSize := orElse h (halfSize current) in
      let newCenter' :=
        if isWin10 && (frame current : bool)
        then {| x := x newCenter; y := (y newCenter + 3.5)%Q |} else newCenter in
      let newHalfSize' :=
        if isWin10 && (frame current : bool)
        then {| x := (x newHalfSize + 7)%Q; y := (y newHalfSize + 3.5)%Q |} else newHalfSize in
      [setBounds {| WindowBounds.left := (x newCenter' - x newHalfSize')%Q;
                    WindowBounds.top := (y newCenter' - y newHalfSize')%Q;
                    WindowBounds.width := (x newHalfSize' * 2)%Q;
                    WindowBounds.height := (y newHalfSize' * 2)%Q |}]
  end
  ++
  match resizeConstraints delta with
  | Some rc =>
      [updateOptions
         (ResizeOptions
            (resizableMin (x rc) || resizableMax (x rc) || resizableMin (y rc) || resizableMax (y rc))
            (resizableMin (x rc)) (resizableMax (x rc))
            (resizableMin (y rc)) (resizableMax (y rc))
            (minSize (x rc)) (minSize (y rc))
            (maxOption (x rc) (x prevConstraints))
            (maxOption (y rc) (y prevConstraints)))]
  | None => []
  end
  ++
  (* Apply options *)
  (if bool_decide (0 < length optionsToChange)%nat
   then [updateOptions (SimpleOptions options)] else []).

(** [updateState(delta, origin)].  The completion says whether the body
    threw; the promise it returns on success settles with the native
    commands it queued. *)
Definition updateState (delta : PartialState) (origin : ActionOrigin) (w : DesktopWindow)
    : Completion * DesktopWindow :=
  if bool_decide (origin ≠ APPLICATION) && negb (isReady w) then
    (* Ensure we can modify window before we update our cache *)
    (Rejected ("Cannot modify window, window not in ready state " +:+ _id w), w)
  else
    let current := _currentState w in
    (* Update application state and modifications in comparison to application state *)
    let applicationState :=
      match origin with
      | APPLICATION =>
          build (F := Full) (λ property,
            match get delta property with
            | Some v =>
                if isModified property delta current then v
                else get (_applicationState w) property
            | None => get (_applicationState w) property
            end)
      | _ => _applicationState w
      end in
    let modifiedState :=
      match origin with
      | APPLICATION => _modifiedState w
      | _ =>
          build (F := option) (λ property,
            match get delta property with
            | Some v =>
                if isModified property delta (_applicationState w) then Some v else None
            | None => get (_modifiedState w) property
            end)
      end in
    (* Update temporary values *)
    let temporaryState :=
      match origin with
      | SERVICE_TEMPORARY =>
          build (F := option) (λ property,
            match get delta property with
            | Some _ =>
                if hasOwnProperty (_temporaryState w) property
                then get (_temporaryState w) property
                else Some (get current property)
            | None => get (_temporaryState w) property
            end)
      | _ =>
          build (F := option) (λ property,
            match get delta property with
            | Some _ => None
            | None => get (_temporaryState w) property
            end)
      end in
    let prevState := state current in
    let prevConstraints := resizeConstraints current in
    let current' := assign current delta in
    let w' := with_states current' applicationState modifiedState temporaryState w in
    match origin with
    | APPLICATION => (Resolved, w')
    | _ =>
        (Resolved,
         addPendingActions ("updateState " +:+ _id w) (Some delta)
           (nativeActions delta prevState prevConstraints current') w')
    end.

(** [applyProperties]: the promise of [updateState] is dropped, so the
    method resolves whatever becomes of it. *)
Definition applyProperties (properties : PartialState) (w : DesktopWindow)
    : Completion * DesktopWindow :=
  (Resolved, (updateState properties SERVICE w).2).

Definition resetOverride (property : Property) (w : DesktopWindow)
    : Completion * DesktopWindow :=
  match get (_temporaryState w) property with
  | Some value =>
      updateState (single property value) SERVICE
        (with_currentState (setProperty property value (_currentState w)) w)
  | None => (Resolved, w)
  end.

End Window.

(** ** The sync barrier *)

Definition MAX_AWAITS : nat := 10.

(** What [await Promise.all(this._pendingActions)] comes back with.
    - [Fulfilled queued]: every awaited promise fulfilled, and so took itself
      off the list ([onActionComplete]); [queued] is what was pushed on the
      list in the meantime and is still pending.
    - [Failed message remaining]: an awaited promise rejected; it never
      leaves the list, which is now [remaining]. *)
Inductive AwaitOutcome :=
| Fulfilled (queued : list PendingAction)
| Failed (message : string) (remaining : list PendingAction).

(** The windowing surface, as [sync] sees it: the answer to the n-th await
    of a list of pending promises. *)
Definition Surface : Type := nat → list PendingAction → AwaitOutcome.

(** How a run of the loop of [sync] ends: the way the promise settles, the
    list it leaves, and how many times it awaited. *)
Record SyncRun := {
  completion : Completion;
  pendingLeft : list PendingAction;
  awaits : nat
}.

Equations? syncLoop (surface : Surface) (identifier : string)
    (pending : list PendingAction) (awaitCount : nat)
    : SyncRun by wf (S MAX_AWAITS - awaitCount) lt :=
  syncLoop surface identifier [] awaitCount :=
    {| completion := Resolved; pendingLeft := []; awaits := awaitCount |};
  syncLoop surface identifier (action :: rest) awaitCount
    with le_dec (S awaitCount) MAX_AWAITS := {
    | left _ with surface (S awaitCount) (action :: rest) := {
        (* Wait for pending operations to finish *)
        | Fulfilled queued := syncLoop surface identifier queued (S awaitCount);
        | Failed message remaining :=
            {| completion := Rejected message; pendingLeft := remaining;
               awaits := S awaitCount |} };
    | right _ :=
        (* If we've looped this many times, we're probably in some kind of deadlock scenario *)
        {| completion :=
             Rejected ("Couldn't sync " +:+ identifier +:+ " after "
                       +:+ pretty (S awaitCount) +:+ " attempts");
           pendingLeft := action :: rest;
           awaits := awaitCount |} }.
Proof. lia. Qed.

Definition sync (surface : Surface) (w : DesktopWindow) : Completion * DesktopWindow :=
  let run := syncLoop surface (_id w) (_pendingActions w) 0 in
  (completion run, with_pendingActions (pendingLeft run) w).

(** The list the loop finds after [n] more awaits that were all fulfilled,
    from a list [pending] met with the counter at [awaitCount]. *)
Fixpoint pendingAfter (surface : Surface) (awaitCount : nat) (pending : list PendingAction)
    (n : nat) : option (list PendingAction) :=
  match n with
  | 0 => Some pending
  | S m =>
      match surface (S awaitCount) pending with
      | Fulfilled queued => pendingAfter surface (S awaitCount) queued m
      | Failed _ _ => None
      end
  end.

(** ** Classifying a user's bounds change *)

Definition MINIMUM_RESIZE_CHANGE : Q := 2.
Definition MINIMUM_MOVE_CHANGE : Q := 2.

(** [fin.WindowBoundsEvent] *)
Record WindowBoundsEvent := { changeType : Z; eventBounds : WindowBounds.t }.

(** Calls on the window's snap group that the classifier makes. *)
Inductive GroupCall := suspendResizeConstraints | restoreResizeConstraints.

(** [Math.sign] *)
Definition sign (q : Q) : Q :=
  match (q ?= 0)%Q with
  | Lt => (-1 # 1)%Q
  | Eq => 0%Q
  | Gt => 1%Q
  end.

(** [a > b] on numbers *)
Definition number_gt (a b : Q) : bool := negb (Qle_bool a b).

(** [a || b] on numbers: [0] is falsy. *)
Definition orNumber (a b : Q) : Q := if Qeq_bool a 0 then b else a.

Section Classifier.
Context {platform : Platform}.

Definition checkBounds (w : DesktopWindow) (bounds : WindowBounds.t) : WindowBounds.t :=
  if isWin10 && (frame (_currentState w) : bool) then
    {| WindowBounds.left := (WindowBounds.left bounds + 7)%Q;
       WindowBounds.top := WindowBounds.top bounds;
       WindowBounds.width := (WindowBounds.width bounds - 14)%Q;
       WindowBounds.height := (WindowBounds.height bounds - 7)%Q |}
  else bounds.

Definition evaluateAxis (axis : Point Q → Q) (startBounds : Rectangle.t)
    (center halfSize : Point Q) : Z :=
  let resize :=
    number_gt (Qabs (axis halfSize - axis (Rectangle.halfSize startBounds)) * 2)%Q
       MINIMUM_RESIZE_CHANGE in
  let expectedCenter :=
    if negb resize then axis (Rectangle.center startBounds)
    else
      let sizeChangeSign := sign (axis halfSize - axis (Rectangle.halfSize startBounds))%Q in
      (* If start and new centers are equal, arbitrarily pick a sign, so as to not
         accidentally support 'symmetrical' resize from both edges *)
      let centerChangeSign :=
        orNumber (sign (axis center - axis (Rectangle.center startBounds))%Q) 1%Q in
      let expectedEdgeChanged := (sizeChangeSign * centerChangeSign)%Q in
      (axis (Rectangle.center startBounds)
       + expectedEdgeChanged * (axis halfSize - axis (Rectangle.halfSize startBounds)))%Q in
  let move := number_gt (Qabs (expectedCenter - axis center))%Q MINIMUM_MOVE_CHANGE in
  Z.lor (if move then MOVE else 0%Z) (if resize then RESIZE else 0%Z).

(** [updateTransformType(event, boundsChange)]: the mask returned, the
    bounds-change record as the call leaves it, and the call made on the
    snap group, if any. *)
Definition updateTransformType (displayScaling : bool) (w : DesktopWindow)
    (event : WindowBoundsEvent) (boundsChange : BoundsChange)
    : Z * BoundsChange * option GroupCall :=
  (* If display scaling is enabled, distrust the changeType given by the runtime *)
  if displayScaling then
    let prevTransformType := transformType boundsChange in
    let startBounds := startBounds boundsChange in
    let bounds := checkBounds w (eventBounds event) in
    let halfSize := {| x := (WindowBounds.width bounds / 2)%Q;
                       y := (WindowBounds.height bounds / 2)%Q |} in
    let center := {| x := (WindowBounds.left bounds + x halfSize)%Q;
                     y := (WindowBounds.top bounds + y halfSize)%Q |} in
    let afterX := Z.lor prevTransformType (evaluateAxis x startBounds center halfSize) in
    let afterY := Z.lor afterX (evaluateAxis y startBounds center halfSize) in
    (* Err on the side of regarding transforms as purely moves *)
    let newTransformType :=
      if negb (Z.land afterY MOVE =? 0)%Z then MOVE else afterY in
    let call :=
      if (newTransformType =? MOVE)%Z && negb (prevTransformType =? MOVE)%Z
      then Some suspendResizeConstraints
      else if negb (newTransformType =? MOVE)%Z && (prevTransformType =? MOVE)%Z
      then Some restoreResizeConstraints
      else None in
    (newTransformType,
     {| transformType := newTransformType; startBounds := startBounds |},
     call)
  else
    (* Convert 'changeType' into our enum type *)
    ((changeType event + 1)%Z, boundsChange, None).

End Classifier.

(** ** The [currentState] getter

    The getter either hands out the stored state object or allocates a new
    one, so state objects are kept in a store and named by their address. *)

Module Objects.
Definition Store : Type := gmap nat EntityState.

(** A newly allocated object holding [contents]. *)
Definition alloc (contents : EntityState) (σ : Store) : nat * Store :=
  let address := fresh (dom σ) in (address, <[address := contents]> σ).
End Objects.

(** [{...state, ...rectangle}] *)
Definition spreadRectangle (s : EntityState) (r : Rectangle.t) : EntityState := {|
  center := Rectangle.center r;
  halfSize := Rectangle.halfSize r;
  frame := frame s;
  hidden := hidden s;
  state := state s;
  icon := icon s;
  title := title s;
  showTaskbarIcon := showTaskbarIcon s;
  resizeConstraints := resizeConstraints s;
  opacity := opacity s;
  alwaysOnTop := alwaysOnTop s;
  maximizable := maximizable s
|}.

(** A state read as the [Rectangle] it extends. *)
Definition asRectangle (s : EntityState) : Rectangle.t :=
  {| Rectangle.center := center s; Rectangle.halfSize := halfSize s |}.

Section Getter.
Context {platform : Platform}.

(** [get currentState()], for a window whose [_currentState] is the object
    at [this_currentState]: the address of the object returned, and the
    store afterwards.  [None] if the address is dangling. *)
Definition currentState (this_currentState : nat) (σ : Objects.Store)
    : option (nat * Objects.Store) :=
  stored ← σ !! this_currentState;
  (* Special handling to return apparent bounds for maximized windows *)
  if String.eqb (state stored) "maximized" then
    let currentMonitor := getMonitorByRect (asRectangle stored) in
    Some (Objects.alloc (spreadRectangle stored currentMonitor) σ)
  else Some (this_currentState, σ).

End Getter.

(** ** The model around a window: registry, snap groups, transactions *)

Module Debounced.
(** Modelled from the spec: the class [Debounced] of
    snapanddock/utils/Debounced, which is not in this file.  Section 4.2: the
    record is removed "only after a debounce delay following completion";
    section 4.4: an event met during a transaction is "marked for
    postponement of that transaction's cleanup".  The handle records that
    [call()] scheduled the removal and how often [postpone()] was asked to
    push it back; the timer itself is real time. *)
Record t := { scheduled : bool; postponements : nat }.
(** Modelled from the spec: [new Debounced(callback, scope)], nothing
    scheduled yet. *)
Definition new : t := {| scheduled := false; postponements := 0 |}.
(** Modelled from the spec: [Debounced.call()], which schedules the removal. *)
Definition call (d : t) : t := {| scheduled := true; postponements := postponements d |}.
(** Modelled from the spec: [Debounced.postpone()]. *)
Definition postpone (d : t) : t :=
  {| scheduled := scheduled d; postponements := S (postponements d) |}.
End Debounced.

(** [interface Transaction]; [id] stands for the identity of the record. *)
Module Transaction.
Record t := { id : nat; windows : list WindowIdentity; remove : Debounced.t }.
End Transaction.

(** [fin.WindowGroupChangedEvent] *)
Module GroupEvent.
Record member := { appUuid : string; windowName : string }.
Record t := {
  name : string;
  uuid : string;
  reason : string;
  sourceGroup : list member;
  sourceWindowAppUuid : string;
  sourceWindowName : string;
  targetGroup : list member;
  targetWindowAppUuid : string;
  targetWindowName : string
}.
End GroupEvent.

(** Modelled from the spec: [DesktopModel] and [DesktopSnapGroup], which are
    not in this file, as far as the class uses them.  [registry] is the
    model's window lookup ([getWindow]) and at the same time the store of the
    window objects: a [DesktopWindow] object is named by its identity,
    "unique and immutable for the entity's lifetime".  [snapGroups] gives
    each group object its [windows] array ("always non-empty, singleton by
    default" once a window has been put in).  The static
    [activeTransactions], the model's [displayScaling] and the calls made on
    the windowing surface complete the world. *)
Record World := {
  registry : gmap WindowIdentity DesktopWindow;
  snapGroups : gmap GroupRef (list WindowIdentity);
  nextGroup : GroupRef;
  activeTransactions : list Transaction.t;
  nextTransaction : nat;
  displayScaling : bool;
  (** the calls made on the windowing surface without going through
      [addPendingActions], oldest first *)
  nativeCalls : list (WindowIdentity * Command)
}.

Definition with_registry (r : gmap WindowIdentity DesktopWindow) (σ : World) : World := {|
  registry := r;
  snapGroups := snapGroups σ;
  nextGroup := nextGroup σ;
  activeTransactions := activeTransactions σ;
  nextTransaction := nextTransaction σ;
  displayScaling := displayScaling σ;
  nativeCalls := nativeCalls σ
|}.

Definition with_snapGroups (g : gmap GroupRef (list WindowIdentity)) (next : GroupRef)
    (σ : World) : World := {|
  registry := registry σ;
  snapGroups := g;
  nextGroup := next;
  activeTransactions := activeTransactions σ;
  nextTransaction := nextTransaction σ;
  displayScaling := displayScaling σ;
  nativeCalls := nativeCalls σ
|}.

Definition with_activeTransactions (l : list Transaction.t) (next : nat) (σ : World) : World := {|
  registry := registry σ;
  snapGroups := snapGroups σ;
  nextGroup := nextGroup σ;
  activeTransactions := l;
  nextTransaction := next;
  displayScaling := displayScaling σ;
  nativeCalls := nativeCalls σ
|}.

Definition with_nativeCalls (l : list (WindowIdentity * Command)) (σ : World) : World := {|
  registry := registry σ;
  snapGroups := snapGroups σ;
  nextGroup := nextGroup σ;
  activeTransactions := activeTransactions σ;
  nextTransaction := nextTransaction σ;
  displayScaling := displayScaling σ;
  nativeCalls := l
|}.

Definition with_groups (current : GroupRef) (previous : option GroupRef) (w : DesktopWindow)
    : DesktopWindow := {|
  _identity := _identity w;
  _currentState := _currentState w;
  _applicationState := _applicationState w;
  _modifiedState := _modifiedState w;
  _temporaryState := _temporaryState w;
  _snapGroup := current;
  _prevGroup := previous;
  _lifecycleStage := _lifecycleStage w;
  _pendingActions := _pendingActions w;
  _moveInProgress := _moveInProgress w;
  _userInitiatedBoundsChange := _userInitiatedBoundsChange w
|}.

(** *** Asynchronous methods, run to their end

    A method is a function of the world that ends by resolving or by
    throwing, and leaves the world as its effects made it.  Methods run one
    after the other: what other handlers would do between two awaits of one
    method is not part of the model. *)

Inductive Result (A : Type) := Ok (value : A) | Threw (message : string).
Arguments Ok {A} _.
Arguments Threw {A} _.

Definition Method (A : Type) : Type := World → Result A * World.

Definition ret {A} (a : A) : Method A := λ σ, (Ok a, σ).
Definition throw {A} (message : string) : Method A := λ σ, (Threw message, σ).
Definition bind {A B} (m : Method A) (k : A → Method B) : Method B :=
  λ σ, match m σ with
       | (Ok a, σ') => k a σ'
       | (Threw message, σ') => (Threw message, σ')
       end.

Notation "a <~ m ; k" := (bind m (λ a, k))
  (at level 20, m at level 100, k at level 200, only parsing).
Notation "m ;;; k" := (bind m (λ _, k))
  (at level 100, k at level 200, only parsing, right associativity).

(** [try { body } finally { cleanup }] *)
Definition tryFinally {A} (body : Method A) (cleanup : Method unit) : Method A :=
  λ σ, match body σ with
       | (outcome, σ') =>
           match cleanup σ' with
           | (Ok _, σ'') => (outcome, σ'')
           | (Threw message, σ'') => (Threw message, σ'')
           end
       end.

(** A promise nobody awaits: its effects happen, its rejection is lost. *)
Definition detached {A} (m : Method A) : Method unit := λ σ, (Ok (), (m σ).2).

(** [Promise.all(windows.map(f))]: every call runs to its end whatever
    becomes of the others; the array rejects with the first rejection, in
    array order. *)
Fixpoint all (f : WindowIdentity → Method unit) (windows : list WindowIdentity) : Method unit :=
  match windows with
  | [] => ret ()
  | w :: rest =>
      λ σ, match f w σ with
           | (outcome, σ') =>
               match all f rest σ' with
               | (others, σ'') =>
                   (match outcome with Threw message => Threw message | Ok _ => others end, σ'')
               end
           end
  end.

(** [windows.forEach(f)] where [f] starts a method and drops its promise. *)
Fixpoint forEachDetached (f : WindowIdentity → Method unit) (windows : list WindowIdentity)
    : Method unit :=
  match windows with
  | [] => ret ()
  | w :: rest => detached (f w) ;;; forEachDetached f rest
  end.

(** Dereferencing a window object.  Every reference the class holds is to a
    live object; a dangling one stops the model.  [DesktopModel.getWindow]
    is the same lookup, with [null] for [None]. *)
Definition window (this : WindowIdentity) : Method DesktopWindow :=
  λ σ, match registry σ !! this with
       | Some w => (Ok w, σ)
       | None => (Threw "no such window object", σ)
       end.

Definition store (this : WindowIdentity) (w : DesktopWindow) : Method unit :=
  λ σ, (Ok (), with_registry (<[this := w]> (registry σ)) σ).

(** Modelled from the spec: [DesktopSnapGroup.windows], the members of a
    group; [DesktopSnapGroup.length] is their number. *)
Definition groupWindows (group : GroupRef) : Method (list WindowIdentity) :=
  λ σ, (Ok (default [] (snapGroups σ !! group)), σ).

(** Modelled from the spec: [new DesktopSnapGroup()], a group without
    members yet. *)
Definition newSnapGroup : Method GroupRef :=
  λ σ, (Ok (nextGroup σ),
        with_snapGroups (<[nextGroup σ := []]> (snapGroups σ)) (S (nextGroup σ)) σ).

(** Modelled from the spec: [DesktopSnapGroup.addWindow].  The doc comment of
    [setSnapGroup]: moving a window into a group "also handles removing the
    window from it's previous group" and "will also add the window to the
    group".  [previous] is the group the window comes from. *)
Definition addWindow (group : GroupRef) (previous : GroupRef) (this : WindowIdentity)
    : Method unit :=
  λ σ,
    let members := default [] (snapGroups σ !! group) in
    if bool_decide (this ∈ members) then (Ok (), σ)
    else
      let left := filter (λ i, i ≠ this) (default [] (snapGroups σ !! previous)) in
      let groups := <[previous := left]> (snapGroups σ) in
      let joined := (default [] (groups !! group) ++ [this])%list in
      (Ok (), with_snapGroups (<[group := joined]> groups) (nextGroup σ) σ).

(** [s.includes(part)] *)
Definition includes (s part : string) : bool :=
  match String.index 0 part s with Some _ => true | None => false end.

(** What the windowing surface answers to the class. *)
Class Surfaces := {
  (** the answers to the awaits of one window's [sync] *)
  pendingSurface : WindowIdentity → Surface;
  (** how a promise awaited directly ([leaveGroup], [mergeGroups]) settles *)
  nativeAnswer : WindowIdentity → Command → Completion
}.

(** [String.prototype.localeCompare].  The comparison is consistent:
    swapping the arguments reverses the answer, and "comes before" is
    transitive.  It need not tell all strings apart: under the default
    collation two strings that differ in ignorable characters only, as "a"
    and "a\u0001", compare equal. *)
Class Collation := {
  localeCompare : string → string → comparison;
  localeCompare_antisym a b : localeCompare a b = CompOpp (localeCompare b a);
  localeCompare_trans a b c :
    localeCompare a b = Lt → localeCompare b c = Lt → localeCompare a c = Lt
}.

(** [w => ({uuid: w.appUuid, name: w.windowName})] *)
Definition toIdentity (w : GroupEvent.member) : WindowIdentity :=
  {| uuid := GroupEvent.appUuid w; name := GroupEvent.windowName w |}.

Section Groups.
Context {platform : Platform} {surfaces : Surfaces} {collation : Collation}.

(** The comparator both [sort] calls of [compareSnapAndEventWindowArrays]
    are given. *)
Definition compareIdentities (a b : WindowIdentity) : comparison :=
  if String.eqb (uuid a) (uuid b) then localeCompare (name a) (name b)
  else localeCompare (uuid a) (uuid b).

(** [a] may stay before [b]: the comparator is not positive. *)
Definition inOrder (a b : WindowIdentity) : Prop := compareIdentities a b ≠ Gt.

Global Instance inOrder_dec a b : Decision (inOrder a b).
Proof. unfold inOrder. apply _. Defined.

(** [a] put in front of the first identity of [sorted] that it may stay
    before. *)
Fixpoint insertInOrder (a : WindowIdentity) (sorted : list WindowIdentity)
    : list WindowIdentity :=
  match sorted with
  | [] => [a]
  | b :: rest => if decide (inOrder a b) then a :: b :: rest else b :: insertInOrder a rest
  end.

(** [array.sort(comparator)].  The sort is stable: of two identities that
    the comparator holds equal, the one that came first stays first.  (Where
    the comparator is not consistent on the array, as it can be when two
    different uuids compare equal, the order is the implementation's
    choice; nothing is proved for such arrays.) *)
Definition sort (l : list WindowIdentity) : list WindowIdentity :=
  foldr insertInOrder [] l.

(** [snapWindows] are the identities of the group's windows. *)
Definition compareSnapAndEventWindowArrays (snapWindows : list WindowIdentity)
    (eventWindows : list GroupEvent.member) : bool :=
  bool_decide (sort snapWindows = sort (map toIdentity eventWindows)).

(** The comparator tells the identities of [l] apart: no two different ones
    compare equal. *)
Definition toldApart (l : list WindowIdentity) : Prop :=
  ∀ a b, a ∈ l → b ∈ l → compareIdentities a b = Eq → a = b.

(** A call awaited directly on the wrapped window. *)
Definition native (this : WindowIdentity) (c : Command) : Method unit :=
  λ σ, (match nativeAnswer this c with
        | Resolved => Ok ()
        | Rejected message => Threw message
        end,
        with_nativeCalls (nativeCalls σ ++ [(this, c)])%list σ).

(** [this.sync()] on the window object [this]. *)
Definition syncWindow (this : WindowIdentity) : Method unit :=
  w <~ window this;
  let result := sync (pendingSurface this) w in
  store this result.2 ;;;
  match result.1 with
  | Resolved => ret ()
  | Rejected message => throw message
  end.

Definition unsnap (this : WindowIdentity) : Method unit :=
  w <~ window this;
  if isReady w then native this leaveGroup else ret ().

(** [.catch(error => this.checkClose(error))] on the outcome of a call *)
Definition checkClose (this : WindowIdentity) (call : Method unit) : Method unit :=
  λ σ, match call σ with
       | (Ok _, σ') => (Ok (), σ')
       | (Threw message, σ') =>
           if includes message "Could not locate the requested window" then
             (* Pre-emptively clear ready flag to prevent future window interactions *)
             (w <~ window this; store this (with_lifecycleStage ENDING w)) σ'
           else (Threw message, σ')
       end.

(** [group.windows.find(item => item.isReady && item !== this)] *)
Definition findReadyOther (this : WindowIdentity) (members : list WindowIdentity) (σ : World)
    : option WindowIdentity :=
  list_find (λ item, (isReady <$> registry σ !! item) = Some true ∧ item ≠ this) members
  ≫= λ found, Some found.2.

(** The body of [joinGroupPromise]. *)
Definition joinGroup (this other : WindowIdentity) (group : GroupRef) : Method unit :=
  w <~ window this;
  if isReady w && bool_decide (group = _snapGroup w) then
    o <~ window other;
    members <~ groupWindows group;
    target <~ (λ σ, (Ok (if isReady o then Some other else findReadyOther this members σ), σ));
    match target with
    | None => ret ()
    | Some target =>
        checkClose this (native this (mergeGroups target)) ;;;
        (* Re-fetch window list in case it has changed during sync *)
        w' <~ window this;
        windows <~ groupWindows (_snapGroup w');
        (* Bring other windows in group to front *)
        forEachDetached
          (λ groupWindow,
             g <~ window groupWindow;
             if isReady g then native groupWindow bringToFront else ret ())
          windows
    end
  else ret ().


(** [snap()].  The promise of [joinGroup] is handed to
    [addPendingActions]: fulfilled, it has left the list again by the time
    [snap] resolves; rejected, it stays on the list. *)
Definition snap (this : WindowIdentity) : Method unit :=
  w <~ window this;
  let group := _snapGroup w in
  windows <~ groupWindows group;
  match list_find (λ i, i = this) windows with
  | Some (index, _) =>
      if bool_decide (2 ≤ length windows) && isReady w then
        match windows !! (if bool_decide (index = 0) then 1 else 0) with
        | Some other =>
            all syncWindow [this; other] ;;;
            λ σ, match joinGroup this other group σ with
                 | (Ok _, σ') => (Ok (), σ')
                 | (Threw message, σ') =>
                     ((w' <~ window this;
                       store this
                         (addPendingAction "snap - joinGroup" (joinGroupPromise other) w') ;;;
                       throw message) : Method unit) σ'
                 end
        | None => throw "no such window object"
        end
      else throw "Need at least 2 windows in group to snap"
  | None => throw "Attempting to snap, but window isn't in the target group"
  end.

Definition addToSnapGroup (this : WindowIdentity) (group : GroupRef) : Method unit :=
  w <~ window this;
  store this (with_groups group (Some (_snapGroup w)) w) ;;;
  addWindow group (_snapGroup w) this.

Definition setSnapGroup (this : WindowIdentity) (group : GroupRef) : Method unit :=
  w <~ window this;
  if bool_decide (group ≠ _snapGroup w) then
    previous <~ groupWindows (_snapGroup w);
    let wasSnapped := bool_decide (1 < length previous) in
    (* Update state synchronously *)
    addToSnapGroup this group ;;;
    (* Unsnap from any existing windows *)
    (if wasSnapped then unsnap this else ret ()) ;;;
    (* Snap to any other windows in the new group *)
    w' <~ window this;
    joined <~ groupWindows (_snapGroup w');
    if bool_decide (1 < length joined) then snap this else ret ()
  else ret ().

(** The record [t] after a method of its [remove] handle ran. *)
Definition withRemove (f : Debounced.t → Debounced.t) (t : Transaction.t) : Transaction.t :=
  {| Transaction.id := Transaction.id t;
     Transaction.windows := Transaction.windows t;
     Transaction.remove := f (Transaction.remove t) |}.

(** [transaction.remove.call()] / [.postpone()] on the record [id] *)
Definition onRemove (f : Debounced.t → Debounced.t) (id : nat) : Method unit :=
  λ σ, (Ok (),
        with_activeTransactions
          (map (λ t, if bool_decide (Transaction.id t = id) then withRemove f t else t)
               (activeTransactions σ))
          (nextTransaction σ) σ).

(** [static async transaction(windows, transform)] *)
Definition transaction (windows : list WindowIdentity)
    (transform : list WindowIdentity → Method unit) : Method unit :=
  λ σ,
    let id := nextTransaction σ in
    let record := {| Transaction.id := id; Transaction.windows := windows;
                     Transaction.remove := Debounced.new |} in
    tryFinally
      (all syncWindow windows ;;;
       all unsnap windows ;;;
       transform windows ;;;
       all snap windows)
      (* We use the debounced here rather than removing it directly to allow time for
         all related events to be handled. *)
      (onRemove Debounced.call id)
      (with_activeTransactions (activeTransactions σ ++ [record])%list (S id) σ).

(** [transaction.windows.some(w => !!targetWindow && w._id === targetWindow._id)] *)
Definition concerns (targetWindow : option DesktopWindow) (t : Transaction.t) : bool :=
  existsb
    (λ w, match targetWindow with
          | Some target =>
              String.eqb (uuid w +:+ "/" +:+ name w) (_id target)
          | None => false
          end)
    (Transaction.windows t).

Definition handleGroupChanged (this : WindowIdentity) (event : GroupEvent.t) : Method unit :=
  (* To avoid handling the same event twice, we will only handle the event on the
     window that triggered the event *)
  if string_neq (GroupEvent.name event) (GroupEvent.sourceWindowName event)
     || string_neq (GroupEvent.uuid event) (GroupEvent.sourceWindowAppUuid event)
  then ret ()
  else
    syncWindow this ;;;
    λ σ,
      let targetWindow :=
        registry σ !! {| uuid := GroupEvent.targetWindowAppUuid event;
                         name := GroupEvent.targetWindowName event |} in
      let targetGroup := _snapGroup <$> targetWindow in
      (* Ignore events for windows currently under a transaction, and if the transaction
         is over postpone it's removal in case there are more events yet to be handled. *)
      let relevantTransactions := filter (λ t, concerns targetWindow t = true) (activeTransactions σ) in
      if bool_decide (0 < length relevantTransactions) then
        foldr (λ t rest, onRemove Debounced.postpone (Transaction.id t) ;;; rest) (ret ())
              relevantTransactions σ
      else
        (w <~ window this;
         members <~ groupWindows (_snapGroup w);
         if String.eqb (GroupEvent.reason event) "leave" then
           let modifiedSourceGroup :=
             (GroupEvent.sourceGroup event
              ++ [{| GroupEvent.appUuid := uuid (_identity w);
                     GroupEvent.windowName := name (_identity w) |}])%list in
           if bool_decide (1 < length members)
              && compareSnapAndEventWindowArrays members modifiedSourceGroup
           then group <~ newSnapGroup; setSnapGroup this group
           else ret ()
         else if String.eqb (GroupEvent.reason event) "join" then
           match targetGroup with
           | Some targetGroup =>
               if compareSnapAndEventWindowArrays members (GroupEvent.targetGroup event)
               then ret ()
               else addToSnapGroup this targetGroup
           | None => ret ()
           end
         else if String.eqb (GroupEvent.reason event) "merge" then
           match targetGroup with
           | Some targetGroup =>
               forEachDetached (λ member, setSnapGroup member targetGroup) members
           | None => ret ()
           end
         else
           (* disband: nothing to do; anything else: a warning on the console *)
           ret ()) σ.

End Groups.

(** ** A run of temporary overrides *)

Section Overrides.
Context {platform : Platform}.

(** [updateState({[property]: v}, SERVICE_TEMPORARY)] for each value in
    turn, stopping at the first call that throws. *)
Fixpoint overrides (property : Property) (values : list (ftype property)) (w : DesktopWindow)
    : Completion * DesktopWindow :=
  match values with
  | [] => (Resolved, w)
  | v :: rest =>
      match updateState (single property v) SERVICE_TEMPORARY w with
      | (Resolved, w') => overrides property rest w'
      | failed => failed
      end
  end.

End Overrides.

(** ** Further methods of a window *)

(** A delta that holds at most a center and a half-size. *)
Definition rectangleDelta (c h : option (Point Q)) : PartialState := {|
  center := c;
  halfSize := h;
  frame := None;
  hidden := None;
  state := None;
  icon := None;
  title := None;
  showTaskbarIcon := None;
  resizeConstraints := None;
  opacity := None;
  alwaysOnTop := None;
  maximizable := None
|}.

(** A full state passed where a [Partial<EntityState>] is expected. *)
Definition asPartial (s : EntityState) : PartialState :=
  build (F := option) (λ k, Some (get s k)).

(** [value !== this._currentState[property]] in [applyOverride].  Booleans,
    strings and numbers compare by value.  A point or a pair of constraints
    is an object and compares by reference: [identical] says whether the
    caller passed the very object that [_currentState] holds. *)
Definition strictlyDiffers (k : Property) (identical : bool) : ftype k → ftype k → bool :=
  match k return ftype k → ftype k → bool with
  | PCenter | PHalfSize | PResizeConstraints => λ _ _, negb identical
  | PFrame | PHidden | PShowTaskbarIcon | PAlwaysOnTop | PMaximizable => bool_neq
  | PState | PIcon | PTitle => string_neq
  | POpacity => number_neq
  end.

Section Methods.
Context {platform : Platform}.

(** [applyOffset(offset, halfSize?)]; a missing argument is [None]. *)
Definition applyOffset (offset halfSize' : option (Point Q)) (w : DesktopWindow)
    : Completion * DesktopWindow :=
  let current := _currentState w in
  let moved :=
    match offset with
    | Some o => Some {| x := (x (center current) + x o)%Q; y := (y (center current) + y o)%Q |}
    | None => None
    end in
  let centered :=
    match halfSize' with
    | Some h =>
        let c := orElse moved (center current) in
        Some {| x := (x c + (x h - x (halfSize current)))%Q;
                y := (y c + (y h - y (halfSize current)))%Q |}
    | None => moved
    end in
  updateState (rectangleDelta centered halfSize') SERVICE w.

(** [refresh()]; [fetched] is what [getWindowState] resolved with. *)
Definition refresh (fetched : EntityState) (w : DesktopWindow) : Completion * DesktopWindow :=
  if isReady w then
    let appState := _applicationState w in
    let modifications :=
      build (F := option) (λ property,
        if isModified property (asPartial appState) fetched
           && (negb (hasOwnProperty (_modifiedState w) property)
               || isModified property (_modifiedState w) fetched)
        then Some (get fetched property)
        else None) in
    let hasChanges := bool_decide (0 < length (keys modifications))%nat in
    if hasChanges then updateState modifications APPLICATION w
    else (Resolved, w)
  else (Resolved, w).

(** [close()] *)
Definition closeWindow (w : DesktopWindow) : Completion * DesktopWindow :=
  (Resolved,
   addPendingAction ("close " +:+ _id w) (nativeCall (close true))
     (with_lifecycleStage ENDING w)).

(** [applyOverride(property, value)] *)
Definition applyOverride (property : Property) (value : ftype property) (identical : bool)
    (w : DesktopWindow) : Completion * DesktopWindow :=
  if strictlyDiffers property identical value (get (_currentState w) property)
  then updateState (single property value) SERVICE_TEMPORARY w
  else (Resolved, w).

(** [maximize()] *)
Definition maximizeWindow (w : DesktopWindow) : Completion * DesktopWindow :=
  updateState (single PState "maximized") SERVICE w.

(** [minimize()] *)
Definition minimizeWindow (w : DesktopWindow) : Completion * DesktopWindow :=
  updateState (single PState "minimized") SERVICE w.

(** [restore()] *)
Definition restoreWindow (w : DesktopWindow) : Completion * DesktopWindow :=
  updateState (single PState "normal") SERVICE w.

(** [Promise.all(overrides.map(property => this.resetOverride(property)))],
    the step of [teardown] that resets the overrides of a READY window, up
    to the point where every call has returned its promise: the body of each
    call runs at once, so the calls take effect one after the other,
    whatever becomes of the others.  The completion is that of the bodies:
    the first one that throws, else [Resolved].  It is not the outcome of
    the step: each promise returned adopts the native commands that its
    call queued on [_pendingActions], so the step settles only when they
    do, and is rejected if one of them is. *)
Fixpoint resetOverrides (overrides : list Property) (w : DesktopWindow)
    : Completion * DesktopWindow :=
  match overrides with
  | [] => (Resolved, w)
  | property :: rest =>
      match resetOverride property w with
      | (outcome, w') =>
          match resetOverrides rest w' with
          | (others, w'') =>
              (match outcome with Rejected message => Rejected message | Resolved => others end,
               w'')
          end
      end
  end.

End Methods.

(** The doc comment of [_modifiedState]: "This is effectively a 'diff'
    between currentState and applicationState."  A property has an entry
    exactly when its current value differs from the application's, and the
    entry is the current value. *)
Definition modifiedIsDiff (w : DesktopWindow) : Prop :=
  ∀ k, get (_modifiedState w) k =
       if differs k (get (_currentState w) k) (get (_applicationState w) k)
       then Some (get (_currentState w) k)
       else None.

(** The delta that gives the keys of [delta] the values they have in [s]. *)
Definition inverseOf (delta : PartialState) (s : EntityState) : PartialState :=
  build (F := option) (λ k,
    match get delta k with
    | Some _ => Some (get s k)
    | None => None
    end).

(** ** Bounds events *)

(** The signals the bounds handlers emit. *)
Inductive Signal := onModified | onTransform (type : Z) | onCommit (type : Z).

(** What a bounds handler does besides writing to the window object: a
    signal it emits, or a call it makes on the window's snap group. *)
Inductive Effect := emit (signal : Signal) | onSnapGroup (call : GroupCall).

Definition with_boundsChange (moveInProgress : bool) (change : option BoundsChange)
    (w : DesktopWindow) : DesktopWindow := {|
  _identity := _identity w;
  _currentState := _currentState w;
  _applicationState := _applicationState w;
  _modifiedState := _modifiedState w;
  _temporaryState := _temporaryState w;
  _snapGroup := _snapGroup w;
  _prevGroup := _prevGroup w;
  _lifecycleStage := _lifecycleStage w;
  _pendingActions := _pendingActions w;
  _moveInProgress := moveInProgress;
  _userInitiatedBoundsChange := change
|}.

(** The call on the snap group that [updateTransformType] made, if any. *)
Definition called (call : option GroupCall) : list Effect :=
  match call with Some c => [onSnapGroup c] | None => [] end.

Section BoundsHandlers.
Context {platform : Platform}.

(** The contents of the object that [this.currentState] evaluates to. *)
Definition apparentState (w : DesktopWindow) : EntityState :=
  match currentState 0 {[ 0 := _currentState w ]} with
  | Some (address, σ) => default (_currentState w) (σ !! address)
  | None => _currentState w
  end.

Definition handleBoundsChanged (displayScaling : bool) (event : WindowBoundsEvent)
    (w : DesktopWindow) : DesktopWindow * list Effect :=
  let w := with_boundsChange false (_userInitiatedBoundsChange w) w in
  let bounds := checkBounds w (eventBounds event) in
  let halfSize := {| x := (WindowBounds.width bounds / 2)%Q;
                     y := (WindowBounds.height bounds / 2)%Q |} in
  let center := {| x := (WindowBounds.left bounds + x halfSize)%Q;
                   y := (WindowBounds.top bounds + y halfSize)%Q |} in
  match _userInitiatedBoundsChange w with
  | Some boundsChange =>
      let '(transformType, boundsChange', call) :=
        updateTransformType displayScaling w event boundsChange in
      let w' :=
        (updateState (rectangleDelta (Some center) (Some halfSize)) APPLICATION
           (with_boundsChange false (Some boundsChange') w)).2 in
      (* Setting this here instead of in 'end-user-bounds-changing' event to ensure
         we are still synced when this method is called. *)
      (with_boundsChange false None w',
       called call ++ [emit (onCommit transformType)]
       ++ (if displayScaling then [onSnapGroup restoreResizeConstraints] else []))
  | None =>
      ((updateState (rectangleDelta (Some center) (Some halfSize)) APPLICATION w).2,
       [emit onModified])
  end.

Definition handleBoundsChanging (displayScaling : bool) (event : WindowBoundsEvent)
    (w : DesktopWindow) : DesktopWindow * list Effect :=
  let w :=
    if negb (_moveInProgress w)
    then with_boundsChange true (_userInitiatedBoundsChange w) w else w in
  let bounds := checkBounds w (eventBounds event) in
  let halfSize := {| x := (WindowBounds.width bounds / 2)%Q;
                     y := (WindowBounds.height bounds / 2)%Q |} in
  let center := {| x := (WindowBounds.left bounds + x halfSize)%Q;
                   y := (WindowBounds.top bounds + y halfSize)%Q |} in
  match _userInitiatedBoundsChange w with
  | Some boundsChange =>
      let '(transformType, boundsChange', call) :=
        updateTransformType displayScaling w event boundsChange in
      ((updateState (rectangleDelta (Some center) (Some halfSize)) APPLICATION
          (with_boundsChange (_moveInProgress w) (Some boundsChange') w)).2,
       called call ++ [emit (onTransform transformType)])
  | None =>
      ((updateState (rectangleDelta (Some center) (Some halfSize)) APPLICATION w).2, [])
  end.

Definition handleBeginUserBoundsChanging (displayScaling : bool) (event : WindowBoundsEvent)
    (w : DesktopWindow) : DesktopWindow * list Effect :=
  let startBounds := {| Rectangle.center := center (apparentState w);
                        Rectangle.halfSize := halfSize (apparentState w) |} in
  let '(_, boundsChange', call) :=
    updateTransformType displayScaling w event
      {| startBounds := startBounds; transformType := 0 |} in
  (with_boundsChange (_moveInProgress w) (Some boundsChange') w, called call).

(** The [bounds-changing] events of a list, handled one after the other. *)
Fixpoint changing (displayScaling : bool) (samples : list WindowBoundsEvent)
    (w : DesktopWindow) : DesktopWindow * list Effect :=
  match samples with
  | [] => (w, [])
  | event :: rest =>
      let '(w', effects) := handleBoundsChanging displayScaling event w in
      let '(w'', later) := changing displayScaling rest w' in
      (w'', effects ++ later)
  end.

(** A move or resize by the user, as the runtime reports it:
    [begin-user-bounds-changing], a run of [bounds-changing], then
    [bounds-changed]. *)
Definition drag (displayScaling : bool) (begin : WindowBoundsEvent)
    (samples : list WindowBoundsEvent) (final : WindowBoundsEvent) (w : DesktopWindow)
    : DesktopWindow * list Effect :=
  let '(w1, began) := handleBeginUserBoundsChanging displayScaling begin w in
  let '(w2, during) := changing displayScaling samples w1 in
  let '(w3, ended) := handleBoundsChanged displayScaling final w2 in
  (w3, began ++ during ++ ended).

End BoundsHandlers.

(** The calls on the snap group among the effects, in order. *)
Definition groupCalls (effects : list Effect) : list GroupCall :=
  omap (λ e, match e with onSnapGroup c => Some c | emit _ => None end) effects.

(** The signals among the effects, in order. *)
Definition signals (effects : list Effect) : list Signal :=
  omap (λ e, match e with emit s => Some s | onSnapGroup _ => None end) effects.

(** ** Fetching the state of a window *)

(** [fin.WindowOptions], as far as [getWindowState] reads it.  A key that
    may be missing is an [option]; the keys read with a non-null assertion
    are present. *)
Module WindowOptions.
Record Sides := {
  left : option bool;
  right : option bool;
  top : option bool;
  bottom : option bool
}.
Record ResizeRegion := { sides : option Sides }.
Record t := {
  frame : bool;
  resizable : option bool;
  resizeRegion : option ResizeRegion;
  minWidth : option Q;
  maxWidth : option Q;
  minHeight : option Q;
  maxHeight : option Q;
  icon : option string;
  url : option string;
  showTaskbarIcon : bool;
  opacity : Q;
  alwaysOnTop : bool;
  maximizable : bool
}.
End WindowOptions.

(** [WindowInfo], as far as [getWindowState] reads it. *)
Module WindowInfo.
Record t := { title : string; url : string }.
End WindowInfo.

(** What [getWindowState] takes from outside the file. *)
Class Host := {
  (** [new URL(url)]: the [host], [pathname], [search] and [hash] of the
      URL, or [None] where the constructor throws *)
  parseUrl : string → option (string * string * string * string);
  (** [SERVICE_IDENTITY.uuid] *)
  serviceUuid : string
}.

(** A string in a condition: the empty string is falsy. *)
Definition truthy (s : string) : bool := negb (String.eqb s "").

(** [side !== false] *)
Definition notFalse (side : option bool) : bool :=
  match side with Some false => false | _ => true end.

(** [!!options.resizable && (options.resizeRegion.sides.side !== false)].
    The right operand is evaluated only if the window is resizable; reading
    [side] of missing [sides] throws, which is [None]. *)
Definition resizableSide (resizable : bool) (sides : option WindowOptions.Sides)
    (side : WindowOptions.Sides → option bool) : option bool :=
  if resizable then
    present ← sides;
    Some (notFalse (side present))
  else Some false.

(** [size && size > 0 ? size : Number.MAX_SAFE_INTEGER] *)
Definition maxSizeOf (size : option Q) : Q :=
  match size with
  | Some m => if negb (Qeq_bool m 0) && number_gt m 0 then m else MAX_SAFE_INTEGER
  | None => MAX_SAFE_INTEGER
  end.

(** [size || 0] *)
Definition minSizeOf (size : option Q) : Q :=
  match size with
  | Some m => orNumber m 0
  | None => 0
  end.

Section Fetch.
Context {platform : Platform} {host : Host}.

(** The callback of [getWindowState], given what the five calls on the
    window resolved with; [None] where it throws: on a resizable window
    whose [resizeRegion] has no [sides], and on a URL that the URL
    constructor rejects. *)
Definition getWindowState (identity : WindowIdentity) (options : WindowOptions.t)
    (state : string) (info : WindowInfo.t) (isShowing : bool) (bounds : WindowBounds.t)
    : option EntityState :=
  let halfSize := {| x := (WindowBounds.width bounds / 2)%Q;
                     y := (WindowBounds.height bounds / 2)%Q |} in
  let center := {| x := (WindowBounds.left bounds + x halfSize)%Q;
                   y := (WindowBounds.top bounds + y halfSize)%Q |} in
  (* Apply OS-specific offsets *)
  let halfSize :=
    if isWin10 && WindowOptions.frame options
    then {| x := (x halfSize - 7)%Q; y := (y halfSize - 3.5)%Q |} else halfSize in
  let center :=
    if isWin10 && WindowOptions.frame options
    then {| x := x center; y := (y center - 3.5)%Q |} else center in
  (* Deal with undefined resizeRegion *)
  let resizeRegion :=
    default {| WindowOptions.sides :=
                 Some {| WindowOptions.left := None; WindowOptions.right := None;
                         WindowOptions.top := None; WindowOptions.bottom := None |} |}
            (WindowOptions.resizeRegion options) in
  let sides := WindowOptions.sides resizeRegion in
  let resizable := bool_decide (WindowOptions.resizable options = Some true) in
  (* Map resize constraints to a more useful format *)
  resizableLeft ← resizableSide resizable sides WindowOptions.left;
  resizableRight ← resizableSide resizable sides WindowOptions.right;
  resizableTop ← resizableSide resizable sides WindowOptions.top;
  resizableBottom ← resizableSide resizable sides WindowOptions.bottom;
  let resizeConstraints := {|
    x := {| resizableMin := resizableLeft;
            resizableMax := resizableRight;
            minSize := minSizeOf (WindowOptions.minWidth options);
            maxSize := maxSizeOf (WindowOptions.maxWidth options) |};
    y := {| resizableMin := resizableTop;
            resizableMax := resizableBottom;
            minSize := minSizeOf (WindowOptions.minHeight options);
            maxSize := maxSizeOf (WindowOptions.maxHeight options) |}
  |} in
  (* Get window title *)
  let title := WindowInfo.title info in
  let url := WindowInfo.url info in
  windowTitle ←
    (if truthy title && truthy url && includes url title then
       parsedUrl ← parseUrl url;
       let '(host, pathname, search, hash) := parsedUrl in
       let defaultTitles := [host +:+ pathname +:+ search +:+ hash; host +:+ pathname] in
       if existsb (String.eqb title) defaultTitles then
         (* Fall-back to window name *)
         Some (name identity)
       else Some title
     else Some title);
  (* Special handling for workspace placeholder windows *)
  let windowTitle :=
    if String.eqb (uuid identity) serviceUuid && truthy (name identity)
       && String.prefix "Placeholder-" (name identity)
    then "Loading..." else windowTitle in
  Some ({|
    center := center;
    halfSize := halfSize;
    resizeConstraints := resizeConstraints;
    frame := WindowOptions.frame options;
    hidden := negb isShowing;
    state := state;
    icon :=
      match WindowOptions.icon options with
      | Some i =>
          if truthy i then i
          else "https://www.google.com/s2/favicons?domain="
               +:+ default "undefined" (WindowOptions.url options)
      | None =>
          "https://www.google.com/s2/favicons?domain="
          +:+ default "undefined" (WindowOptions.url options)
      end;
    title := windowTitle;
    showTaskbarIcon := WindowOptions.showTaskbarIcon options;
    opacity := WindowOptions.opacity options;
    alwaysOnTop := WindowOptions.alwaysOnTop options;
    maximizable := WindowOptions.maximizable options
  |} : EntityState).

End Fetch.

(** ** Views of the world *)

(** [σ'] has the groups of [σ]: every snap group has the same members, and
    every window is in the same group. *)
Definition sameGroups (σ σ' : World) : Prop :=
  snapGroups σ' = snapGroups σ
  ∧ ∀ i, _snapGroup <$> registry σ' !! i = _snapGroup <$> registry σ !! i.

(** A method that leaves the groups as they are, however it ends. *)
Definition keepsGroups {A} (m : Method A) : Prop := ∀ σ, sameGroups σ (m σ).2.

(** [this] is a window whose snap group has fewer than two members. *)
Definition lone (this : WindowIdentity) (σ : World) : Prop :=
  ∃ w, registry σ !! this = Some w
       ∧ length (default [] (snapGroups σ !! _snapGroup w)) < 2.

(** ** Minimizing and restoring a group *)

Section StateListeners.
Context {platform : Platform}.

(** The listeners that [addListeners] registers for 'minimized' and for
    'restored': one body, with 'minimized' and 'normal' for [reported]. *)
Definition stateListener (reported : string) (this : WindowIdentity) : Method unit :=
  w <~ window this;
  store this (updateState (single PState reported) APPLICATION w).2 ;;;
  members <~ groupWindows (_snapGroup w);
  forEachDetached
    (λ member,
       g <~ window member;
       if bool_decide (member ≠ this) && negb (hidden (apparentState g))
       then store member (applyProperties (single PState reported) g).2
       else ret ())
    members.

(** One turn of the loop of [stateListener] over the group, as it leaves
    the world: [member] is passed the state unless it is [this] or hidden. *)
Definition passOn (reported : string) (this : WindowIdentity) (σ : World)
    (member : WindowIdentity) : World :=
  match registry σ !! member with
  | Some g =>
      if bool_decide (member ≠ this) && negb (hidden (_currentState g))
      then with_registry
             (<[member := (applyProperties (single PState reported) g).2]> (registry σ)) σ
      else σ
  | None => σ
  end.

End StateListeners.

(** A window that the state listeners leave alone, or that is in the
    reported state already. *)
Definition quiet (reported : string) (w : DesktopWindow) : Prop :=
  hidden (_currentState w) = true ∨ isReady w = false
  ∨ state (_currentState w) = reported.

(** [i] names a READY window of [σ]. *)
Definition readyIn (σ : World) (i : WindowIdentity) : Prop :=
  isReady <$> registry σ !! i = Some true.

Global Instance readyIn_dec σ i : Decision (readyIn σ i).
Proof. unfold readyIn. apply _. Defined.


(** ** Numbers that a double holds exactly

    Arithmetic in the model is exact, while the source computes in IEEE
    doubles, which round to the nearest double.  The two agree on the
    coordinates of a desktop.  On whole and half pixels of small magnitude,
    every sum, difference, doubling and halving that the class computes,
    with the constants 3.5, 7 and 14, is a multiple of 1/4 far below 2^53 in
    magnitude; a double holds such a number exactly, so no operation rounds
    and [===] on the results is equality of the numbers.  The statements
    that depend on arithmetic are made for such coordinates. *)

(** A whole or half number of pixels, of small magnitude. *)
Definition halfPixels (q : Q) : Prop :=
  ∃ n : Z, (q == n # 2)%Q ∧ (Z.abs n ≤ 2 ^ 50)%Z.

Definition halfPixelPoint (p : Point Q) : Prop := halfPixels (x p) ∧ halfPixels (y p).

Definition halfPixelBounds (bounds : WindowBounds.t) : Prop :=
  halfPixels (WindowBounds.left bounds) ∧ halfPixels (WindowBounds.top bounds)
  ∧ halfPixels (WindowBounds.width bounds) ∧ halfPixels (WindowBounds.height bounds).

(** ** Concrete instances *)

(** A desktop that is not Windows 10, with one 1920 x 1080 monitor. *)
Definition singleMonitor : Platform := {|
  isWin10 := false;
  getMonitorByRect := λ _,
    {| Rectangle.center := {| x := 960%Q; y := 540%Q |};
       Rectangle.halfSize := {| x := 960%Q; y := 540%Q |} |}
|}.

(** The window [new DesktopWindow(model, window, initialState)] leaves for
    an existing native window: READY, nothing overridden, nothing pending,
    alone in its own snap group. *)
Definition freshWindow (identity : WindowIdentity) (initialState : EntityState)
    (group : GroupRef) : DesktopWindow := {|
  _identity := identity;
  _currentState := initialState;
  _applicationState := initialState;
  _modifiedState := emptyState;
  _temporaryState := emptyState;
  _snapGroup := group;
  _prevGroup := None;
  _lifecycleStage := READY;
  _pendingActions := [];
  _moveInProgress := false;
  _userInitiatedBoundsChange := None
|}.

Definition exampleWindow : DesktopWindow :=
  freshWindow {| uuid := "app"; name := "main" |} createTemporaryState 0.

(** A pending [window.hide()]. *)
Definition pendingHide : PendingAction :=
  {| tag := {| label := "updateState app/main"; payload := Some (single PHidden true);
               position := Some (1, 1) |};
     promise := nativeCall hide |}.

(** A surface on which every await is fulfilled and nothing is queued
    meanwhile. *)
Definition quietSurface : Surface := λ _ _, Fulfilled [].

(** A surface on which every await is fulfilled, but a new call has been
    queued by then. *)
Definition refillingSurface : Surface := λ _ _, Fulfilled [pendingHide].

(** A surface on which the awaited call is rejected. *)
Definition rejectingSurface : Surface :=
  λ _ pending, Failed "Could not locate the requested window" pending.

(** The record of a user's bounds change that started at center (100, 100)
    with half-size (50, 50), before any sample was classified. *)
Definition changeFrom100 : BoundsChange := {|
  transformType := 0;
  startBounds := {| Rectangle.center := {| x := 100%Q; y := 100%Q |};
                    Rectangle.halfSize := {| x := 50%Q; y := 50%Q |} |}
|}.

Definition boundsOf (l t w h : Q) : WindowBounds.t :=
  {| WindowBounds.left := l; WindowBounds.top := t;
     WindowBounds.width := w; WindowBounds.height := h |}.

(** A [bounds-changing] event; the runtime says "move" ([changeType] 0). *)
Definition boundsEvent (l t w h : Q) : WindowBoundsEvent :=
  {| changeType := 0; eventBounds := boundsOf l t w h |}.

(** A store with one state object, at address 0. *)
Definition storeOf (s : EntityState) : Objects.Store := {[ 0 := s ]}.

(** A surface that fulfils whatever it is asked. *)
Definition obligingSurfaces : Surfaces := {|
  pendingSurface := λ _, quietSurface;
  nativeAnswer := λ _ _, Resolved
|}.


Lemma codeUnit_antisym (a b : string) :
  String_as_OT.compare a b = CompOpp (String_as_OT.compare b a).
Proof.
  destruct (String_as_OT.compare_spec a b) as [E|L|L],
           (String_as_OT.compare_spec b a) as [E'|L'|L']; try done; exfalso;
    unfold String_as_OT.eq in *; subst;
    eapply (irreflexivity String_as_OT.lt); (eassumption || (etransitivity; eassumption)).
Qed.

Lemma codeUnit_trans (a b c : string) :
  String_as_OT.compare a b = Lt → String_as_OT.compare b c = Lt →
  String_as_OT.compare a c = Lt.
Proof. intros L1 L2. by apply (transitivity (R := String_as_OT.lt) L1 L2). Qed.

(** Strings ordered by their code units. *)
Definition codeUnitOrder : Collation := {|
  localeCompare := String_as_OT.compare;
  localeCompare_antisym := codeUnit_antisym;
  localeCompare_trans := codeUnit_trans
|}.





Definition windowA : WindowIdentity := {| uuid := "app"; name := "a" |}.
Definition windowB : WindowIdentity := {| uuid := "app"; name := "b" |}.
Definition windowC : WindowIdentity := {| uuid := "app"; name := "c" |}.

(** A world whose windows sit in the given snap groups: every window is
    READY with nothing pending, no transaction is active. *)
Definition worldOf (groups : list (list WindowIdentity)) : World := {|
  registry :=
    list_to_map
      (mjoin (imap (λ group members,
                      map (λ i, (i, freshWindow i createTemporaryState group)) members)
                   groups));
  snapGroups := list_to_map (imap (λ group members, (group, members)) groups);
  nextGroup := length groups;
  activeTransactions := [];
  nextTransaction := 0;
  displayScaling := false;
  nativeCalls := []
|}.

(** The record [transaction(windows, ...)] pushes on a world without active
    transactions. *)
Definition withTransaction (windows : list WindowIdentity) (σ : World) : World :=
  with_activeTransactions
    [{| Transaction.id := 0; Transaction.windows := windows;
        Transaction.remove := Debounced.new |}] 1 σ.

(** The [group-changed] event delivered to [receiver]. *)
Definition groupEvent (receiver : WindowIdentity) (reason : string)
    (source : WindowIdentity) (sourceGroup : list WindowIdentity)
    (target : WindowIdentity) (targetGroup : list WindowIdentity) : GroupEvent.t := {|
  GroupEvent.name := name receiver;
  GroupEvent.uuid := uuid receiver;
  GroupEvent.reason := reason;
  GroupEvent.sourceGroup :=
    map (λ i, {| GroupEvent.appUuid := uuid i; GroupEvent.windowName := name i |}) sourceGroup;
  GroupEvent.sourceWindowAppUuid := uuid source;
  GroupEvent.sourceWindowName := name source;
  GroupEvent.targetGroup :=
    map (λ i, {| GroupEvent.appUuid := uuid i; GroupEvent.windowName := name i |}) targetGroup;
  GroupEvent.targetWindowAppUuid := uuid target;
  GroupEvent.targetWindowName := name target
|}.

(** Windows 10, with one 1920 x 1080 monitor. *)
Definition windows10 : Platform := {|
  isWin10 := true;
  getMonitorByRect := λ _,
    {| Rectangle.center := {| x := 960%Q; y := 540%Q |};
       Rectangle.halfSize := {| x := 960%Q; y := 540%Q |} |}
|}.

(** [s] cut at the first occurrence of [separator]: what comes before it,
    and the rest from the separator on. *)
Definition cutAt (separator s : string) : string * string :=
  match String.index 0 separator s with
  | Some i => (String.substring 0 i s, String.substring i (String.length s - i) s)
  | None => (s, EmptyString)
  end.

(** The layouts service on a host whose URL constructor takes the URLs of
    the form scheme://host/path?search#hash and throws on any other string,
    as the real one does on a relative URL. *)
Definition simpleHost : Host := {|
  parseUrl := λ url,
    match String.index 0 "://" url with
    | Some (S i) =>
        let '(beforeHash, hash) :=
          cutAt "#" (String.substring (S i + 3) (String.length url - (S i + 3)) url) in
        let '(beforeSearch, search) := cutAt "?" beforeHash in
        let '(host, pathname) := cutAt "/" beforeSearch in
        Some (host, if String.eqb pathname "" then "/" else pathname, search, hash)
    | _ => None
    end;
  serviceUuid := "layouts-service"
|}.

(** The options of a framed, resizable window without size limits. *)
Definition framedOptions : WindowOptions.t := {|
  WindowOptions.frame := true;
  WindowOptions.resizable := Some true;
  WindowOptions.resizeRegion := None;
  WindowOptions.minWidth := None;
  WindowOptions.maxWidth := None;
  WindowOptions.minHeight := None;
  WindowOptions.maxHeight := None;
  WindowOptions.icon := None;
  WindowOptions.url := Some "http://localhost/index.html";
  WindowOptions.showTaskbarIcon := true;
  WindowOptions.opacity := 1%Q;
  WindowOptions.alwaysOnTop := false;
  WindowOptions.maximizable := true
|}.

(** A document with a title of its own. *)
Definition titledInfo : WindowInfo.t :=
  {| WindowInfo.title := "Inbox"; WindowInfo.url := "http://localhost/index.html" |}.

(** A document without a title: the runtime reports a part of the URL. *)
Definition untitledInfo : WindowInfo.t :=
  {| WindowInfo.title := "localhost/index.html";
     WindowInfo.url := "http://localhost/index.html" |}.

(** A document without a title whose URL is reported without its origin. *)
Definition relativeInfo : WindowInfo.t :=
  {| WindowInfo.title := "index.html"; WindowInfo.url := "index.html" |}.

(** The options of a window, resizable or not, whose [resizeRegion] gives a
    size but no [sides]. *)
Definition sidelessOptions (resizable : bool) : WindowOptions.t := {|
  WindowOptions.frame := true;
  WindowOptions.resizable := Some resizable;
  WindowOptions.resizeRegion := Some {| WindowOptions.sides := None |};
  WindowOptions.minWidth := None;
  WindowOptions.maxWidth := None;
  WindowOptions.minHeight := None;
  WindowOptions.maxHeight := None;
  WindowOptions.icon := None;
  WindowOptions.url := Some "http://localhost/index.html";
  WindowOptions.showTaskbarIcon := true;
  WindowOptions.opacity := 1%Q;
  WindowOptions.alwaysOnTop := false;
  WindowOptions.maximizable := true
|}.

(** * Properties *)

(** ** Objects and their slots *)

Lemma get_build {F} (f : ∀ k, F (ftype k)) (k : Property) : get (build f) k = f k.
Proof. by destruct k. Qed.

Lemma state_ext {F} (s s' : StateOf F) : (∀ k, get s k = get s' k) → s = s'.
Proof.
  intros E. destruct s, s'.
  pose proof (E PCenter); pose proof (E PHalfSize); pose proof (E PFrame);
  pose proof (E PHidden); pose proof (E PState); pose proof (E PIcon);
  pose proof (E PTitle); pose proof (E PShowTaskbarIcon);
  pose proof (E PResizeConstraints); pose proof (E POpacity);
  pose proof (E PAlwaysOnTop); pose proof (E PMaximizable).
  simpl in *. congruence.
Qed.

Lemma get_single_eq (k : Property) (v : ftype k) : get (single k v) k = Some v.
Proof. by destruct k. Qed.

Lemma get_single_ne (k k' : Property) (v : ftype k) : k ≠ k' → get (single k v) k' = None.
Proof. by destruct k, k'. Qed.

Lemma get_assign (s : EntityState) (delta : PartialState) (k : Property) :
  get (assign s delta) k = match get delta k with Some v => v | None => get s k end.
Proof. unfold assign. by rewrite (get_build (F := Full)). Qed.

Lemma isModified_present (k : Property) (prevState : PartialState) (v : ftype k)
    (newState : EntityState) :
  get prevState k = Some v → isModified k prevState newState = differs k v (get newState k).
Proof. unfold isModified. by intros ->. Qed.

(** ** Updates of application origin *)

Section Application.
Context {platform : Platform}.

(** The lifecycle stage is not consulted for an update of application
    origin: the three loops and the merge run, and nothing is queued. *)
Lemma updateState_application (delta : PartialState) (w : DesktopWindow) :
  ∃ w', updateState delta APPLICATION w = (Resolved, w')
    ∧ (∀ k, get (_applicationState w') k =
            match get delta k with
            | Some v =>
                if differs k v (get (_currentState w) k) then v
                else get (_applicationState w) k
            | None => get (_applicationState w) k
            end)
    ∧ (∀ k, get (_currentState w') k =
            match get delta k with
            | Some v => v
            | None => get (_currentState w) k
            end)
    ∧ (∀ k, get (_temporaryState w') k =
            match get delta k with
            | Some _ => None
            | None => get (_temporaryState w) k
            end)
    ∧ _modifiedState w' = _modifiedState w
    ∧ _pendingActions w' = _pendingActions w
    ∧ _lifecycleStage w' = _lifecycleStage w.
Proof.
  eexists. split; [reflexivity|]. simpl. repeat split.
  - intros k. rewrite (get_build (F := Full)).
    destruct (get delta k) as [v|] eqn:E; [|done].
    by rewrite (isModified_present _ _ v).
  - intros k. apply get_assign.
  - intros k. by rewrite (get_build (F := option)).
Qed.

End Application.

(** C1, as amended.  On a READY window an update of application origin
    resolves and
    - writes a field of the delta into [applicationState] exactly when its
      value differs from the one in [currentState] (whether the field is
      recorded in [modifiedState] plays no part), and leaves every other
      field of [applicationState] alone;
    - merges the delta into [currentState];
    - leaves [modifiedState] and the pending actions as they were: no native
      command is issued. *)
Theorem updateState_application_ready {platform : Platform} (delta : PartialState) (w : DesktopWindow) :
  isReady w = true →
  ∃ w', updateState delta APPLICATION w = (Resolved, w')
    ∧ (∀ k, get (_applicationState w') k =
            match get delta k with
            | Some v =>
                if differs k v (get (_currentState w) k) then v
                else get (_applicationState w) k
            | None => get (_applicationState w) k
            end)
    ∧ (∀ k, get (_currentState w') k =
            match get delta k with
            | Some v => v
            | None => get (_currentState w) k
            end)
    ∧ _modifiedState w' = _modifiedState w
    ∧ _pendingActions w' = _pendingActions w.
Proof.
  intros _.
  destruct (updateState_application delta w) as (w' & E & A & C & _ & M & P & _).
  exists w'. auto.
Qed.

Lemma updateState_application_ready_witness :
  isReady exampleWindow = true
  ∧ (updateState (platform := singleMonitor) (single PHidden true) APPLICATION exampleWindow).1
    = Resolved.
Proof.
  split; [reflexivity|].
  destruct (updateState_application_ready (platform := singleMonitor)
              (single PHidden true) exampleWindow eq_refl) as (w' & E & _).
  rewrite E. reflexivity.
Defined.

(** C1 as stated fails.  The service overrides the opacity of a window
    (1 for the application) with 1/2; the application then sets it to 4/5.
    The field is recorded in [modifiedState], and still the update of
    application origin writes 4/5 into [applicationState]. *)
Lemma updateState_application_overwrites_overridden_field :
  let w := (updateState (platform := singleMonitor) (single POpacity (1 # 2)%Q) SERVICE exampleWindow).2 in
  let w' := (updateState (platform := singleMonitor) (single POpacity (4 # 5)%Q) APPLICATION w).2 in
  isReady w = true
  ∧ get (_modifiedState w) POpacity = Some (1 # 2)%Q
  ∧ get (_applicationState w) POpacity = 1%Q
  ∧ get (_applicationState w') POpacity = (4 # 5)%Q
  ∧ get (_modifiedState w') POpacity = Some (1 # 2)%Q.
Proof. repeat split. Qed.

(** C8, as amended.  On a window that is not READY an update of application
    origin does not throw and queues no native command, but it is applied
    all the same: the delta is merged into [currentState], the fields of the
    delta that differ from [currentState] are written into
    [applicationState], the fields of the delta lose their entry in
    [temporaryState]; [modifiedState] is left as it was. *)
Theorem updateState_application_not_ready {platform : Platform} (delta : PartialState) (w : DesktopWindow) :
  isReady w = false →
  ∃ w', updateState delta APPLICATION w = (Resolved, w')
    ∧ (∀ k, get (_currentState w') k =
            match get delta k with
            | Some v => v
            | None => get (_currentState w) k
            end)
    ∧ (∀ k, get (_applicationState w') k =
            match get delta k with
            | Some v =>
                if differs k v (get (_currentState w) k) then v
                else get (_applicationState w) k
            | None => get (_applicationState w) k
            end)
    ∧ (∀ k, get (_temporaryState w') k =
            match get delta k with
            | Some _ => None
            | None => get (_temporaryState w) k
            end)
    ∧ _modifiedState w' = _modifiedState w
    ∧ _pendingActions w' = _pendingActions w.
Proof.
  intros _.
  destruct (updateState_application delta w) as (w' & E & A & C & T & M & P & _).
  exists w'. auto 10.
Qed.

Lemma updateState_application_not_ready_witness :
  isReady (with_lifecycleStage ENDING exampleWindow) = false
  ∧ (updateState (platform := singleMonitor) (single PHidden true) APPLICATION
       (with_lifecycleStage ENDING exampleWindow)).1 = Resolved.
Proof.
  split; [reflexivity|].
  destruct (updateState_application_not_ready (platform := singleMonitor)
              (single PHidden true) (with_lifecycleStage ENDING exampleWindow) eq_refl)
    as (w' & E & _).
  rewrite E. reflexivity.
Defined.

(** C8 as stated fails.  A window whose teardown has begun (ENDING) is told
    by the native window that it was hidden: [currentState] and
    [applicationState] both change. *)
Lemma updateState_application_not_ready_changes_state :
  let w := with_lifecycleStage ENDING exampleWindow in
  let result := updateState (platform := singleMonitor) (single PHidden true) APPLICATION w in
  isReady w = false
  ∧ result.1 = Resolved
  ∧ hidden (_currentState w) = false
  ∧ hidden (_currentState result.2) = true
  ∧ hidden (_applicationState w) = false
  ∧ hidden (_applicationState result.2) = true.
Proof. repeat split. Qed.

(** ** Updates of service origin *)

Section Service.
Context {platform : Platform}.

Lemma assign_single_same (k : Property) (s : EntityState) :
  assign s (single k (get s k)) = s.
Proof.
  apply state_ext. intros k'. rewrite get_assign.
  destruct (decide (k = k')) as [<-|N].
  - by rewrite get_single_eq.
  - by rewrite get_single_ne.
Qed.

End Service.

(** C9, as amended.  [applyProperties({maximizable: false})] on a READY
    window whose [maximizable] is already [false] resolves and leaves
    [currentState] as it was, but it does queue one native command:
    [updateOptions({maximizable: false})].  Unchanged option fields are not
    skipped. *)
Theorem applyProperties_unchanged_maximizable {platform : Platform} (w : DesktopWindow) :
  isReady w = true →
  maximizable (_currentState w) = false →
  ∃ w', applyProperties (single PMaximizable false) w = (Resolved, w')
    ∧ _currentState w' = _currentState w
    ∧ map promise (_pendingActions w')
      = (map promise (_pendingActions w)
         ++ [nativeCall (updateOptions (SimpleOptions (single PMaximizable false)))])%list.
Proof.
  intros R E. eexists. split; [reflexivity|].
  unfold updateState. rewrite R. simpl. split.
  - rewrite <- E. apply (assign_single_same PMaximizable).
  - by rewrite map_app.
Qed.

Lemma applyProperties_unchanged_maximizable_witness :
  let w := with_currentState (setProperty PMaximizable false createTemporaryState) exampleWindow in
  isReady w = true
  ∧ maximizable (_currentState w) = false
  ∧ (applyProperties (platform := singleMonitor) (single PMaximizable false) w).1 = Resolved.
Proof.
  intros w. split; [reflexivity|]. split; [reflexivity|].
  destruct (applyProperties_unchanged_maximizable (platform := singleMonitor) w eq_refl eq_refl)
    as (w' & E & _).
  rewrite E. reflexivity.
Defined.

(** C9 as stated fails.  The window is READY, already not maximizable and
    has nothing pending; after [applyProperties({maximizable: false})] one
    native [updateOptions] call is pending for the unchanged field. *)
Lemma applyProperties_unchanged_field_issues_command :
  let w := with_currentState (setProperty PMaximizable false createTemporaryState) exampleWindow in
  let w' := (applyProperties (platform := singleMonitor) (single PMaximizable false) w).2 in
  isReady w = true
  ∧ maximizable (_currentState w) = false
  ∧ _pendingActions w = []
  ∧ maximizable (_currentState w') = false
  ∧ map promise (_pendingActions w')
    = [nativeCall (updateOptions (SimpleOptions (single PMaximizable false)))].
Proof. repeat split. Qed.

(** ** Temporary overrides *)

Lemma last_cons {A} (v d : A) (rest : list A) : List.last (v :: rest) d = List.last rest v.
Proof.
  revert v d. induction rest as [|a rest IH]; intros v d; [done|].
  change (List.last (a :: rest) d = List.last (a :: rest) v).
  by rewrite !IH.
Qed.

Section Temporary.
Context {platform : Platform}.

(** One temporary override of [k]: the value is written to
    [currentState], and the value it replaces is backed up unless a
    back-up is already there. *)
Lemma updateState_temporary (k : Property) (v : ftype k) (w : DesktopWindow) :
  isReady w = true →
  ∃ w', updateState (single k v) SERVICE_TEMPORARY w = (Resolved, w')
    ∧ isReady w' = true
    ∧ get (_currentState w') k = v
    ∧ get (_temporaryState w') k =
        match get (_temporaryState w) k with
        | Some backup => Some backup
        | None => Some (get (_currentState w) k)
        end.
Proof.
  intros R. eexists. split.
  { unfold updateState. rewrite R. reflexivity. }
  simpl. split; [done|]. split.
  - by rewrite get_assign, get_single_eq.
  - rewrite (get_build (F := option)), get_single_eq. unfold hasOwnProperty.
    by destruct (get (_temporaryState w) k).
Qed.

(** Further overrides of [k] keep the back-up that is there. *)
Lemma overrides_keep_backup (k : Property) (values : list (ftype k)) (w : DesktopWindow)
    (backup : ftype k) :
  isReady w = true →
  get (_temporaryState w) k = Some backup →
  ∃ w', overrides k values w = (Resolved, w')
    ∧ isReady w' = true
    ∧ get (_temporaryState w') k = Some backup
    ∧ get (_currentState w') k = List.last values (get (_currentState w) k).
Proof.
  revert w. induction values as [|v rest IH]; intros w R B.
  - exists w. by simpl.
  - destruct (updateState_temporary k v w R) as (w1 & E & R1 & C1 & T1).
    rewrite B in T1.
    destruct (IH w1 R1 T1) as (w' & E' & R' & T' & C').
    exists w'. simpl overrides. rewrite E. split; [done|]. split; [done|]. split; [done|].
    by rewrite C', C1, last_cons.
Qed.

(** Resetting an override that has a back-up: a service update with the
    backed-up value. *)
Lemma resetOverride_backup (k : Property) (w : DesktopWindow) (backup : ftype k) :
  isReady w = true →
  get (_temporaryState w) k = Some backup →
  ∃ w', resetOverride k w = (Resolved, w')
    ∧ get (_currentState w') k = backup
    ∧ get (_temporaryState w') k = None.
Proof.
  intros R B. unfold resetOverride. rewrite B. eexists. split.
  { unfold updateState. replace (isReady (with_currentState _ w)) with true by done.
    reflexivity. }
  simpl. split.
  - by rewrite get_assign, get_single_eq.
  - by rewrite (get_build (F := option)), get_single_eq.
Qed.

End Temporary.

(** C3.  On a READY window with no back-up for a property, a run of one or
    more temporary overrides of the property records a back-up with the
    first override only: after the first override, and still after the last,
    [temporaryState] holds the value the property had before the run.
    [resetOverride] then is the service update with that value: it puts the
    property back to it in [currentState] and removes the entry of
    [temporaryState].  On a property with no entry in [temporaryState],
    [resetOverride] changes nothing. *)
Theorem nested_overrides_reset {platform : Platform} (k : Property) (v : ftype k) (rest : list (ftype k))
    (w : DesktopWindow) :
  isReady w = true →
  get (_temporaryState w) k = None →
  (∃ w1 wn w',
      updateState (single k v) SERVICE_TEMPORARY w = (Resolved, w1)
      ∧ get (_temporaryState w1) k = Some (get (_currentState w) k)
      ∧ overrides k rest w1 = (Resolved, wn)
      ∧ overrides k (v :: rest) w = (Resolved, wn)
      ∧ get (_currentState wn) k = List.last (v :: rest) v
      ∧ get (_temporaryState wn) k = Some (get (_currentState w) k)
      ∧ resetOverride k wn = (Resolved, w')
      ∧ resetOverride k wn
        = updateState (single k (get (_currentState w) k)) SERVICE
            (with_currentState (setProperty k (get (_currentState w) k) (_currentState wn)) wn)
      ∧ get (_currentState w') k = get (_currentState w) k
      ∧ get (_temporaryState w') k = None)
  ∧ resetOverride k w = (Resolved, w).
Proof.
  intros R T. split.
  - destruct (updateState_temporary k v w R) as (w1 & E1 & R1 & C1 & T1).
    rewrite T in T1.
    destruct (overrides_keep_backup k rest w1 _ R1 T1) as (wn & En & Rn & Tn & Cn).
    destruct (resetOverride_backup k wn _ Rn Tn) as (w' & E' & C' & T').
    exists w1, wn, w'. repeat split; try done.
    + simpl overrides. by rewrite E1.
    + by rewrite Cn, C1, last_cons.
    + unfold resetOverride. by rewrite Tn.
  - unfold resetOverride. by rewrite T.
Qed.

Lemma nested_overrides_reset_witness :
  isReady exampleWindow = true
  ∧ get (_temporaryState exampleWindow) POpacity = None
  ∧ resetOverride (platform := singleMonitor) POpacity exampleWindow = (Resolved, exampleWindow).
Proof.
  split; [reflexivity|]. split; [reflexivity|].
  exact (proj2 (nested_overrides_reset (platform := singleMonitor) POpacity (1 # 2)%Q
                  [(1 # 4)%Q; (3 # 4)%Q] exampleWindow eq_refl eq_refl)).
Defined.

(** ** The sync barrier *)

Section Sync.
Variable surface : Surface.
Variable identifier : string.

Lemma syncLoop_fulfilled (action : PendingAction) (rest queued : list PendingAction)
    (awaitCount : nat) :
  S awaitCount ≤ MAX_AWAITS →
  surface (S awaitCount) (action :: rest) = Fulfilled queued →
  syncLoop surface identifier (action :: rest) awaitCount
  = syncLoop surface identifier queued (S awaitCount).
Proof.
  intros B E. simp syncLoop.
  destruct (le_dec (S awaitCount) MAX_AWAITS) as [?|N]; [|done].
  simpl. by rewrite E.
Qed.

Lemma syncLoop_failed (action : PendingAction) (rest remaining : list PendingAction)
    (message : string) (awaitCount : nat) :
  S awaitCount ≤ MAX_AWAITS →
  surface (S awaitCount) (action :: rest) = Failed message remaining →
  syncLoop surface identifier (action :: rest) awaitCount
  = {| completion := Rejected message; pendingLeft := remaining; awaits := S awaitCount |}.
Proof.
  intros B E. simp syncLoop.
  destruct (le_dec (S awaitCount) MAX_AWAITS) as [?|N]; [|done].
  simpl. by rewrite E.
Qed.

Lemma syncLoop_exhausted (action : PendingAction) (rest : list PendingAction)
    (awaitCount : nat) :
  MAX_AWAITS ≤ awaitCount →
  syncLoop surface identifier (action :: rest) awaitCount
  = {| completion :=
         Rejected ("Couldn't sync " +:+ identifier +:+ " after "
                   +:+ pretty (S awaitCount) +:+ " attempts");
       pendingLeft := action :: rest;
       awaits := awaitCount |}.
Proof.
  intros B. simp syncLoop.
  destruct (le_dec (S awaitCount) MAX_AWAITS) as [?|N]; [lia|done].
Qed.

(** The loop awaits at most [MAX_AWAITS] times. *)
Lemma syncLoop_awaits (pending : list PendingAction) (awaitCount : nat) :
  awaitCount ≤ MAX_AWAITS →
  awaits (syncLoop surface identifier pending awaitCount) ≤ MAX_AWAITS.
Proof.
  funelim (syncLoop surface identifier pending awaitCount); intros B; simpl; try done.
  by apply H.
Qed.

(** A run that resolves leaves nothing pending. *)
Lemma syncLoop_resolved (pending : list PendingAction) (awaitCount : nat) :
  completion (syncLoop surface identifier pending awaitCount) = Resolved →
  pendingLeft (syncLoop surface identifier pending awaitCount) = [].
Proof.
  funelim (syncLoop surface identifier pending awaitCount); simpl; try done.
Qed.

(** [n] fulfilled awaits that each leave something pending take the loop
    to the list after them, with the counter [n] higher. *)
Lemma syncLoop_rounds (n : nat) (pending later : list PendingAction) (awaitCount : nat) :
  awaitCount + n ≤ MAX_AWAITS →
  pendingAfter surface awaitCount pending n = Some later →
  (∀ m, m < n → ∃ action rest,
      pendingAfter surface awaitCount pending m = Some (action :: rest)) →
  syncLoop surface identifier pending awaitCount
  = syncLoop surface identifier later (awaitCount + n).
Proof.
  revert pending awaitCount. induction n as [|n IH]; intros pending awaitCount B E NE.
  - simpl in E. injection E as ->. by rewrite Nat.add_0_r.
  - destruct (NE 0 ltac:(lia)) as (action & rest & E0). simpl in E0. injection E0 as ->.
    simpl in E.
    destruct (surface (S awaitCount) (action :: rest)) as [queued|] eqn:S1; [|done].
    rewrite (syncLoop_fulfilled _ _ queued) by (done || lia).
    rewrite (IH queued (S awaitCount)); [f_equal; lia|lia|done|].
    intros m Hm. destruct (NE (S m) ltac:(lia)) as (a & r & Em).
    simpl in Em. rewrite S1 in Em. eauto.
Qed.

End Sync.

(** C4, as amended.  [sync] awaits at most ten times, so it always ends.
    - It resolves only with nothing left pending, and it does resolve, after
      [n] awaits, when the [n]-th await ([n] at most ten) is the first to
      leave the list empty, every await being fulfilled: the calls queued
      during a wait are awaited in the next.
    - When ten fulfilled awaits each leave something pending, it rejects
      with "Couldn't sync ..." after exactly those ten awaits.
    - When an awaited call rejects, it rejects with that call's error. *)
Theorem sync_bounded (surface : Surface) (w : DesktopWindow) :
  let run := syncLoop surface (_id w) (_pendingActions w) 0 in
  let after := pendingAfter surface 0 (_pendingActions w) in
  sync surface w = (completion run, with_pendingActions (pendingLeft run) w)
  ∧ awaits run ≤ MAX_AWAITS
  ∧ (completion run = Resolved → pendingLeft run = [])
  ∧ (∀ n, n ≤ MAX_AWAITS →
          after n = Some [] →
          (∀ m, m < n → ∃ action rest, after m = Some (action :: rest)) →
          completion run = Resolved ∧ awaits run = n)
  ∧ ((∀ m, m ≤ MAX_AWAITS → ∃ action rest, after m = Some (action :: rest)) →
     completion run = Rejected ("Couldn't sync " +:+ _id w +:+ " after 11 attempts")
     ∧ awaits run = MAX_AWAITS)
  ∧ (∀ n action rest message remaining,
          n < MAX_AWAITS →
          after n = Some (action :: rest) →
          (∀ m, m < n → ∃ action' rest', after m = Some (action' :: rest')) →
          surface (S n) (action :: rest) = Failed message remaining →
          completion run = Rejected message ∧ pendingLeft run = remaining ∧ awaits run = S n).
Proof.
  intros run after. split; [done|]. split; [by apply syncLoop_awaits; lia|].
  split; [apply syncLoop_resolved|]. split; [|split].
  - intros n B E NE. unfold run.
    rewrite (syncLoop_rounds surface (_id w) n _ [] 0) by done.
    by simp syncLoop.
  - intros NE. unfold run.
    destruct (NE MAX_AWAITS ltac:(done)) as (action & rest & E).
    rewrite (syncLoop_rounds surface (_id w) MAX_AWAITS _ (action :: rest) 0);
      [|done|done|intros m Hm; apply NE; lia].
    by rewrite syncLoop_exhausted.
  - intros n action rest message remaining B E NE F. unfold run.
    rewrite (syncLoop_rounds surface (_id w) n _ (action :: rest) 0) by (done || lia).
    by rewrite (syncLoop_failed _ _ _ _ remaining message) by (done || simpl; lia).
Qed.

Lemma sync_bounded_witness :
  let w := with_pendingActions [pendingHide] exampleWindow in
  sync quietSurface w = (Resolved, exampleWindow)
  ∧ sync refillingSurface w = (Rejected "Couldn't sync app/main after 11 attempts", w).
Proof.
  intros w. split.
  - destruct (sync_bounded quietSurface w) as (E & _ & _ & R & _).
    rewrite E. destruct (R 1) as [-> _]; [unfold MAX_AWAITS; lia|reflexivity|..].
    + intros m Hm. replace m with 0 by lia. by eexists _, _.
    + by rewrite (syncLoop_resolved quietSurface _ _ 0).
  - destruct (sync_bounded refillingSurface w) as (E & _ & _ & _ & D & _).
    rewrite E. destruct D as [-> _].
    + intros m Hm. exists pendingHide, []. unfold MAX_AWAITS in Hm.
      do 11 (destruct m as [|m]; [reflexivity|]). lia.
    + reflexivity.
Defined.

(** C4 as stated fails.  The one pending call of a window is rejected by the
    surface: it has settled, and [sync] rejects with its error instead of
    resolving. *)
Lemma sync_rejects_with_rejected_action :
  let w := with_pendingActions [pendingHide] exampleWindow in
  sync rejectingSurface w = (Rejected "Could not locate the requested window", w).
Proof. reflexivity. Qed.

(** ** The classifier *)

(** C6, as amended.  With display scaling in effect and a bounds change that
    started at center (100, 100), half-size (50, 50):
    - a sample with center (100, 100) and half-size (60, 50), that is the
      bounds left 40, top 50, width 120, height 100, is classified as MOVE
      only: the resize is read as coming from one edge, the center expected
      at 110 is 10 away, and a transform with any MOVE collapses to MOVE;
    - a sample with center (110, 100) and half-size (60, 50) is classified
      as RESIZE only;
    - a sample with center (103, 100) and half-size (50, 50) is classified
      as MOVE only. *)
Theorem updateTransformType_scaled_samples {platform : Platform} (w : DesktopWindow)
    (event : WindowBoundsEvent) :
  (checkBounds w (eventBounds event) = boundsOf 40 50 120 100 →
   (updateTransformType true w event changeFrom100).1.1 = MOVE)
  ∧ (checkBounds w (eventBounds event) = boundsOf 50 50 120 100 →
     (updateTransformType true w event changeFrom100).1.1 = RESIZE)
  ∧ (checkBounds w (eventBounds event) = boundsOf 53 50 100 100 →
     (updateTransformType true w event changeFrom100).1.1 = MOVE).
Proof.
  repeat split; intros E; unfold updateTransformType; rewrite E; reflexivity.
Qed.

Lemma updateTransformType_scaled_samples_witness :
  checkBounds (platform := singleMonitor) exampleWindow (eventBounds (boundsEvent 40 50 120 100))
  = boundsOf 40 50 120 100
  ∧ (updateTransformType (platform := singleMonitor) true exampleWindow
       (boundsEvent 40 50 120 100) changeFrom100).1.1 = MOVE.
Proof.
  split; [reflexivity|].
  exact (proj1 (updateTransformType_scaled_samples (platform := singleMonitor) exampleWindow
                  (boundsEvent 40 50 120 100)) eq_refl).
Defined.

(** C6 as stated fails on its first sample: center (100, 100), half-size
    (60, 50) comes out as MOVE, with the RESIZE bit clear. *)
Lemma updateTransformType_symmetric_resize_is_move :
  let sample := boundsEvent 40 50 120 100 in
  let mask := (updateTransformType (platform := singleMonitor) true exampleWindow sample
                 changeFrom100).1.1 in
  mask = MOVE ∧ Z.land mask MOVE ≠ 0%Z ∧ Z.land mask RESIZE = 0%Z ∧ mask ≠ RESIZE.
Proof. repeat split; discriminate. Qed.

(** ** The [currentState] getter *)

(** C10.  For a window whose stored state is 'maximized', the getter returns
    a newly allocated object: the stored state with [center] and [halfSize]
    overwritten by the rectangle of the monitor that holds the stored
    bounds; the stored object is as it was.  For any other state it returns
    the stored object itself, and the store is as it was. *)
Theorem currentState_getter {platform : Platform} (σ : Objects.Store) (this_currentState : nat)
    (stored : EntityState) :
  σ !! this_currentState = Some stored →
  (state stored = "maximized" →
   ∃ copy σ', currentState this_currentState σ = Some (copy, σ')
     ∧ copy ≠ this_currentState
     ∧ σ !! copy = None
     ∧ σ' !! this_currentState = Some stored
     ∧ (∀ other, other ≠ copy → σ' !! other = σ !! other)
     ∧ ∃ returned, σ' !! copy = Some returned
         ∧ center returned = Rectangle.center (getMonitorByRect (asRectangle stored))
         ∧ halfSize returned = Rectangle.halfSize (getMonitorByRect (asRectangle stored))
         ∧ ∀ k, k ≠ PCenter → k ≠ PHalfSize → get returned k = get stored k)
  ∧ (state stored ≠ "maximized" →
     currentState this_currentState σ = Some (this_currentState, σ)).
Proof.
  intros L. unfold currentState, Objects.alloc, Objects.Store in *. split.
  - intros M.
    set (copy := fresh (dom σ)).
    assert (σ !! copy = None) as F by apply not_elem_of_dom, is_fresh.
    assert (copy ≠ this_currentState) as N by (intros ->; congruence).
    exists copy, (<[copy := spreadRectangle stored (getMonitorByRect (asRectangle stored))]> σ).
    split; [by rewrite L; simpl; rewrite M|]. split; [done|]. split; [done|].
    split; [by rewrite lookup_insert_ne|].
    split; [by intros other ?; rewrite lookup_insert_ne|].
    eexists. split; [apply lookup_insert_eq|]. split; [done|]. split; [done|].
    by intros [].
  - intros N. rewrite L. simpl.
    by destruct (String.eqb_spec (state stored) "maximized").
Qed.

Lemma currentState_getter_witness :
  let maximized := setProperty PState "maximized" createTemporaryState in
  storeOf maximized !! 0 = Some maximized
  ∧ ∃ σ', currentState (platform := singleMonitor) 0 (storeOf maximized) = Some (1, σ')
      ∧ σ' !! 0 = Some maximized
      ∧ (center <$> σ' !! 1) = Some {| x := 960%Q; y := 540%Q |}.
Proof.
  intros maximized. split; [reflexivity|].
  destruct (currentState_getter (platform := singleMonitor) (storeOf maximized) 0 maximized eq_refl)
    as [M _].
  destruct (M eq_refl) as (copy & σ' & E & _ & _ & S0 & _ & returned & S1 & C & _).
  exists σ'.
  assert (copy = 1) as -> by (vm_compute in E; congruence).
  split; [done|]. split; [done|]. rewrite S1. simpl. rewrite C. reflexivity.
Defined.

(** ** Comparing a snap group with the group an event reports *)

Section Comparison.
Context {collation : Collation}.

Lemma compareIdentities_antisym (a b : WindowIdentity) :
  compareIdentities a b = CompOpp (compareIdentities b a).
Proof.
  unfold compareIdentities. rewrite (String.eqb_sym (uuid b)).
  destruct (String.eqb (uuid a) (uuid b)); apply localeCompare_antisym.
Qed.

Lemma localeCompare_irrefl (a : string) : localeCompare a a ≠ Lt.
Proof.
  intros E. pose proof (localeCompare_antisym a a) as A. rewrite E in A. done.
Qed.

Lemma compareIdentities_lt_trans (a b c : WindowIdentity) :
  compareIdentities a b = Lt → compareIdentities b c = Lt → compareIdentities a c = Lt.
Proof.
  unfold compareIdentities.
  destruct (String.eqb_spec (uuid a) (uuid b)) as [Eab|Nab],
           (String.eqb_spec (uuid b) (uuid c)) as [Ebc|Nbc],
           (String.eqb_spec (uuid a) (uuid c)) as [Eac|Nac];
    try congruence; intros L1 L2.
  - by apply (localeCompare_trans _ (name b)).
  - destruct (localeCompare_irrefl (uuid c)).
    apply (localeCompare_trans _ (uuid b)); [|done]. by rewrite <- Eac.
  - by apply (localeCompare_trans _ (uuid b)).
Qed.

Global Instance inOrder_total : Total inOrder.
Proof.
  intros a b. unfold inOrder. rewrite (compareIdentities_antisym b a).
  destruct (compareIdentities a b); simpl; auto.
Qed.

Lemma insertInOrder_Permutation (a : WindowIdentity) (l : list WindowIdentity) :
  insertInOrder a l ≡ₚ a :: l.
Proof.
  induction l as [|b l IH]; [done|]. simpl. destruct (decide (inOrder a b)); [done|].
  rewrite IH. apply perm_swap.
Qed.

Lemma sort_Permutation (l : list WindowIdentity) : sort l ≡ₚ l.
Proof.
  induction l as [|a l IH]; [done|]. simpl. by rewrite insertInOrder_Permutation, IH.
Qed.

Lemma insertInOrder_Sorted (a : WindowIdentity) (l : list WindowIdentity) :
  Sorted inOrder l → Sorted inOrder (insertInOrder a l).
Proof.
  induction 1 as [|b l S IH H]; [by repeat constructor|]. simpl.
  destruct (decide (inOrder a b)) as [I|N]; [by repeat constructor|].
  constructor; [done|].
  assert (inOrder b a) as B by (by destruct (inOrder_total a b)).
  destruct H as [|c l H]; simpl; [by constructor|].
  destruct (decide (inOrder a c)); by constructor.
Qed.

Lemma sort_Sorted (l : list WindowIdentity) : Sorted inOrder (sort l).
Proof.
  induction l as [|a l IH]; [constructor|]. simpl. by apply insertInOrder_Sorted.
Qed.

(** [a] is [b] or comes strictly before it. *)
Let before (a b : WindowIdentity) : Prop := a = b ∨ compareIdentities a b = Lt.

Local Instance before_transitive : Transitive before.
Proof.
  intros a b c [->|L1] [->|L2]; try (by left); try (by right).
  right. by apply (compareIdentities_lt_trans a b c).
Qed.

Local Instance before_antisymm : AntiSymm (=) before.
Proof.
  intros a b [->|L1] [E|L2]; try done.
  rewrite (compareIdentities_antisym b a), L1 in L2. done.
Qed.

Lemma Sorted_told_apart (l : list WindowIdentity) :
  toldApart l → Sorted inOrder l → Sorted before l.
Proof.
  intros T. induction 1 as [|a l S IH H]; [constructor|]. constructor.
  - apply IH. intros b c Ib Ic. apply T; by apply elem_of_cons; right.
  - destruct H as [|b l H]; constructor. unfold inOrder in H.
    destruct (compareIdentities a b) eqn:E; [|by right|done].
    left. apply T; [..|done]; apply elem_of_cons; [by left|right].
    apply elem_of_cons. by left.
Qed.

(** Two arrays that the comparison holds equal have the same identities. *)
Lemma compareSnapAndEventWindowArrays_sound (snapWindows : list WindowIdentity)
    (eventWindows : list GroupEvent.member) :
  compareSnapAndEventWindowArrays snapWindows eventWindows = true →
  snapWindows ≡ₚ map toIdentity eventWindows.
Proof.
  unfold compareSnapAndEventWindowArrays. rewrite bool_decide_eq_true.
  intros E. rewrite <- (sort_Permutation snapWindows), E. apply sort_Permutation.
Qed.

(** Sorting both arrays and comparing them structurally tells whether they
    hold the same identities, in any order, as long as the comparator tells
    those identities apart. *)
Lemma compareSnapAndEventWindowArrays_spec (snapWindows : list WindowIdentity)
    (eventWindows : list GroupEvent.member) :
  toldApart snapWindows →
  compareSnapAndEventWindowArrays snapWindows eventWindows = true
  ↔ snapWindows ≡ₚ map toIdentity eventWindows.
Proof.
  intros T. split; [apply compareSnapAndEventWindowArrays_sound|].
  intros P. unfold compareSnapAndEventWindowArrays. rewrite bool_decide_eq_true.
  assert (∀ l, l ≡ₚ snapWindows → toldApart l) as Apart.
  { intros l E a b Ia Ib. apply T; by rewrite <- E. }
  apply (Sorted_unique before).
  - apply Sorted_told_apart; [apply Apart, sort_Permutation|apply sort_Sorted].
  - apply Sorted_told_apart; [|apply sort_Sorted].
    apply Apart. by rewrite sort_Permutation.
  - by rewrite !sort_Permutation.
Qed.

End Comparison.

(** ** Transactions *)

(** C2, as amended.  When the windows were synced and detached and
    [transform] then rejects, [transaction] rejects with the failure of
    [transform], and the one thing it still does is [remove.call()] on its
    record: the registry, the snap groups and the native calls are as
    [transform] left them.  The windows are not re-snapped. *)
Theorem transaction_transform_rejects {surfaces : Surfaces} (windows : list WindowIdentity)
    (transform : list WindowIdentity → Method unit) (σ σ1 σ2 σ3 : World) (message : string) :
  let id := nextTransaction σ in
  let record := {| Transaction.id := id; Transaction.windows := windows;
                   Transaction.remove := Debounced.new |} in
  all syncWindow windows
    (with_activeTransactions (activeTransactions σ ++ [record])%list (S id) σ) = (Ok (), σ1) →
  all unsnap windows σ1 = (Ok (), σ2) →
  transform windows σ2 = (Threw message, σ3) →
  ∃ σ', transaction windows transform σ = (Threw message, σ')
    ∧ registry σ' = registry σ3
    ∧ snapGroups σ' = snapGroups σ3
    ∧ nativeCalls σ' = nativeCalls σ3
    ∧ activeTransactions σ'
      = map (λ t, if bool_decide (Transaction.id t = id)
                  then withRemove Debounced.call t else t)
            (activeTransactions σ3).
Proof.
  intros id record S1 S2 S3. exists (onRemove Debounced.call id σ3).2.
  split; [|done].
  unfold transaction, tryFinally, bind. fold id. fold record.
  by rewrite S1, S2, S3.
Qed.

Lemma transaction_transform_rejects_witness :
  (transaction (surfaces := obligingSurfaces) [windowA; windowB] (λ _, throw "transform failed")
     (worldOf [[windowA; windowB]])).1 = Threw "transform failed".
Proof.
  destruct (transaction_transform_rejects (surfaces := obligingSurfaces) [windowA; windowB]
              (λ _, throw "transform failed") (worldOf [[windowA; windowB]])
              _ _ _ "transform failed" eq_refl eq_refl eq_refl) as (σ' & E & _).
  rewrite E. reflexivity.
Defined.

(** C2 as stated fails.  Two READY windows share a snap group; the
    transform rejects.  The transaction has made both windows leave their
    native group and never merges them again, although the model still has
    them in one snap group.  With a transform that resolves, the merge is
    there. *)
Lemma transaction_failed_transform_leaves_windows_detached :
  let σ := worldOf [[windowA; windowB]] in
  let failed :=
    transaction (surfaces := obligingSurfaces) [windowA; windowB] (λ _, throw "transform failed") σ in
  let passed := transaction (surfaces := obligingSurfaces) [windowA; windowB] (λ _, ret ()) σ in
  failed.1 = Threw "transform failed"
  ∧ nativeCalls failed.2 = [(windowA, leaveGroup); (windowB, leaveGroup)]
  ∧ snapGroups failed.2 !! 0 = Some [windowA; windowB]
  ∧ passed.1 = Ok ()
  ∧ take 3 (nativeCalls passed.2)
    = [(windowA, leaveGroup); (windowB, leaveGroup); (windowA, mergeGroups windowB)].
Proof. repeat split. Qed.

(** ** Group changes during a transaction *)

Section Postponing.
Variable f : Debounced.t → Debounced.t.

Lemma with_activeTransactions_same (σ : World) :
  with_activeTransactions (activeTransactions σ) (nextTransaction σ) σ = σ.
Proof. by destruct σ. Qed.

(** Running a method of the [remove] handle of each record of [ts]: the
    records of the list with one of their ids are changed, once each. *)
Lemma onRemove_each (ts : list Transaction.t) (σ : World) :
  NoDup (map Transaction.id ts) →
  foldr (λ t rest, onRemove f (Transaction.id t) ;;; rest) (ret ()) ts σ
  = (Ok (),
     with_activeTransactions
       (map (λ t, if bool_decide (Transaction.id t ∈ map Transaction.id ts)
                  then withRemove f t else t)
            (activeTransactions σ))
       (nextTransaction σ) σ).
Proof.
  revert σ. induction ts as [|t0 ts IH]; intros σ N.
  - simpl. unfold ret. f_equal.
    by rewrite List.map_id, with_activeTransactions_same.
  - simpl in N. apply NoDup_cons in N as [N0 N].
    simpl foldr. unfold bind at 1. simpl. rewrite IH by done.
    unfold with_activeTransactions. simpl. do 2 f_equal.
    rewrite map_map. apply map_ext. intros t.
    destruct (decide (Transaction.id t = Transaction.id t0)) as [E|NE].
    + rewrite (bool_decide_eq_true_2 _ E).
      rewrite (bool_decide_eq_false_2 (Transaction.id (withRemove f t) ∈ _))
        by (simpl; by rewrite E).
      rewrite bool_decide_eq_true_2; [done|]. rewrite E. apply elem_of_cons. by left.
    + rewrite (bool_decide_eq_false_2 _ NE).
      rewrite (bool_decide_ext (Transaction.id t ∈ map Transaction.id ts)
                 (Transaction.id t ∈ Transaction.id t0 :: map Transaction.id ts)); [done|].
      rewrite elem_of_cons. split; [by right|by intros [|]].
Qed.

End Postponing.

Section Relevant.
Variable P : Transaction.t → Prop.
Context {P_dec : ∀ t, Decision (P t)}.

Lemma id_filter_elem_of (ts : list Transaction.t) (id : nat) :
  id ∈ map Transaction.id (filter P ts) → id ∈ map Transaction.id ts.
Proof.
  induction ts as [|t ts IH]; [done|].
  rewrite filter_cons. simpl. destruct (decide (P t)); simpl; rewrite !elem_of_cons; tauto.
Qed.

Lemma NoDup_id_filter (ts : list Transaction.t) :
  NoDup (map Transaction.id ts) → NoDup (map Transaction.id (filter P ts)).
Proof.
  induction ts as [|t ts IH]; [done|].
  simpl. rewrite NoDup_cons. intros [N0 N]. rewrite filter_cons.
  destruct (decide (P t)); [|by apply IH].
  simpl. apply NoDup_cons. split; [|by apply IH].
  intros E. by apply N0, id_filter_elem_of.
Qed.

(** Among records with distinct ids, the ids of those that satisfy [P]
    single them out. *)
Lemma id_filter_iff (ts : list Transaction.t) (t : Transaction.t) :
  NoDup (map Transaction.id ts) → t ∈ ts →
  Transaction.id t ∈ map Transaction.id (filter P ts) ↔ P t.
Proof.
  induction ts as [|t0 ts IH]; [by intros _ ?%elem_of_nil|].
  simpl. rewrite NoDup_cons, elem_of_cons, filter_cons. intros [N0 N] [->|I].
  - destruct (decide (P t0)); simpl.
    + rewrite elem_of_cons. tauto.
    + split; [|done]. intros E. destruct N0. by apply id_filter_elem_of.
  - assert (Transaction.id t ≠ Transaction.id t0) as NE.
    { intros E. apply N0. rewrite <- E.
      change (Transaction.id t ∈ Transaction.id <$> ts). by apply list_elem_of_fmap_2. }
    destruct (decide (P t0)); simpl; rewrite ?elem_of_cons, IH by done; tauto.
Qed.

End Relevant.

(** C5, as amended.  An event that a window receives about itself, once the
    window has synced, is not processed when the event's target window is
    one of the windows of an active transaction, whatever its reason: the
    handler resolves, the registry, the snap groups and the native calls are
    as they were, and [remove.postpone()] ran on every such transaction, and
    on no other. *)
Theorem handleGroupChanged_during_transaction {surfaces : Surfaces}
    {collation : Collation} (this : WindowIdentity) (event : GroupEvent.t) (σ σ1 : World)
    (targetWindow : DesktopWindow) (t : Transaction.t) :
  GroupEvent.name event = GroupEvent.sourceWindowName event →
  GroupEvent.uuid event = GroupEvent.sourceWindowAppUuid event →
  syncWindow this σ = (Ok (), σ1) →
  registry σ1 !! {| uuid := GroupEvent.targetWindowAppUuid event;
                    name := GroupEvent.targetWindowName event |} = Some targetWindow →
  NoDup (map Transaction.id (activeTransactions σ1)) →
  t ∈ activeTransactions σ1 →
  concerns (Some targetWindow) t = true →
  ∃ σ2, handleGroupChanged this event σ = (Ok (), σ2)
    ∧ registry σ2 = registry σ1
    ∧ snapGroups σ2 = snapGroups σ1
    ∧ nativeCalls σ2 = nativeCalls σ1
    ∧ activeTransactions σ2
      = map (λ t', if concerns (Some targetWindow) t'
                   then withRemove Debounced.postpone t' else t')
            (activeTransactions σ1).
Proof.
  intros En Eu S T N I C.
  set (relevant := filter (λ t', concerns (Some targetWindow) t' = true) (activeTransactions σ1)).
  assert (t ∈ relevant) as R by (by apply list_elem_of_filter).
  eexists. split.
  - unfold handleGroupChanged, string_neq. rewrite En, Eu, !String.eqb_refl. simpl.
    unfold bind at 1. rewrite S, T. fold relevant.
    rewrite bool_decide_eq_true_2 by (destruct relevant; [by apply elem_of_nil in R|simpl; lia]).
    rewrite onRemove_each by apply NoDup_id_filter, N. reflexivity.
  - simpl. repeat split. apply map_ext_in. intros t' I'%list_elem_of_In.
    destruct (concerns (Some targetWindow) t') eqn:C'.
    + rewrite bool_decide_eq_true_2; [done|]. by apply id_filter_iff.
    + rewrite bool_decide_eq_false_2; [done|]. unfold relevant.
      rewrite id_filter_iff by done. by rewrite C'.
Qed.

Lemma handleGroupChanged_during_transaction_witness :
  let σ := withTransaction [windowA; windowB] (worldOf [[windowA]; [windowB]]) in
  let event := groupEvent windowA "join" windowA [windowA] windowB [windowB; windowA] in
  ∃ σ2, handleGroupChanged (surfaces := obligingSurfaces) (collation := codeUnitOrder)
          windowA event σ = (Ok (), σ2)
    ∧ snapGroups σ2 = snapGroups σ
    ∧ (Debounced.postponements ∘ Transaction.remove) <$> activeTransactions σ2 = [1].
Proof.
  intros σ event.
  destruct (handleGroupChanged_during_transaction
              (surfaces := obligingSurfaces) (collation := codeUnitOrder)
              windowA event σ σ (freshWindow windowB createTemporaryState 1)
              {| Transaction.id := 0; Transaction.windows := [windowA; windowB];
                 Transaction.remove := Debounced.new |})
    as (σ2 & E & _ & G & _ & T); try reflexivity.
  - apply NoDup_singleton.
  - apply elem_of_cons. by left.
  - exists σ2. split; [done|]. split; [done|]. by rewrite T.
Defined.

(** C5 as stated fails.  A transaction over window A is active.  A receives
    the event of its own join to the group of B, a window outside the
    transaction: the event is processed, A is moved into B's snap group, and
    the removal of the transaction is not postponed. *)
Lemma handleGroupChanged_processed_during_transaction :
  let σ := withTransaction [windowA] (worldOf [[windowA]; [windowB]]) in
  let event := groupEvent windowA "join" windowA [windowA] windowB [windowB; windowA] in
  let result := handleGroupChanged (surfaces := obligingSurfaces) (collation := codeUnitOrder)
                  windowA event σ in
  Transaction.windows <$> activeTransactions σ = [[windowA]]
  ∧ _snapGroup <$> registry σ !! windowA = Some 0
  ∧ result.1 = Ok ()
  ∧ _snapGroup <$> registry result.2 !! windowA = Some 1
  ∧ snapGroups result.2 !! 1 = Some [windowB; windowA]
  ∧ activeTransactions result.2 = activeTransactions σ.
Proof. repeat split. Qed.

(** ** Leaving a group *)

Section Leave.
Context {surfaces : Surfaces}.




End Leave.

Section LeaveEvent.
Context {surfaces : Surfaces} {collation : Collation}.

(** [sync] leaves the groups alone. *)
Lemma syncWindow_groups (this : WindowIdentity) (σ σ1 : World) (outcome : Result unit) :
  syncWindow this σ = (outcome, σ1) →
  snapGroups σ1 = snapGroups σ
  ∧ ∀ i, _snapGroup <$> registry σ1 !! i = _snapGroup <$> registry σ !! i.
Proof.
  unfold syncWindow, bind, window, store. destruct (registry σ !! this) as [w|] eqn:W.
  - simpl. intros E.
    assert (σ1 = with_registry
                   (<[this := (sync (pendingSurface this) w).2]> (registry σ)) σ) as ->.
    { destruct (completion _) in E; by injection E. }
    split; [done|]. intros i. simpl. destruct (decide (this = i)) as [<-|N].
    + by rewrite lookup_insert_eq, W.
    + by rewrite lookup_insert_ne.
  - intros [= _ <-]. done.
Qed.

Lemma no_relevant_transactions (target : option DesktopWindow) (ts : list Transaction.t) :
  Forall (λ t, concerns target t = false) ts →
  filter (λ t, concerns target t = true) ts = [].
Proof.
  induction 1 as [|t ts C _ IH]; [done|].
  rewrite filter_cons. destruct (decide (concerns target t = true)); congruence.
Qed.


End LeaveEvent.




(** * Further properties *)

(** Settles that concrete coordinates are whole or half pixels. *)
Ltac exactPixels :=
  repeat match goal with
  | |- halfPixels ?q =>
      exists (Qnum (Qred (q * 2)));
      split; [vm_compute; reflexivity|vm_compute; discriminate]
  | |- _ ∧ _ => split
  | |- True => exact I
  | |- halfPixelPoint _ => unfold halfPixelPoint
  | |- halfPixelBounds _ => unfold halfPixelBounds
  | |- from_option _ _ _ => simpl
  end.

(** ** Updates of service origin, in general *)

Section ServiceUpdates.
Context {platform : Platform}.

(** What an update of service origin does to a READY window. *)
Lemma updateState_service (delta : PartialState) (origin : ActionOrigin) (w : DesktopWindow) :
  origin ≠ APPLICATION →
  isReady w = true →
  ∃ w', updateState delta origin w = (Resolved, w')
    ∧ _applicationState w' = _applicationState w
    ∧ (∀ k, get (_currentState w') k =
            match get delta k with
            | Some v => v
            | None => get (_currentState w) k
            end)
    ∧ (∀ k, get (_modifiedState w') k =
            match get delta k with
            | Some v => if differs k v (get (_applicationState w) k) then Some v else None
            | None => get (_modifiedState w) k
            end)
    ∧ (∀ k, get (_temporaryState w') k =
            match get delta k with
            | Some _ =>
                if bool_decide (origin = SERVICE_TEMPORARY) then
                  match get (_temporaryState w) k with
                  | Some backup => Some backup
                  | None => Some (get (_currentState w) k)
                  end
                else None
            | None => get (_temporaryState w) k
            end)
    ∧ map promise (_pendingActions w')
      = (map promise (_pendingActions w)
         ++ map nativeCall
              (nativeActions delta (state (_currentState w))
                 (resizeConstraints (_currentState w))
                 (assign (_currentState w) delta)))%list
    ∧ _lifecycleStage w' = _lifecycleStage w.
Proof.
  intros O R.
  assert (∀ (l : list Command) (n m : nat),
             map promise
               (imap (λ index action,
                        {| tag := {| label := "updateState " +:+ _id w; payload := Some delta;
                                     position := Some (S (n + index), m) |};
                           promise := nativeCall action |}) l)
             = map nativeCall l) as Tags.
  { induction l as [|c l IH]; intros n m; [done|].
    simpl. f_equal. rewrite <- (IH (S n) m). f_equal. apply imap_ext.
    intros i a _. simpl. by rewrite Nat.add_succ_r. }
  destruct origin; [done| |].
  all: eexists; split; [unfold updateState; rewrite R; reflexivity|].
  all: simpl; repeat split.
  all: try (intros k; apply get_assign).
  all: try (rewrite map_app; f_equal; apply (Tags _ 0)).
  all: intros k; rewrite (get_build (F := option)).
  all: try (destruct (get delta k) as [v|] eqn:E; [|done];
            by rewrite (isModified_present _ _ v)).
  - by destruct (get delta k).
  - unfold hasOwnProperty. destruct (get delta k); [|done].
    by destruct (get (_temporaryState w) k).
Qed.

End ServiceUpdates.

Lemma number_neq_refl (q : Q) : number_neq q q = false.
Proof. unfold number_neq. by rewrite (proj2 (Qeq_bool_iff q q) (Qeq_refl q)). Qed.

Lemma bool_neq_refl (b : bool) : bool_neq b b = false.
Proof. by destruct b. Qed.

Lemma string_neq_refl (s : string) : string_neq s s = false.
Proof. unfold string_neq. by rewrite String.eqb_refl. Qed.

Lemma constraint_neq_refl (c : ResizeConstraint) : constraint_neq c c = false.
Proof. unfold constraint_neq. by rewrite !number_neq_refl, !bool_neq_refl. Qed.

(** A value does not differ from itself. *)
Lemma differs_refl (k : Property) (v : ftype k) : differs k v v = false.
Proof.
  destruct k; simpl;
    rewrite ?number_neq_refl, ?bool_neq_refl, ?string_neq_refl, ?constraint_neq_refl; done.
Qed.

Lemma get_emptyState (k : Property) : get emptyState k = None.
Proof. by destruct k. Qed.

Lemma updateState_rejects_not_ready {platform : Platform} (delta : PartialState)
    (origin : ActionOrigin) (w : DesktopWindow) :
  origin ≠ APPLICATION →
  isReady w = false →
  updateState delta origin w
  = (Rejected ("Cannot modify window, window not in ready state " +:+ _id w), w).
Proof.
  intros O R. unfold updateState. rewrite R. by rewrite bool_decide_eq_true_2.
Qed.

(** X1.  An update of service origin (persistent or temporary) on a window
    that is not READY throws "Cannot modify window ..." and leaves the window
    as it was; [applyProperties] drops that failure and resolves, again with
    the window as it was. *)
Theorem updateState_service_not_ready {platform : Platform} (delta : PartialState)
    (origin : ActionOrigin) (w : DesktopWindow) :
  origin ≠ APPLICATION →
  isReady w = false →
  updateState delta origin w
  = (Rejected ("Cannot modify window, window not in ready state " +:+ _id w), w)
  ∧ applyProperties delta w = (Resolved, w).
Proof.
  intros O R. unfold applyProperties.
  by rewrite (updateState_rejects_not_ready delta SERVICE), updateState_rejects_not_ready.
Qed.

Lemma updateState_service_not_ready_witness :
  updateState (platform := singleMonitor) (single PHidden true) SERVICE
    (with_lifecycleStage STARTING exampleWindow)
  = (Rejected "Cannot modify window, window not in ready state app/main",
     with_lifecycleStage STARTING exampleWindow).
Proof.
  exact (proj1 (updateState_service_not_ready (platform := singleMonitor)
                  (single PHidden true) SERVICE (with_lifecycleStage STARTING exampleWindow)
                  ltac:(discriminate) eq_refl)).
Defined.

(** X2.  Updates of service origin keep [modifiedState] the diff between
    [currentState] and [applicationState]: if it is the diff on a READY
    window, it is the diff after [updateState] with origin SERVICE or
    SERVICE_TEMPORARY, and after [resetOverride]. *)
Theorem service_updates_keep_diff {platform : Platform} (delta : PartialState)
    (origin : ActionOrigin) (property : Property) (w : DesktopWindow) :
  origin ≠ APPLICATION →
  isReady w = true →
  modifiedIsDiff w →
  modifiedIsDiff (updateState delta origin w).2
  ∧ modifiedIsDiff (resetOverride property w).2.
Proof.
  intros O R D.
  assert (∀ d (v : DesktopWindow),
             isReady v = true →
             _applicationState v = _applicationState w →
             (∀ k, get d k = None → get (_modifiedState v) k = get (_modifiedState w) k
                                    ∧ get (_currentState v) k = get (_currentState w) k) →
             modifiedIsDiff (updateState d SERVICE v).2
             ∧ modifiedIsDiff (updateState d SERVICE_TEMPORARY v).2) as Step.
  { intros d v Rv A Same. split.
    - destruct (updateState_service d SERVICE v ltac:(done) Rv)
        as (w' & -> & A' & C & M & _).
      intros k. simpl. rewrite M, C, A', A.
      destruct (get d k) as [a|] eqn:E; [done|].
      destruct (Same k E) as [-> ->]. apply D.
    - destruct (updateState_service d SERVICE_TEMPORARY v ltac:(done) Rv)
        as (w' & -> & A' & C & M & _).
      intros k. simpl. rewrite M, C, A', A.
      destruct (get d k) as [a|] eqn:E; [done|].
      destruct (Same k E) as [-> ->]. apply D. }
  split.
  - destruct (Step delta w R eq_refl) as [S1 S2]; [done|]. by destruct origin.
  - unfold resetOverride. destruct (get (_temporaryState w) property) as [value|]; [|done].
    apply Step; [done|done|]. intros k E. split; [done|]. simpl.
    destruct (decide (property = k)) as [<-|N]; [by rewrite get_single_eq in E|].
    unfold setProperty. rewrite (get_build (F := Full)). by destruct (decide (property = k)).
Qed.

Lemma service_updates_keep_diff_witness :
  modifiedIsDiff exampleWindow
  ∧ modifiedIsDiff
      (updateState (platform := singleMonitor) (single POpacity (1 # 2)%Q) SERVICE_TEMPORARY
         exampleWindow).2.
Proof.
  assert (modifiedIsDiff exampleWindow) as D by (by intros []).
  split; [done|].
  exact (proj1 (service_updates_keep_diff (platform := singleMonitor)
                  (single POpacity (1 # 2)%Q) SERVICE_TEMPORARY POpacity exampleWindow
                  ltac:(discriminate) eq_refl D)).
Defined.

(** X3.  On a READY window that the service has not modified (nothing in
    [modifiedState], no property differing between [currentState] and
    [applicationState]), a persistent update followed by the update that
    puts the old values back leaves [modifiedState] empty again and
    [currentState] and [applicationState] as they were. *)
Theorem service_update_and_inverse {platform : Platform} (delta : PartialState)
    (w : DesktopWindow) :
  isReady w = true →
  _modifiedState w = emptyState →
  (∀ k, differs k (get (_currentState w) k) (get (_applicationState w) k) = false) →
  ∃ w1 w2,
    updateState delta SERVICE w = (Resolved, w1)
    ∧ updateState (inverseOf delta (_currentState w)) SERVICE w1 = (Resolved, w2)
    ∧ _modifiedState w2 = emptyState
    ∧ _currentState w2 = _currentState w
    ∧ _applicationState w2 = _applicationState w.
Proof.
  intros R M0 D.
  destruct (updateState_service delta SERVICE w ltac:(done) R)
    as (w1 & E1 & A1 & C1 & M1 & _ & _ & L1).
  assert (isReady w1 = true) as R1 by (unfold isReady; by rewrite L1).
  destruct (updateState_service (inverseOf delta (_currentState w)) SERVICE w1
              ltac:(done) R1) as (w2 & E2 & A2 & C2 & M2 & _).
  exists w1, w2. split; [done|]. split; [done|]. split; [|split].
  - apply state_ext. intros k. rewrite M2, M1, A1, M0, get_emptyState.
    unfold inverseOf. rewrite (get_build (F := option)).
    destruct (get delta k); [|done]. by rewrite D.
  - apply state_ext. intros k. rewrite C2, C1.
    unfold inverseOf. rewrite (get_build (F := option)). by destruct (get delta k).
  - by rewrite A2, A1.
Qed.

Lemma service_update_and_inverse_witness :
  ∃ w1 w2,
    updateState (platform := singleMonitor) (single PAlwaysOnTop true) SERVICE exampleWindow
    = (Resolved, w1)
    ∧ updateState (platform := singleMonitor)
        (inverseOf (single PAlwaysOnTop true) (_currentState exampleWindow)) SERVICE w1
      = (Resolved, w2)
    ∧ _modifiedState w2 = emptyState.
Proof.
  destruct (service_update_and_inverse (platform := singleMonitor)
              (single PAlwaysOnTop true) exampleWindow eq_refl eq_refl)
    as (w1 & w2 & E1 & E2 & M & _).
  - intros k. apply differs_refl.
  - by exists w1, w2.
Defined.

(** X4.  A persistent change supersedes a temporary one: after a SERVICE
    update of a READY window that touches a property, the property has no
    back-up left, so [resetOverride] on it changes nothing and the value of
    the update stays. *)
Theorem service_update_supersedes_override {platform : Platform} (delta : PartialState)
    (k : Property) (v : ftype k) (w : DesktopWindow) :
  isReady w = true →
  get delta k = Some v →
  ∃ w1, updateState delta SERVICE w = (Resolved, w1)
    ∧ get (_temporaryState w1) k = None
    ∧ get (_currentState w1) k = v
    ∧ resetOverride k w1 = (Resolved, w1).
Proof.
  intros R E.
  destruct (updateState_service delta SERVICE w ltac:(done) R)
    as (w1 & E1 & _ & C1 & _ & T1 & _).
  exists w1. split; [done|]. specialize (T1 k). specialize (C1 k). rewrite E in T1, C1.
  simpl in T1. split; [done|]. split; [done|]. unfold resetOverride. by rewrite T1.
Qed.

Lemma service_update_supersedes_override_witness :
  let overridden :=
    (updateState (platform := singleMonitor) (single POpacity (1 # 2)%Q) SERVICE_TEMPORARY
       exampleWindow).2 in
  get (_temporaryState overridden) POpacity = Some 1%Q
  ∧ ∃ w1, updateState (platform := singleMonitor) (single POpacity (3 # 4)%Q) SERVICE overridden
          = (Resolved, w1)
      ∧ resetOverride (platform := singleMonitor) POpacity w1 = (Resolved, w1).
Proof.
  intros overridden. split; [reflexivity|].
  destruct (service_update_supersedes_override (platform := singleMonitor)
              (single POpacity (3 # 4)%Q) POpacity (3 # 4)%Q overridden eq_refl eq_refl)
    as (w1 & E & _ & _ & N).
  by exists w1.
Defined.

(** The native calls for a delta that holds a window state only. *)
Lemma nativeActions_state {platform : Platform} (s prevState : string)
    (prevConstraints : Point ResizeConstraint) (current : EntityState) :
  nativeActions (single PState s) prevState prevConstraints current
  = if string_neq s prevState then
      if String.eqb s "normal" then [restore]
      else if String.eqb s "minimized" then [minimize]
      else if String.eqb s "maximized" then [maximize]
      else []
    else [].
Proof.
  unfold nativeActions. cbn -[String.eqb string_neq]. by rewrite app_nil_r.
Qed.

(** X5.  [maximize()] on a READY window queues the native [maximize] call
    only if the window is not yet 'maximized' in [currentState]; a second
    [maximize()] queues nothing more. *)
Theorem maximize_once {platform : Platform} (w : DesktopWindow) :
  isReady w = true →
  ∃ w1, maximizeWindow w = (Resolved, w1)
    ∧ state (_currentState w1) = "maximized"
    ∧ map promise (_pendingActions w1)
      = (map promise (_pendingActions w)
         ++ if String.eqb (state (_currentState w)) "maximized" then []
            else [nativeCall maximize])%list
    ∧ ∃ w2, maximizeWindow w1 = (Resolved, w2)
        ∧ map promise (_pendingActions w2) = map promise (_pendingActions w1).
Proof.
  intros R. unfold maximizeWindow.
  destruct (updateState_service (single PState "maximized") SERVICE w ltac:(done) R)
    as (w1 & E1 & _ & C1 & _ & _ & P1 & L1).
  assert (isReady w1 = true) as R1 by (unfold isReady; by rewrite L1).
  destruct (updateState_service (single PState "maximized") SERVICE w1 ltac:(done) R1)
    as (w2 & E2 & _ & _ & _ & _ & P2 & _).
  pose proof (C1 PState) as S1. simpl in S1.
  exists w1. split; [done|]. split; [done|]. split.
  - rewrite P1, nativeActions_state. f_equal. unfold string_neq.
    rewrite (String.eqb_sym "maximized").
    by destruct (String.eqb (state (_currentState w)) "maximized").
  - exists w2. split; [done|]. rewrite P2, nativeActions_state.
    rewrite S1. by rewrite string_neq_refl, app_nil_r.
Qed.

Lemma maximize_once_witness :
  ∃ w1, maximizeWindow (platform := singleMonitor) exampleWindow = (Resolved, w1)
    ∧ map promise (_pendingActions w1) = [nativeCall maximize]
    ∧ map promise (_pendingActions (maximizeWindow (platform := singleMonitor) w1).2)
      = [nativeCall maximize].
Proof.
  destruct (maximize_once (platform := singleMonitor) exampleWindow eq_refl)
    as (w1 & E & _ & P & w2 & E2 & P2).
  exists w1. split; [done|]. split; [exact P|]. rewrite E2. simpl. by rewrite P2, P.
Defined.

Lemma strictlyDiffers_same (k : Property) (v : ftype k) : strictlyDiffers k true v v = false.
Proof.
  destruct k; simpl; rewrite ?number_neq_refl, ?bool_neq_refl, ?string_neq_refl; done.
Qed.

Lemma strictlyDiffers_identical (k : Property) (identical : bool) (a b : ftype k) :
  strictlyDiffers k identical a b = false → strictlyDiffers k true a b = false.
Proof. by destruct k. Qed.

Lemma get_setProperty_ne (k k' : Property) (v : ftype k) (s : EntityState) :
  k ≠ k' → get (setProperty k v s) k' = get s k'.
Proof. by destruct k, k'. Qed.

(** X6.  [applyOverride] is idempotent: applying the value that was just
    applied (for a point or a pair of constraints: the same object) leaves a
    READY window as the first call left it, with no second back-up and no
    second native call. *)
Theorem applyOverride_twice {platform : Platform} (k : Property) (v : ftype k)
    (identical : bool) (w : DesktopWindow) :
  isReady w = true →
  ∃ w1, applyOverride k v identical w = (Resolved, w1)
    ∧ applyOverride k v true w1 = (Resolved, w1).
Proof.
  intros R. unfold applyOverride.
  destruct (strictlyDiffers k identical v (get (_currentState w) k)) eqn:D.
  - destruct (updateState_temporary k v w R) as (w1 & E & _ & C & _).
    exists w1. split; [done|]. by rewrite C, strictlyDiffers_same.
  - exists w. split; [done|]. by rewrite (strictlyDiffers_identical _ _ _ _ D).
Qed.

Lemma applyOverride_twice_witness :
  ∃ w1, applyOverride (platform := singleMonitor) POpacity (1 # 2)%Q false exampleWindow
        = (Resolved, w1)
    ∧ applyOverride (platform := singleMonitor) POpacity (1 # 2)%Q true w1 = (Resolved, w1).
Proof.
  exact (applyOverride_twice (platform := singleMonitor) POpacity (1 # 2)%Q false
           exampleWindow eq_refl).
Defined.

(** X7.  Override and reset is a round trip on the state layers: on a READY
    window where the property has no back-up and [modifiedState] is the diff
    for it, [applyOverride] followed by [resetOverride] leaves
    [currentState], [applicationState], [modifiedState] and [temporaryState]
    exactly as they were. *)
Theorem applyOverride_resetOverride {platform : Platform} (k : Property) (v : ftype k)
    (identical : bool) (w : DesktopWindow) :
  isReady w = true →
  get (_temporaryState w) k = None →
  get (_modifiedState w) k
  = (if differs k (get (_currentState w) k) (get (_applicationState w) k)
     then Some (get (_currentState w) k) else None) →
  ∃ w1 w2,
    applyOverride k v identical w = (Resolved, w1)
    ∧ resetOverride k w1 = (Resolved, w2)
    ∧ _currentState w2 = _currentState w
    ∧ _applicationState w2 = _applicationState w
    ∧ _modifiedState w2 = _modifiedState w
    ∧ _temporaryState w2 = _temporaryState w.
Proof.
  intros R T M. unfold applyOverride.
  destruct (strictlyDiffers k identical v (get (_currentState w) k)).
  2: { exists w, w. unfold resetOverride. by rewrite T. }
  destruct (updateState_service (single k v) SERVICE_TEMPORARY w ltac:(done) R)
    as (w1 & E1 & A1 & C1 & M1 & T1 & _ & L1).
  assert (isReady w1 = true) as R1 by (unfold isReady; by rewrite L1).
  set (backup := get (_currentState w) k).
  assert (get (_temporaryState w1) k = Some backup) as B.
  { by rewrite T1, get_single_eq, T. }
  set (v1 := with_currentState (setProperty k backup (_currentState w1)) w1).
  destruct (updateState_service (single k backup) SERVICE v1 ltac:(done) R1)
    as (w2 & E2 & A2 & C2 & M2 & T2 & _).
  exists w1, w2. split; [done|]. split; [by unfold resetOverride; rewrite B|].
  repeat split.
  - apply state_ext. intros k'. rewrite C2. destruct (decide (k = k')) as [<-|N].
    + by rewrite get_single_eq.
    + rewrite get_single_ne by done. simpl.
      by rewrite get_setProperty_ne, C1, get_single_ne.
  - by rewrite A2.
  - apply state_ext. intros k'. rewrite M2. destruct (decide (k = k')) as [<-|N].
    + rewrite get_single_eq. simpl. by rewrite A1, M.
    + rewrite get_single_ne by done. simpl. by rewrite M1, get_single_ne.
  - apply state_ext. intros k'. rewrite T2. destruct (decide (k = k')) as [<-|N].
    + by rewrite get_single_eq, T.
    + rewrite get_single_ne by done. simpl. by rewrite T1, get_single_ne.
Qed.

Lemma applyOverride_resetOverride_witness :
  ∃ w1 w2,
    applyOverride (platform := singleMonitor) POpacity (1 # 2)%Q false exampleWindow
    = (Resolved, w1)
    ∧ resetOverride (platform := singleMonitor) POpacity w1 = (Resolved, w2)
    ∧ _currentState w2 = _currentState exampleWindow.
Proof.
  destruct (applyOverride_resetOverride (platform := singleMonitor) POpacity (1 # 2)%Q false
              exampleWindow eq_refl eq_refl eq_refl) as (w1 & w2 & E1 & E2 & C & _).
  by exists w1, w2.
Defined.

(** X8.  On whole and half pixels, [applyOffset] moves the top-left corner
    of a READY window by the offset and by nothing else: when a new
    half-size is passed as well, the center is shifted by the change of
    half-size, so the corner [center - halfSize] still ends up at the old
    corner plus the offset. *)
Theorem applyOffset_corner {platform : Platform} (offset halfSize' : option (Point Q))
    (w : DesktopWindow) :
  isReady w = true →
  halfPixelPoint (center (_currentState w)) →
  halfPixelPoint (halfSize (_currentState w)) →
  from_option halfPixelPoint True offset →
  from_option halfPixelPoint True halfSize' →
  ∃ w1, applyOffset offset halfSize' w = (Resolved, w1)
    ∧ halfSize (_currentState w1) = default (halfSize (_currentState w)) halfSize'
    ∧ (x (center (_currentState w1)) - x (halfSize (_currentState w1))
       == x (center (_currentState w)) - x (halfSize (_currentState w))
          + x (default {| x := 0; y := 0 |} offset))%Q
    ∧ (y (center (_currentState w1)) - y (halfSize (_currentState w1))
       == y (center (_currentState w)) - y (halfSize (_currentState w))
          + y (default {| x := 0; y := 0 |} offset))%Q.
Proof.
  intros R _ _ _ _. unfold applyOffset.
  set (delta := rectangleDelta _ _).
  destruct (updateState_service delta SERVICE w ltac:(done) R) as (w1 & E & _ & C & _).
  exists w1. split; [exact E|].
  pose proof (C PCenter) as Cc. pose proof (C PHalfSize) as Ch.
  subst delta. simpl in Cc, Ch. rewrite Cc, Ch.
  destruct offset as [o|], halfSize' as [h|]; simpl; repeat split; ring.
Qed.

Lemma applyOffset_corner_witness :
  ∃ w1, applyOffset (platform := singleMonitor)
          (Some {| x := 10%Q; y := 0%Q |}) (Some {| x := 250%Q; y := 100%Q |}) exampleWindow
        = (Resolved, w1)
    ∧ halfSize (_currentState w1) = {| x := 250%Q; y := 100%Q |}
    ∧ (x (center (_currentState w1)) - x (halfSize (_currentState w1)) == 310)%Q.
Proof.
  destruct (applyOffset_corner (platform := singleMonitor)
              (Some {| x := 10%Q; y := 0%Q |}) (Some {| x := 250%Q; y := 100%Q |})
              exampleWindow eq_refl ltac:(exactPixels) ltac:(exactPixels)
              ltac:(exactPixels) ltac:(exactPixels)) as (w1 & E & H & X & _).
  exists w1. split; [done|]. split; [done|]. rewrite X. reflexivity.
Defined.

(** X11.  [close()] moves the window to ENDING and queues the native
    [close(true)]; from then on every update of service origin is rejected
    and leaves the window as [close()] left it. *)
Theorem close_ends_service_updates {platform : Platform} (w : DesktopWindow) :
  ∃ w1, closeWindow w = (Resolved, w1)
    ∧ _lifecycleStage w1 = ENDING
    ∧ map promise (_pendingActions w1)
      = (map promise (_pendingActions w) ++ [nativeCall (close true)])%list
    ∧ ∀ delta origin,
        origin ≠ APPLICATION →
        ∃ message, updateState delta origin w1 = (Rejected message, w1).
Proof.
  eexists. split; [reflexivity|]. simpl. split; [done|]. split; [by rewrite map_app|].
  intros delta origin O. eexists.
  by apply (updateState_rejects_not_ready delta origin _ O).
Qed.

Lemma close_ends_service_updates_witness :
  ∃ message,
    updateState (platform := singleMonitor) (single PHidden true) SERVICE
      (closeWindow exampleWindow).2
    = (Rejected message, (closeWindow exampleWindow).2).
Proof.
  destruct (close_ends_service_updates (platform := singleMonitor) exampleWindow)
    as (w1 & E & _ & _ & F).
  rewrite E. simpl. apply F. discriminate.
Defined.

(** ** Refreshing from the native window *)

Lemma elem_of_all_properties (k : Property) : k ∈ all_properties.
Proof. unfold all_properties. destruct k; set_solver. Qed.

Lemma elem_of_keys (s : PartialState) (k : Property) : k ∈ keys s ↔ get s k ≠ None.
Proof.
  unfold keys. rewrite list_elem_of_filter. unfold hasOwnProperty.
  pose proof (elem_of_all_properties k).
  destruct (get s k); split; [done|by split|by intros [? _]|done].
Qed.

Lemma keys_nil (s : PartialState) : keys s = [] ↔ ∀ k, get s k = None.
Proof.
  split.
  - intros E k. destruct (get s k) eqn:G; [|done].
    assert (k ∈ keys s) as I by (apply elem_of_keys; congruence).
    rewrite E in I. by apply elem_of_nil in I.
  - intros N. destruct (keys s) as [|k l] eqn:E; [done|].
    assert (k ∈ keys s) as I by (rewrite E; apply elem_of_cons; by left).
    apply elem_of_keys in I. by destruct I.
Qed.

Section Refresh.
Context {platform : Platform}.

(** Whether [refresh] takes the fetched value of a property for a change
    made by the application. *)
Let genuine (fetched : EntityState) (w : DesktopWindow) (k : Property) : bool :=
  differs k (get (_applicationState w) k) (get fetched k)
  && (negb (hasOwnProperty (_modifiedState w) k) || isModified k (_modifiedState w) fetched).

Lemma refresh_spec (fetched : EntityState) (w : DesktopWindow) :
  isReady w = true →
  ∃ w1, refresh fetched w = (Resolved, w1)
    ∧ (∀ k, get (_currentState w1) k
            = if genuine fetched w k then get fetched k else get (_currentState w) k)
    ∧ (∀ k, get (_applicationState w1) k
            = if genuine fetched w k && differs k (get fetched k) (get (_currentState w) k)
              then get fetched k else get (_applicationState w) k)
    ∧ _modifiedState w1 = _modifiedState w
    ∧ _pendingActions w1 = _pendingActions w.
Proof.
  intros R. unfold refresh. rewrite R.
  set (modifications := build _).
  assert (∀ k, get modifications k = if genuine fetched w k then Some (get fetched k) else None)
    as G.
  { intros k. unfold modifications. rewrite (get_build (F := option)).
    unfold genuine, isModified at 1, asPartial. by rewrite (get_build (F := option)). }
  destruct (bool_decide (0 < length (keys modifications))) eqn:H.
  - destruct (updateState_application modifications w) as (w1 & E & A & C & _ & M & P & _).
    exists w1. split; [done|]. split; [|split; [|done]].
    + intros k. rewrite C, G. by destruct (genuine fetched w k).
    + intros k. rewrite A, G. by destruct (genuine fetched w k).
  - exists w. split; [done|].
    assert (keys modifications = []) as N.
    { apply bool_decide_eq_false in H. destruct (keys modifications); [done|]. simpl in H. lia. }
    rewrite keys_nil in N.
    split; [|split; [|done]]; intros k; specialize (N k); rewrite G in N;
      by destruct (genuine fetched w k).
Qed.

End Refresh.

(** X9.  [refresh] does not mistake the service's own override for a change
    by the application: when every property of the fetched state equals the
    application's value or the value recorded for it in [modifiedState],
    [refresh] leaves the window exactly as it was. *)
Theorem refresh_ignores_overrides {platform : Platform} (fetched : EntityState)
    (w : DesktopWindow) :
  (∀ k, differs k (get (_applicationState w) k) (get fetched k) = false
        ∨ ∃ m, get (_modifiedState w) k = Some m ∧ differs k m (get fetched k) = false) →
  refresh fetched w = (Resolved, w).
Proof.
  intros Same. unfold refresh. destruct (isReady w); [|done].
  set (modifications := build _).
  assert (keys modifications = []) as ->; [|done].
  apply keys_nil. intros k. unfold modifications. rewrite (get_build (F := option)).
  unfold isModified at 1, asPartial. rewrite (get_build (F := option)).
  destruct (Same k) as [->|(m & M & D)]; [done|].
  unfold hasOwnProperty, isModified. rewrite M, D. simpl. by rewrite andb_false_r.
Qed.

Lemma refresh_ignores_overrides_witness :
  let overridden :=
    (updateState (platform := singleMonitor) (single POpacity (1 # 2)%Q) SERVICE
       exampleWindow).2 in
  refresh (platform := singleMonitor) (_currentState overridden) overridden
  = (Resolved, overridden).
Proof.
  intros overridden.
  apply (refresh_ignores_overrides (platform := singleMonitor)).
  intros []; (by left) || (right; by eexists).
Defined.

(** X10.  What [refresh] adopts on a READY window.  A property counts as
    changed by the application when its fetched value differs from the
    application's and, if the service overrides it, from the override too.
    [currentState] takes the fetched value of exactly those properties;
    [applicationState] takes it where it also differs from [currentState];
    [modifiedState] is untouched and no native command is queued. *)
Theorem refresh_adopts_changes {platform : Platform} (fetched : EntityState)
    (w : DesktopWindow) :
  isReady w = true →
  ∃ w1, refresh fetched w = (Resolved, w1)
    ∧ (∀ k, get (_currentState w1) k
            = if differs k (get (_applicationState w) k) (get fetched k)
                 && (negb (hasOwnProperty (_modifiedState w) k)
                     || isModified k (_modifiedState w) fetched)
              then get fetched k else get (_currentState w) k)
    ∧ (∀ k, get (_applicationState w1) k
            = if differs k (get (_applicationState w) k) (get fetched k)
                 && (negb (hasOwnProperty (_modifiedState w) k)
                     || isModified k (_modifiedState w) fetched)
                 && differs k (get fetched k) (get (_currentState w) k)
              then get fetched k else get (_applicationState w) k)
    ∧ _modifiedState w1 = _modifiedState w
    ∧ _pendingActions w1 = _pendingActions w.
Proof. apply refresh_spec. Qed.

Lemma refresh_adopts_changes_witness :
  ∃ w1, refresh (platform := singleMonitor) (setProperty PTitle "Inbox" createTemporaryState)
          exampleWindow = (Resolved, w1)
    ∧ title (_currentState w1) = "Inbox"
    ∧ title (_applicationState w1) = "Inbox".
Proof.
  destruct (refresh_adopts_changes (platform := singleMonitor)
              (setProperty PTitle "Inbox" createTemporaryState) exampleWindow eq_refl)
    as (w1 & E & C & A & _).
  exists w1. split; [done|]. split; [exact (C PTitle)|exact (A PTitle)].
Defined.

(** ** Resetting every override *)

Section ResetAll.
Context {platform : Platform}.

Lemma resetOverride_step (k0 : Property) (w : DesktopWindow) :
  isReady w = true →
  ∃ w', resetOverride k0 w = (Resolved, w')
    ∧ isReady w' = true
    ∧ get (_temporaryState w') k0 = None
    ∧ get (_currentState w') k0
      = match get (_temporaryState w) k0 with
        | Some backup => backup
        | None => get (_currentState w) k0
        end
    ∧ ∀ k, k0 ≠ k →
        get (_temporaryState w') k = get (_temporaryState w) k
        ∧ get (_currentState w') k = get (_currentState w) k.
Proof.
  intros R. unfold resetOverride.
  destruct (get (_temporaryState w) k0) as [backup|] eqn:T.
  - set (v := with_currentState _ w).
    destruct (updateState_service (single k0 backup) SERVICE v ltac:(done) R)
      as (w' & E & _ & C & _ & T' & _ & L).
    exists w'. split; [done|]. split; [unfold isReady in *; by rewrite L|].
    split; [by rewrite T', get_single_eq|]. split; [by rewrite C, get_single_eq|].
    intros k N. rewrite T', C, get_single_ne by done. simpl.
    by rewrite get_setProperty_ne.
  - exists w. by rewrite T.
Qed.

Lemma resetOverrides_spec (l : list Property) (w : DesktopWindow) :
  isReady w = true →
  ∃ w1, resetOverrides l w = (Resolved, w1)
    ∧ isReady w1 = true
    ∧ (∀ k, k ∈ l →
            get (_temporaryState w1) k = None
            ∧ get (_currentState w1) k
              = match get (_temporaryState w) k with
                | Some backup => backup
                | None => get (_currentState w) k
                end)
    ∧ (∀ k, k ∉ l →
            get (_temporaryState w1) k = get (_temporaryState w) k
            ∧ get (_currentState w1) k = get (_currentState w) k).
Proof.
  revert w. induction l as [|k0 l IH]; intros w R.
  - exists w. split; [done|]. split; [done|]. split; [by intros k ?%elem_of_nil|done].
  - destruct (resetOverride_step k0 w R) as (w' & E & R' & T0 & C0 & Other).
    destruct (IH w' R') as (w1 & E1 & R1 & In1 & Out1).
    exists w1. simpl. rewrite E, E1. split; [done|]. split; [done|]. split.
    + intros k I. destruct (decide (k ∈ l)) as [Il|Nl].
      * destruct (In1 k Il) as [-> ->]. split; [done|].
        destruct (decide (k0 = k)) as [<-|N]; [by rewrite T0|].
        by destruct (Other k N) as [-> ->].
      * destruct (Out1 k Nl) as [-> ->].
        apply elem_of_cons in I as [->|]; [|done]. by rewrite T0, C0.
    + intros k N. apply not_elem_of_cons in N as [N0 Nl].
      destruct (Out1 k Nl) as [-> ->]. by apply Other.
Qed.

End ResetAll.

(** X12.  The step of [teardown] that resets the overrides of a READY
    window calls [resetOverride] on every key of [temporaryState].  In
    whatever order the keys come, no call throws, and once the calls have
    returned [temporaryState] is empty and every overridden property has its
    backed-up value in [currentState]; the other properties keep their
    values.  Whether the step then resolves is up to the native commands
    that the calls queued. *)
Theorem resetOverrides_reverts_all {platform : Platform} (overrides : list Property)
    (w : DesktopWindow) :
  isReady w = true →
  overrides ≡ₚ keys (_temporaryState w) →
  ∃ w1, resetOverrides overrides w = (Resolved, w1)
    ∧ _temporaryState w1 = emptyState
    ∧ ∀ k, get (_currentState w1) k
           = match get (_temporaryState w) k with
             | Some backup => backup
             | None => get (_currentState w) k
             end.
Proof.
  intros R P.
  destruct (resetOverrides_spec overrides w R) as (w1 & E & _ & In1 & Out1).
  exists w1. split; [done|]. split.
  - apply state_ext. intros k. rewrite get_emptyState.
    destruct (decide (k ∈ overrides)) as [I|N].
    + by destruct (In1 k I).
    + destruct (Out1 k N) as [-> _]. rewrite P, elem_of_keys in N.
      by destruct (get (_temporaryState w) k); [destruct N|].
  - intros k. destruct (decide (k ∈ overrides)) as [I|N].
    + by destruct (In1 k I).
    + destruct (Out1 k N) as [_ ->]. rewrite P, elem_of_keys in N.
      by destruct (get (_temporaryState w) k); [destruct N|].
Qed.

Lemma resetOverrides_reverts_all_witness :
  let overridden :=
    (updateState (platform := singleMonitor) (single PAlwaysOnTop true) SERVICE_TEMPORARY
       (updateState (platform := singleMonitor) (single POpacity (1 # 2)%Q) SERVICE_TEMPORARY
          exampleWindow).2).2 in
  [PAlwaysOnTop; POpacity] ≡ₚ keys (_temporaryState overridden)
  ∧ ∃ w1, resetOverrides (platform := singleMonitor) [PAlwaysOnTop; POpacity] overridden
          = (Resolved, w1)
      ∧ _temporaryState w1 = emptyState
      ∧ opacity (_currentState w1) = 1%Q
      ∧ alwaysOnTop (_currentState w1) = false.
Proof.
  intros overridden.
  assert ([PAlwaysOnTop; POpacity] ≡ₚ keys (_temporaryState overridden)) as P
    by apply perm_swap.
  split; [done|].
  destruct (resetOverrides_reverts_all (platform := singleMonitor) [PAlwaysOnTop; POpacity]
              overridden eq_refl P) as (w1 & E & T & C).
  exists w1. split; [done|]. split; [done|].
  split; [exact (C POpacity)|exact (C PAlwaysOnTop)].
Defined.

(** ** Bounds events *)

Section Drag.
Context {platform : Platform}.

Lemma move_absorbing (a b : Z) : Z.land (Z.lor (Z.lor MOVE a) b) MOVE ≠ 0%Z.
Proof.
  intros E. rewrite !Z.land_lor_distr_l in E.
  apply Z.lor_eq_0_iff in E as [E _]. apply Z.lor_eq_0_iff in E as [E _].
  by vm_compute in E.
Qed.

(** What one call of the classifier does to the record of the drag and to
    the snap group when display scaling is on. *)
Lemma updateTransformType_scaled (w : DesktopWindow) (event : WindowBoundsEvent)
    (boundsChange : BoundsChange) :
  ∃ t call,
    updateTransformType true w event boundsChange
    = (t, {| transformType := t; startBounds := startBounds boundsChange |}, call)
    ∧ (transformType boundsChange = MOVE → t = MOVE)
    ∧ call = if (t =? MOVE)%Z && negb (transformType boundsChange =? MOVE)%Z
             then Some suspendResizeConstraints else None.
Proof.
  unfold updateTransformType.
  set (ex := evaluateAxis x _ _ _). set (ey := evaluateAxis y _ _ _).
  set (afterY := Z.lor (Z.lor (transformType boundsChange) ex) ey).
  set (t := if negb (Z.land afterY MOVE =? 0)%Z then MOVE else afterY).
  assert (transformType boundsChange = MOVE → t = MOVE) as Absorbing.
  { intros P. unfold t, afterY. rewrite P.
    destruct (Z.eqb_spec (Z.land (Z.lor (Z.lor MOVE ex) ey) MOVE) 0) as [E|]; [|done].
    by destruct (move_absorbing ex ey). }
  exists t, (if (t =? MOVE)%Z && negb (transformType boundsChange =? MOVE)%Z
             then Some suspendResizeConstraints else None).
  split; [|done]. f_equal.
  destruct (transformType boundsChange =? MOVE)%Z eqn:P.
  - apply Z.eqb_eq in P. rewrite (Absorbing P). by rewrite andb_false_r.
  - by rewrite !andb_true_r, andb_false_r.
Qed.

(** The classifier with display scaling on or off: the type it returns, the
    record it leaves and the call it makes on the snap group. *)
Lemma updateTransformType_call (displayScaling : bool) (w : DesktopWindow)
    (event : WindowBoundsEvent) (boundsChange : BoundsChange) :
  ∃ t boundsChange' call,
    updateTransformType displayScaling w event boundsChange = (t, boundsChange', call)
    ∧ (displayScaling = true → transformType boundsChange' = t)
    ∧ (displayScaling = true → transformType boundsChange = MOVE → t = MOVE)
    ∧ called call
      = if displayScaling && (t =? MOVE)%Z && negb (transformType boundsChange =? MOVE)%Z
        then [onSnapGroup suspendResizeConstraints] else [].
Proof.
  destruct displayScaling.
  - destruct (updateTransformType_scaled w event boundsChange) as (t & call & -> & A & ->).
    eexists _, _, _. split; [done|]. split; [done|]. split; [done|]. simpl.
    by destruct (_ && _).
  - eexists _, _, _. split; [done|]. by repeat split.
Qed.

(** An update of application origin leaves alone what the bounds handlers
    keep on the window besides its state. *)
Lemma updateState_application_keeps (delta : PartialState) (w : DesktopWindow) :
  let w' := (updateState delta APPLICATION w).2 in
  _userInitiatedBoundsChange w' = _userInitiatedBoundsChange w
  ∧ _moveInProgress w' = _moveInProgress w
  ∧ _pendingActions w' = _pendingActions w
  ∧ _modifiedState w' = _modifiedState w.
Proof. done. Qed.

Lemma signals_app (a b : list Effect) : signals (a ++ b) = (signals a ++ signals b)%list.
Proof. apply omap_app. Qed.

Lemma groupCalls_app (a b : list Effect) :
  groupCalls (a ++ b) = (groupCalls a ++ groupCalls b)%list.
Proof. apply omap_app. Qed.

Lemma signals_called (call : option GroupCall) : signals (called call) = [].
Proof. by destruct call. Qed.

Lemma changing_spec (displayScaling : bool) (samples : list WindowBoundsEvent)
    (w : DesktopWindow) (boundsChange : BoundsChange) :
  _userInitiatedBoundsChange w = Some boundsChange →
  ∃ w' effects boundsChange' types,
    changing displayScaling samples w = (w', effects)
    ∧ _userInitiatedBoundsChange w' = Some boundsChange'
    ∧ signals effects = map onTransform types
    ∧ length types = length samples
    ∧ groupCalls effects
      = (if displayScaling && (transformType boundsChange' =? MOVE)%Z
            && negb (transformType boundsChange =? MOVE)%Z
         then [suspendResizeConstraints] else [])
    ∧ (displayScaling = true → transformType boundsChange = MOVE →
       transformType boundsChange' = MOVE)
    ∧ _pendingActions w' = _pendingActions w
    ∧ _modifiedState w' = _modifiedState w.
Proof.
  revert w boundsChange. induction samples as [|event rest IH]; intros w boundsChange U.
  - exists w, [], boundsChange, []. repeat split; try done. simpl.
    by destruct displayScaling, (_ =? _)%Z.
  - simpl. unfold handleBoundsChanging.
    set (v := if negb (_moveInProgress w) then _ else w).
    assert (_userInitiatedBoundsChange v = Some boundsChange
            ∧ _pendingActions v = _pendingActions w
            ∧ _modifiedState v = _modifiedState w) as (Uv & Pv & Mv)
      by (unfold v; by destruct (_moveInProgress w)).
    rewrite Uv.
    destruct (updateTransformType_call displayScaling v event boundsChange)
      as (t & change1 & call & -> & T & A & C).
    set (delta := rectangleDelta _ _).
    set (v1 := with_boundsChange _ _ v).
    destruct (updateState_application_keeps delta v1) as (U1 & _ & P1 & M1).
    destruct (IH _ change1 U1) as (w' & later & change2 & types & -> & U2 & S & L & G & A2 & P2 & M2).
    exists w', ((called call ++ [emit (onTransform t)]) ++ later)%list, change2, (t :: types).
    split; [done|]. split; [done|].
    split; [by rewrite !signals_app, signals_called, S|].
    split; [by rewrite <- L|].
    split; [|split; [|split; [by rewrite P2, P1|by rewrite M2, M1]]].
    + rewrite !groupCalls_app, G, C. simpl. clear G C.
      destruct displayScaling; [|done]. specialize (T eq_refl). specialize (A eq_refl).
      specialize (A2 eq_refl). subst t. simpl.
      destruct (Z.eqb_spec (transformType boundsChange) MOVE) as [E0|N0].
      { rewrite (A2 (A E0)), (A E0). reflexivity. }
      destruct (Z.eqb_spec (transformType change1) MOVE) as [E1|N1].
      { rewrite (A2 E1). reflexivity. }
      by destruct (_ =? _)%Z.
    + intros -> E0. apply A2; [done|]. rewrite T by done. by apply A.
Qed.

End Drag.

(** X13.  [MOVE] absorbs: the classifier never calls
    [restoreResizeConstraints] on the snap group, whatever the record of the
    drag holds; and with display scaling on, once a drag has been classified
    as a move, every later sample is classified as a move and no call is made
    on the snap group. *)
Theorem updateTransformType_move_absorbs {platform : Platform} (displayScaling : bool)
    (w : DesktopWindow) (event : WindowBoundsEvent) (boundsChange : BoundsChange) :
  (updateTransformType displayScaling w event boundsChange).2 ≠ Some restoreResizeConstraints
  ∧ (displayScaling = true → transformType boundsChange = MOVE →
     updateTransformType displayScaling w event boundsChange
     = (MOVE, {| transformType := MOVE; startBounds := startBounds boundsChange |}, None)).
Proof.
  destruct displayScaling; [|by split].
  destruct (updateTransformType_scaled w event boundsChange) as (t & call & -> & A & ->).
  split.
  - simpl. by destruct (_ && _).
  - intros _ E. rewrite (A E), E. by rewrite Z.eqb_refl.
Qed.

Lemma updateTransformType_move_absorbs_witness :
  updateTransformType (platform := singleMonitor) true exampleWindow
    (boundsEvent 50 50 140 100)
    {| transformType := MOVE; startBounds := startBounds changeFrom100 |}
  = (MOVE, {| transformType := MOVE; startBounds := startBounds changeFrom100 |}, None).
Proof.
  exact (proj2 (updateTransformType_move_absorbs (platform := singleMonitor) true exampleWindow
                  (boundsEvent 50 50 140 100)
                  {| transformType := MOVE; startBounds := startBounds changeFrom100 |})
               eq_refl eq_refl).
Defined.

(** X14.  A drag is balanced on the snap group.  Over
    [begin-user-bounds-changing], any run of [bounds-changing] and the final
    [bounds-changed]: the window ends with no drag in progress; one
    [onTransform] is emitted per sample and one [onCommit] at the end, never
    [onModified]; no native command is queued and [modifiedState] is
    untouched.  With display scaling on, the snap group's resize constraints
    are suspended at most once, exactly when the drag is committed as a
    move, and restored once at the end; with display scaling off no call is
    made on the snap group. *)
Theorem drag_balanced {platform : Platform} (displayScaling : bool)
    (begin : WindowBoundsEvent) (samples : list WindowBoundsEvent)
    (final : WindowBoundsEvent) (w : DesktopWindow) :
  ∃ w' effects types committed,
    drag displayScaling begin samples final w = (w', effects)
    ∧ _userInitiatedBoundsChange w' = None
    ∧ _moveInProgress w' = false
    ∧ _pendingActions w' = _pendingActions w
    ∧ _modifiedState w' = _modifiedState w
    ∧ signals effects = (map onTransform types ++ [onCommit committed])%list
    ∧ length types = length samples
    ∧ groupCalls effects
      = if displayScaling then
          ((if (committed =? MOVE)%Z then [suspendResizeConstraints] else [])
           ++ [restoreResizeConstraints])%list
        else [].
Proof.
  unfold drag, handleBeginUserBoundsChanging.
  set (start := {| startBounds := _; transformType := 0 |}).
  destruct (updateTransformType_call displayScaling w begin start)
    as (t0 & change0 & call0 & -> & T0 & _ & C0).
  set (w1 := with_boundsChange _ _ w).
  destruct (changing_spec displayScaling samples w1 change0 eq_refl)
    as (w2 & during & change1 & types & -> & U2 & S & L & G & A & P2 & M2).
  unfold handleBoundsChanged. simpl. rewrite U2.
  set (v := with_boundsChange false _ w2).
  destruct (updateTransformType_call displayScaling v final change1)
    as (t & change2 & call & -> & T & A2 & C).
  set (delta := rectangleDelta _ _).
  set (v1 := with_boundsChange _ _ v).
  destruct (updateState_application_keeps delta v1) as (_ & _ & P3 & M3).
  eexists _, _, types, t. split; [done|]. split; [done|]. split; [done|].
  split; [exact (eq_trans P3 P2)|]. split; [exact (eq_trans M3 M2)|].
  split; [|split; [done|]].
  - rewrite !signals_app, !signals_called, S. simpl. by destruct displayScaling.
  - rewrite !groupCalls_app, G, C0, C. simpl. clear G C0 C.
    destruct displayScaling; [|done]. simpl.
    specialize (T0 eq_refl). specialize (T eq_refl). specialize (A eq_refl).
    specialize (A2 eq_refl). subst t0.
    destruct (Z.eqb_spec (transformType change0) MOVE) as [E0|N0].
    { rewrite (A2 (A E0)), (A E0). reflexivity. }
    destruct (Z.eqb_spec (transformType change1) MOVE) as [E1|N1].
    { rewrite (A2 E1). reflexivity. }
    by destruct (_ =? _)%Z.
Qed.

(** ** Bounds reported back to the service *)

Section Echo.
Context {platform : Platform}.

Lemma updateState_keeps_drag (delta : PartialState) (origin : ActionOrigin) (w : DesktopWindow) :
  _userInitiatedBoundsChange (updateState delta origin w).2 = _userInitiatedBoundsChange w.
Proof. unfold updateState. by destruct origin, (isReady w). Qed.

(** The one native call for a delta that holds a center or a half-size. *)
Lemma nativeActions_rectangle (c h : option (Point Q)) (prevState : string)
    (prevConstraints : Point ResizeConstraint) (current : EntityState) :
  is_Some c ∨ is_Some h →
  let newCenter := orElse c (center current) in
  let newHalfSize := orElse h (halfSize current) in
  let newCenter' :=
    if isWin10 && (frame current : bool)
    then {| x := x newCenter; y := (y newCenter + 3.5)%Q |} else newCenter in
  let newHalfSize' :=
    if isWin10 && (frame current : bool)
    then {| x := (x newHalfSize + 7)%Q; y := (y newHalfSize + 3.5)%Q |} else newHalfSize in
  nativeActions (rectangleDelta c h) prevState prevConstraints current
  = [setBounds {| WindowBounds.left := (x newCenter' - x newHalfSize')%Q;
                  WindowBounds.top := (y newCenter' - y newHalfSize')%Q;
                  WindowBounds.width := (x newHalfSize' * 2)%Q;
                  WindowBounds.height := (y newHalfSize' * 2)%Q |}].
Proof.
  intros [[c' ->]|[h' ->]]; [destruct h|destruct c]; reflexivity.
Qed.

Lemma number_neq_Qeq (a b : Q) : (a == b)%Q → number_neq a b = false.
Proof. intros E. unfold number_neq. by rewrite (proj2 (Qeq_bool_iff a b) E). Qed.

(** Reading back the bounds that were sent gives the rectangle they were
    computed from. *)
Lemma checkBounds_inverts (w : DesktopWindow) (newCenter newHalfSize : Point Q) :
  let newCenter' :=
    if isWin10 && (frame (_currentState w) : bool)
    then {| x := x newCenter; y := (y newCenter + 3.5)%Q |} else newCenter in
  let newHalfSize' :=
    if isWin10 && (frame (_currentState w) : bool)
    then {| x := (x newHalfSize + 7)%Q; y := (y newHalfSize + 3.5)%Q |} else newHalfSize in
  let bounds :=
    checkBounds w {| WindowBounds.left := (x newCenter' - x newHalfSize')%Q;
                     WindowBounds.top := (y newCenter' - y newHalfSize')%Q;
                     WindowBounds.width := (x newHalfSize' * 2)%Q;
                     WindowBounds.height := (y newHalfSize' * 2)%Q |} in
  let halfSize := {| x := (WindowBounds.width bounds / 2)%Q;
                     y := (WindowBounds.height bounds / 2)%Q |} in
  let center := {| x := (WindowBounds.left bounds + x halfSize)%Q;
                   y := (WindowBounds.top bounds + y halfSize)%Q |} in
  differs PCenter center newCenter = false ∧ differs PHalfSize halfSize newHalfSize = false.
Proof.
  unfold checkBounds. destruct (isWin10 && _); simpl;
    (split; apply orb_false_intro; apply number_neq_Qeq; field).
Qed.

End Echo.

(** X15.  The service's own move is not mistaken for a move by the
    application.  On whole and half pixels, a SERVICE update of the center
    or half-size of a READY window queues one [setBounds]; when the runtime
    reports those bounds back in [bounds-changed], with no user drag under
    way, the handler emits [onModified] only, leaves [applicationState] as
    it was before the update, keeps [modifiedState] and queues nothing;
    [currentState] keeps the same values.  The Windows 10 frame correction
    of [checkBounds] undoes the one of [updateState]. *)
Theorem service_bounds_echo {platform : Platform} (displayScaling : bool)
    (c h : option (Point Q)) (reported : Z) (w : DesktopWindow) :
  isReady w = true →
  _userInitiatedBoundsChange w = None →
  is_Some c ∨ is_Some h →
  halfPixelPoint (default (center (_currentState w)) c) →
  halfPixelPoint (default (halfSize (_currentState w)) h) →
  ∃ w1 bounds w2,
    updateState (rectangleDelta c h) SERVICE w = (Resolved, w1)
    ∧ map promise (_pendingActions w1)
      = (map promise (_pendingActions w) ++ [nativeCall (setBounds bounds)])%list
    ∧ handleBoundsChanged displayScaling {| changeType := reported; eventBounds := bounds |} w1
      = (w2, [emit onModified])
    ∧ _applicationState w2 = _applicationState w
    ∧ _modifiedState w2 = _modifiedState w1
    ∧ _pendingActions w2 = _pendingActions w1
    ∧ _moveInProgress w2 = false
    ∧ ∀ k, differs k (get (_currentState w2) k) (get (_currentState w1) k) = false.
Proof.
  intros R U N _ _.
  pose proof (updateState_keeps_drag (rectangleDelta c h) SERVICE w) as U1.
  destruct (updateState_service (rectangleDelta c h) SERVICE w ltac:(done) R)
    as (w1 & E & A & C & _ & _ & P & _).
  rewrite E, U in U1.
  rewrite (nativeActions_rectangle c h _ _ _ N) in P.
  assert (_currentState w1 = assign (_currentState w) (rectangleDelta c h)) as Cur.
  { apply (state_ext (F := Full)). intros k. by rewrite C, get_assign. }
  destruct w1 as [id1 cur1 app1 mod1 tmp1 sg1 pg1 lc1 pa1 mv1 ub1].
  cbn [_currentState _applicationState _userInitiatedBoundsChange snd] in A, Cur, U1.
  subst cur1 app1 ub1. clear C.
  match type of P with
  | _ = (_ ++ map nativeCall [setBounds ?b])%list => set (bounds := b) in *
  end.
  set (w1 := Build_DesktopWindow _ _ _ _ _ _ _ _ _ _ _) in *.
  pose proof (checkBounds_inverts w1
                (orElse c (center (_currentState w1)))
                (orElse h (halfSize (_currentState w1)))) as [Dc Dh].
  set (v := with_boundsChange false None w1).
  set (delta :=
         rectangleDelta
           (Some {| x := (WindowBounds.left (checkBounds v bounds)
                          + WindowBounds.width (checkBounds v bounds) / 2)%Q;
                    y := (WindowBounds.top (checkBounds v bounds)
                          + WindowBounds.height (checkBounds v bounds) / 2)%Q |})
           (Some {| x := (WindowBounds.width (checkBounds v bounds) / 2)%Q;
                    y := (WindowBounds.height (checkBounds v bounds) / 2)%Q |})).
  destruct (updateState_application delta v) as (w2 & E2 & A2 & C2 & _ & M2 & P2 & _).
  assert (_moveInProgress w2 = false) as Mv.
  { replace w2 with (updateState delta APPLICATION v).2 by (by rewrite E2).
    by destruct (updateState_application_keeps delta v) as (_ & -> & _). }
  exists w1, bounds, w2. split; [exact E|]. split; [exact P|].
  split.
  { change (((updateState delta APPLICATION v).2, [emit onModified])
            = (w2, [emit onModified])).
    by rewrite E2. }
  assert (differs PCenter (default (center (_currentState v)) (center delta))
                  (center (_currentState v)) = false
          ∧ differs PHalfSize (default (halfSize (_currentState v)) (halfSize delta))
                    (halfSize (_currentState v)) = false) as [Dc' Dh'].
  { destruct c, h; [| | |by destruct N as [[? [=]]|[? [=]]]]; split;
      (exact Dc || exact Dh). }
  clear Dc Dh.
  split.
  { apply (state_ext (F := Full)). intros k. rewrite A2.
    destruct k; try done.
    - change (get delta PCenter) with (Some (default (center (_currentState v)) (center delta))).
      change (get (_currentState v) PCenter) with (center (_currentState v)).
      cbv beta iota. by rewrite Dc'.
    - change (get delta PHalfSize)
        with (Some (default (halfSize (_currentState v)) (halfSize delta))).
      change (get (_currentState v) PHalfSize) with (halfSize (_currentState v)).
      cbv beta iota. by rewrite Dh'. }
  split; [done|]. split; [done|]. split; [done|].
  intros k. rewrite C2.
  destruct k; try apply differs_refl; [exact Dc'|exact Dh'].
Qed.

Lemma service_bounds_echo_witness :
  ∃ w1 bounds w2,
    updateState (platform := singleMonitor)
      (rectangleDelta (Some {| x := 640%Q; y := 360%Q |}) None) SERVICE exampleWindow
    = (Resolved, w1)
    ∧ map promise (_pendingActions w1) = [nativeCall (setBounds bounds)]
    ∧ handleBoundsChanged (platform := singleMonitor) false
        {| changeType := 0; eventBounds := bounds |} w1
      = (w2, [emit onModified])
    ∧ _applicationState w2 = createTemporaryState.
Proof.
  destruct (service_bounds_echo (platform := singleMonitor) false
              (Some {| x := 640%Q; y := 360%Q |}) None 0 exampleWindow eq_refl eq_refl
              (or_introl (ex_intro _ _ eq_refl)) ltac:(exactPixels) ltac:(exactPixels))
    as (w1 & bounds & w2 & E & P & H & A & _).
  by exists w1, bounds, w2.
Defined.

(** ** Fetching the state of a window *)

(** X16.  Fetching inverts positioning.  Take the state that
    [getWindowState] computes from the bounds the runtime reports, in whole
    or half pixels; on a READY window with the same [frame], a SERVICE
    update with the fetched center and half-size queues one [setBounds], and
    its bounds are the reported ones.  The Windows 10 frame offsets of the
    two functions cancel. *)
Theorem fetched_bounds_round_trip {platform : Platform} {host : Host}
    (identity : WindowIdentity) (options : WindowOptions.t) (reported : string)
    (info : WindowInfo.t) (isShowing : bool) (bounds : WindowBounds.t)
    (fetched : EntityState) (w : DesktopWindow) :
  getWindowState identity options reported info isShowing bounds = Some fetched →
  halfPixelBounds bounds →
  isReady w = true →
  frame (_currentState w) = WindowOptions.frame options →
  ∃ w1 sent,
    updateState (rectangleDelta (Some (center fetched)) (Some (halfSize fetched))) SERVICE w
    = (Resolved, w1)
    ∧ map promise (_pendingActions w1)
      = (map promise (_pendingActions w) ++ [nativeCall (setBounds sent)])%list
    ∧ (WindowBounds.left sent == WindowBounds.left bounds)%Q
    ∧ (WindowBounds.top sent == WindowBounds.top bounds)%Q
    ∧ (WindowBounds.width sent == WindowBounds.width bounds)%Q
    ∧ (WindowBounds.height sent == WindowBounds.height bounds)%Q.
Proof.
  intros F _ R Fr. unfold getWindowState in F.
  repeat match type of F with
  | mbind _ ?m = _ => destruct m; [cbn [mbind option_bind] in F|done]
  end.
  injection F as <-. cbn [center halfSize].
  set (delta := rectangleDelta _ _).
  destruct (updateState_service delta SERVICE w ltac:(done) R) as (w1 & E & _ & _ & _ & _ & P & _).
  unfold delta in P.
  rewrite (nativeActions_rectangle _ _ _ _ _ (or_introl (ex_intro _ _ eq_refl))) in P.
  eexists w1, _. split; [exact E|]. split; [exact P|].
  change (frame (assign (_currentState w) _)) with (frame (_currentState w)).
  rewrite Fr. destruct (isWin10 && _); simpl; repeat split; field.
Qed.

Lemma fetched_bounds_round_trip_witness :
  let fetched :=
    default createTemporaryState
      (getWindowState (platform := windows10) (host := simpleHost) windowA framedOptions
         "normal" titledInfo true (boundsOf 93 100 414 207)) in
  center fetched = {| x := (93 + 414 / 2)%Q; y := (100 + 207 / 2 - 3.5)%Q |}
  ∧ ∃ w1 sent,
      updateState (platform := windows10)
        (rectangleDelta (Some (center fetched)) (Some (halfSize fetched))) SERVICE
        (freshWindow windowA (setProperty PFrame true createTemporaryState) 0)
      = (Resolved, w1)
      ∧ map promise (_pendingActions w1) = [nativeCall (setBounds sent)]
      ∧ (WindowBounds.left sent == 93)%Q
      ∧ (WindowBounds.height sent == 207)%Q.
Proof.
  intros fetched. split; [reflexivity|].
  destruct (fetched_bounds_round_trip (platform := windows10) (host := simpleHost)
              windowA framedOptions "normal" titledInfo true (boundsOf 93 100 414 207)
              fetched (freshWindow windowA (setProperty PFrame true createTemporaryState) 0)
              eq_refl ltac:(exactPixels) eq_refl eq_refl)
    as (w1 & sent & E & P & L & _ & _ & H).
  by exists w1, sent.
Defined.

(** X17.  When fetching fails, and what never comes out of it.  The
    callback of [getWindowState] throws exactly in two cases: the window is
    resizable and its options have a [resizeRegion] without [sides]; or the
    reported title is a non-empty part of the reported URL and the URL
    constructor rejects that URL.  Otherwise it returns a state whose resize
    constraints have a positive [maxSize] on both axes, whatever limits the
    runtime reports, and allow no resizing at all unless the window is
    [resizable]. *)
Theorem getWindowState_outcome {platform : Platform} {host : Host}
    (identity : WindowIdentity) (options : WindowOptions.t) (reported : string)
    (info : WindowInfo.t) (isShowing : bool) (bounds : WindowBounds.t) :
  if bool_decide (WindowOptions.resizable options = Some true)
     && match WindowOptions.resizeRegion options with
        | Some {| WindowOptions.sides := None |} => true
        | _ => false
        end
     || truthy (WindowInfo.title info) && truthy (WindowInfo.url info)
        && includes (WindowInfo.url info) (WindowInfo.title info)
        && bool_decide (parseUrl (WindowInfo.url info) = None)
  then getWindowState identity options reported info isShowing bounds = None
  else ∃ fetched,
    getWindowState identity options reported info isShowing bounds = Some fetched
    ∧ (0 < maxSize (x (resizeConstraints fetched)))%Q
    ∧ (0 < maxSize (y (resizeConstraints fetched)))%Q
    ∧ (WindowOptions.resizable options ≠ Some true →
       resizableMin (x (resizeConstraints fetched)) = false
       ∧ resizableMax (x (resizeConstraints fetched)) = false
       ∧ resizableMin (y (resizeConstraints fetched)) = false
       ∧ resizableMax (y (resizeConstraints fetched)) = false).
Proof.
  assert (∀ size, (0 < maxSizeOf size)%Q) as Positive.
  { intros [m|]; [|done]. unfold maxSizeOf, number_gt.
    destruct (Qeq_bool m 0); [done|]. simpl.
    destruct (Qle_bool m 0) eqn:L; [done|]. simpl.
    apply Qnot_le_lt. intros L'. apply Qle_bool_iff in L'. congruence. }
  unfold getWindowState, resizableSide.
  destruct (bool_decide (WindowOptions.resizable options = Some true)) eqn:Resizable.
  - destruct (WindowOptions.resizeRegion options) as [[[sides|]]|]; [|done|].
    all: cbn [andb orb default WindowOptions.sides mbind option_bind].
    all: destruct (truthy (WindowInfo.title info) && truthy (WindowInfo.url info)
                   && includes (WindowInfo.url info) (WindowInfo.title info)); cbn [andb].
    all: try (destruct (parseUrl (WindowInfo.url info)) as [[[[h p] s] f]|]; [|done];
              rewrite bool_decide_eq_false_2 by done; cbn [mbind option_bind];
              destruct (existsb _ _)).
    all: cbn [mbind option_bind]; eexists; split; [reflexivity|].
    all: cbn [resizeConstraints x y maxSize resizableMin resizableMax].
    all: split; [apply Positive|]; split; [apply Positive|].
    all: intros N; by apply bool_decide_eq_true in Resizable.
  - cbn [andb orb mbind option_bind].
    destruct (truthy (WindowInfo.title info) && truthy (WindowInfo.url info)
              && includes (WindowInfo.url info) (WindowInfo.title info)); cbn [andb].
    all: try (destruct (parseUrl (WindowInfo.url info)) as [[[[h p] s] f]|]; [|done];
              rewrite bool_decide_eq_false_2 by done; cbn [mbind option_bind];
              destruct (existsb _ _)).
    all: cbn [mbind option_bind]; eexists; split; [reflexivity|].
    all: cbn [resizeConstraints x y maxSize resizableMin resizableMax].
    all: by (split; [apply Positive|]; split; [apply Positive|]).
Qed.

Lemma getWindowState_outcome_witness :
  getWindowState (platform := windows10) (host := simpleHost) windowA framedOptions
    "normal" relativeInfo true (boundsOf 93 100 414 207) = None
  ∧ getWindowState (platform := windows10) (host := simpleHost) windowA
      (sidelessOptions true) "normal" titledInfo true (boundsOf 93 100 414 207) = None
  ∧ (∃ fetched,
       getWindowState (platform := windows10) (host := simpleHost) windowA
         (sidelessOptions false) "normal" titledInfo true (boundsOf 93 100 414 207)
       = Some fetched
       ∧ resizableMin (x (resizeConstraints fetched)) = false)
  ∧ ∃ fetched,
      getWindowState (platform := windows10) (host := simpleHost) windowA framedOptions
        "normal" untitledInfo true (boundsOf 93 100 414 207) = Some fetched
      ∧ title fetched = "a"
      ∧ (0 < maxSize (x (resizeConstraints fetched)))%Q.
Proof.
  split; [|split; [|split]].
  - exact (getWindowState_outcome (platform := windows10) (host := simpleHost) windowA
             framedOptions "normal" relativeInfo true (boundsOf 93 100 414 207)).
  - exact (getWindowState_outcome (platform := windows10) (host := simpleHost) windowA
             (sidelessOptions true) "normal" titledInfo true (boundsOf 93 100 414 207)).
  - destruct (getWindowState_outcome (platform := windows10) (host := simpleHost) windowA
                (sidelessOptions false) "normal" titledInfo true (boundsOf 93 100 414 207))
      as (fetched & E & _ & _ & N).
    exists fetched. split; [done|]. by apply N.
  - destruct (getWindowState_outcome (platform := windows10) (host := simpleHost) windowA
                framedOptions "normal" untitledInfo true (boundsOf 93 100 414 207))
      as (fetched & E & X & _).
    exists fetched. split; [done|]. split; [|done].
    vm_compute in E. by injection E as <-.
Defined.

(** ** What leaves the snap groups alone *)

Lemma sameGroups_refl (σ : World) : sameGroups σ σ.
Proof. by split. Qed.

Lemma sameGroups_trans (σ1 σ2 σ3 : World) :
  sameGroups σ1 σ2 → sameGroups σ2 σ3 → sameGroups σ1 σ3.
Proof.
  intros [G1 R1] [G2 R2]. split; [congruence|]. intros i. by rewrite R2, R1.
Qed.

Lemma keeps_ret {A} (a : A) : keepsGroups (ret a).
Proof. intros σ. apply sameGroups_refl. Qed.

Lemma keeps_throw {A} (message : string) : keepsGroups (throw (A := A) message).
Proof. intros σ. apply sameGroups_refl. Qed.

Lemma keeps_bind {A B} (m : Method A) (k : A → Method B) :
  keepsGroups m → (∀ a, keepsGroups (k a)) → keepsGroups (bind m k).
Proof.
  intros Hm Hk σ. unfold bind. specialize (Hm σ).
  destruct (m σ) as [[a|message] σ']; [|done].
  exact (sameGroups_trans _ _ _ Hm (Hk a σ')).
Qed.

Lemma keeps_detached {A} (m : Method A) : keepsGroups m → keepsGroups (detached m).
Proof. intros Hm σ. apply Hm. Qed.

Lemma keeps_all (f : WindowIdentity → Method unit) (windows : list WindowIdentity) :
  (∀ w, keepsGroups (f w)) → keepsGroups (all f windows).
Proof.
  intros Hf. induction windows as [|w rest IH]; [apply keeps_ret|].
  intros σ. simpl. specialize (Hf w σ). destruct (f w σ) as [outcome σ'].
  specialize (IH σ'). destruct (all f rest σ') as [others σ''].
  exact (sameGroups_trans _ _ _ Hf IH).
Qed.

Lemma keeps_forEachDetached (f : WindowIdentity → Method unit)
    (windows : list WindowIdentity) :
  (∀ w, keepsGroups (f w)) → keepsGroups (forEachDetached f windows).
Proof.
  intros Hf. induction windows as [|w rest IH]; [apply keeps_ret|].
  simpl. apply keeps_bind; [by apply keeps_detached|done].
Qed.

Lemma keeps_window (this : WindowIdentity) : keepsGroups (window this).
Proof. intros σ. unfold window. destruct (registry σ !! this); apply sameGroups_refl. Qed.

Lemma keeps_groupWindows (group : GroupRef) : keepsGroups (groupWindows group).
Proof. intros σ. apply sameGroups_refl. Qed.

(** Writing a window back with its snap group unchanged. *)
Lemma keeps_store (this : WindowIdentity) (w w' : DesktopWindow) (σ : World) :
  registry σ !! this = Some w →
  _snapGroup w' = _snapGroup w →
  sameGroups σ (store this w' σ).2.
Proof.
  intros W E. split; [done|]. intros i. simpl. destruct (decide (this = i)) as [<-|N].
  - rewrite lookup_insert_eq, W. simpl. by rewrite E.
  - by rewrite lookup_insert_ne.
Qed.

Lemma keeps_modify {A} (this : WindowIdentity) (f : DesktopWindow → DesktopWindow)
    (k : Method A) :
  (∀ w, _snapGroup (f w) = _snapGroup w) →
  keepsGroups k →
  keepsGroups (bind (window this) (λ w, bind (store this (f w)) (λ _, k))).
Proof.
  intros Hf Hk σ. unfold bind at 1, window.
  destruct (registry σ !! this) as [w|] eqn:W; [|apply sameGroups_refl].
  unfold bind. pose proof (keeps_store this w (f w) σ W (Hf w)) as S.
  destruct (store this (f w) σ) as [[[]|message] σ'] eqn:E; [|done].
  exact (sameGroups_trans _ _ _ S (Hk σ')).
Qed.

Section KeepsGroups.
Context {surfaces : Surfaces}.

Lemma keeps_native (this : WindowIdentity) (c : Command) : keepsGroups (native this c).
Proof. intros σ. by split. Qed.

Lemma keeps_syncWindow (this : WindowIdentity) : keepsGroups (syncWindow this).
Proof.
  intros σ. destruct (syncWindow this σ) as [outcome σ1] eqn:E.
  exact (syncWindow_groups this σ σ1 outcome E).
Qed.

Lemma keeps_unsnap (this : WindowIdentity) : keepsGroups (unsnap this).
Proof.
  unfold unsnap. apply keeps_bind; [apply keeps_window|].
  intros w. destruct (isReady w); [apply keeps_native|apply keeps_ret].
Qed.

Lemma keeps_checkClose (this : WindowIdentity) (call : Method unit) :
  keepsGroups call → keepsGroups (checkClose this call).
Proof.
  intros Hc σ. unfold checkClose. specialize (Hc σ).
  destruct (call σ) as [[[]|message] σ']; [done|].
  destruct (includes message _); [|done].
  refine (sameGroups_trans _ _ _ Hc _).
  unfold bind, window. destruct (registry σ' !! this) as [w|] eqn:W; [|apply sameGroups_refl].
  by apply (keeps_store this w).
Qed.

Lemma keeps_joinGroup (this other : WindowIdentity) (group : GroupRef) :
  keepsGroups (joinGroup this other group).
Proof.
  unfold joinGroup. apply keeps_bind; [apply keeps_window|]. intros w.
  destruct (isReady w && _); [|apply keeps_ret].
  apply keeps_bind; [apply keeps_window|]. intros o.
  apply keeps_bind; [apply keeps_groupWindows|]. intros members.
  apply keeps_bind; [intros σ; apply sameGroups_refl|]. intros [target|]; [|apply keeps_ret].
  apply keeps_bind; [apply keeps_checkClose, keeps_native|]. intros _.
  apply keeps_bind; [apply keeps_window|]. intros w'.
  apply keeps_bind; [apply keeps_groupWindows|]. intros windows.
  apply keeps_forEachDetached. intros groupWindow.
  apply keeps_bind; [apply keeps_window|]. intros g.
  destruct (isReady g); [apply keeps_native|apply keeps_ret].
Qed.

Lemma keeps_snap (this : WindowIdentity) : keepsGroups (snap this).
Proof.
  unfold snap. apply keeps_bind; [apply keeps_window|]. intros w.
  apply keeps_bind; [apply keeps_groupWindows|]. intros windows.
  destruct (list_find _ windows) as [[index ?]|]; [|apply keeps_throw].
  destruct (_ && _); [|apply keeps_throw].
  destruct (windows !! _) as [other|]; [|apply keeps_throw].
  apply keeps_bind; [apply keeps_all, keeps_syncWindow|]. intros _ σ.
  pose proof (keeps_joinGroup this other (_snapGroup w) σ) as J.
  destruct (joinGroup this other (_snapGroup w) σ) as [[[]|message] σ']; [done|].
  refine (sameGroups_trans _ _ _ J _).
  by apply (keeps_modify this (addPendingAction "snap - joinGroup" (joinGroupPromise other))
              (throw message)); [|apply keeps_throw].
Qed.

(** A window alone in its group cannot be snapped. *)
Lemma snap_lone (this : WindowIdentity) (σ : World) :
  lone this σ → ∃ message, snap this σ = (Threw message, σ).
Proof.
  intros (w & W & L). unfold snap, bind, window, groupWindows. rewrite W.
  destruct (list_find _ _) as [[index ?]|]; [|by eexists].
  rewrite bool_decide_eq_false_2 by lia. by eexists.
Qed.

Lemma lone_sameGroups (this : WindowIdentity) (σ σ' : World) :
  sameGroups σ σ' → lone this σ → lone this σ'.
Proof.
  intros [G R] (w & W & L). specialize (R this). rewrite W in R.
  destruct (registry σ' !! this) as [w'|] eqn:W'; simpl in R; [|discriminate R].
  injection R as R.
  exists w'. split; [done|]. by rewrite G, R.
Qed.

Lemma all_snap_lone (this : WindowIdentity) (windows : list WindowIdentity) (σ : World) :
  this ∈ windows → lone this σ → ∃ message, (all snap windows σ).1 = Threw message.
Proof.
  revert σ. induction windows as [|w rest IH]; intros σ I L; [by apply elem_of_nil in I|].
  simpl. destruct (decide (this = w)) as [<-|N].
  - destruct (snap_lone this σ L) as (message & ->).
    destruct (all snap rest σ) as [others σ'']. by exists message.
  - apply elem_of_cons in I as [|I]; [done|].
    pose proof (keeps_snap w σ) as K.
    destruct (snap w σ) as [outcome σ'].
    destruct (IH σ' I (lone_sameGroups this σ σ' K L)) as (message & E).
    destruct (all snap rest σ') as [others σ'']. simpl in E. subst others.
    destruct outcome; by eexists.
Qed.

End KeepsGroups.

(** X18.  A transaction needs every one of its windows to have company.
    When one of the windows is alone in its snap group and the transform
    leaves the snap groups as they are, [transaction] rejects, even when
    the transform resolves: the regrouping step [snap] rejects for a group of
    fewer than two windows. *)
Theorem transaction_lone_window_rejects {surfaces : Surfaces} (this : WindowIdentity)
    (windows : list WindowIdentity) (transform : list WindowIdentity → Method unit)
    (σ : World) :
  this ∈ windows →
  lone this σ →
  keepsGroups (transform windows) →
  ∃ message, (transaction windows transform σ).1 = Threw message.
Proof.
  intros I L T. unfold transaction, tryFinally.
  set (σ0 := with_activeTransactions _ _ σ).
  assert (lone this σ0) as L0 by done.
  assert (∀ (body : Method unit),
             (∃ message, (body σ0).1 = Threw message) →
             ∃ message,
               (let (outcome, σ') := body σ0 in
                match onRemove Debounced.call (nextTransaction σ) σ' with
                | (Ok _, σ'') => (outcome, σ'')
                | (Threw message, σ'') => (Threw message, σ'')
                end).1 = Threw message) as Finally.
  { intros body (message & E). destruct (body σ0) as [outcome σ']. simpl in E. subst outcome.
    by exists message. }
  apply Finally. unfold bind.
  pose proof (keeps_all syncWindow windows keeps_syncWindow σ0) as K1.
  destruct (all syncWindow windows σ0) as [[[]|message] σ1]; [|by eexists].
  pose proof (keeps_all unsnap windows keeps_unsnap σ1) as K2.
  destruct (all unsnap windows σ1) as [[[]|message] σ2]; [|by eexists].
  pose proof (T σ2) as K3.
  destruct (transform windows σ2) as [[[]|message] σ3]; [|by eexists].
  apply (all_snap_lone this); [done|].
  apply (lone_sameGroups this σ0); [|done].
  exact (sameGroups_trans _ _ _ (sameGroups_trans _ _ _ K1 K2) K3).
Qed.

Lemma transaction_lone_window_rejects_witness :
  (transaction (surfaces := obligingSurfaces) [windowA; windowB] (λ _, ret ())
     (worldOf [[windowA]; [windowB]])).1
  = Threw "Need at least 2 windows in group to snap".
Proof.
  destruct (transaction_lone_window_rejects (surfaces := obligingSurfaces) windowB
              [windowA; windowB] (λ _, ret ()) (worldOf [[windowA]; [windowB]]))
    as (message & E).
  - apply elem_of_cons. right. apply elem_of_cons. by left.
  - eexists. split; [reflexivity|]. vm_compute. lia.
  - intros σ. by split.
  - reflexivity.
Defined.

(** X19.  The doc comment of [transaction]: the windows are broken from
    their window groups "whilst still preserving model state - snapGroup's,
    etc".  Whatever the surface answers and however the transaction ends, it
    leaves every snap group with the same members and every window in the
    same snap group, provided the transform does. *)
Theorem transaction_keeps_groups {surfaces : Surfaces} (windows : list WindowIdentity)
    (transform : list WindowIdentity → Method unit) :
  keepsGroups (transform windows) →
  keepsGroups (transaction windows transform).
Proof.
  intros T σ. unfold transaction, tryFinally.
  set (σ0 := with_activeTransactions _ _ σ).
  set (body := (all syncWindow windows ;;; all unsnap windows ;;; transform windows ;;;
                all snap windows)).
  assert (keepsGroups body) as Body.
  { apply keeps_bind; [apply keeps_all, keeps_syncWindow|]. intros _.
    apply keeps_bind; [apply keeps_all, keeps_unsnap|]. intros _.
    apply keeps_bind; [done|]. intros _. apply keeps_all, keeps_snap. }
  specialize (Body σ0). destruct (body σ0) as [outcome σ'].
  refine (sameGroups_trans σ σ0 _ _ _); [done|].
  refine (sameGroups_trans _ _ _ Body _). done.
Qed.

Lemma transaction_keeps_groups_witness :
  sameGroups (worldOf [[windowA; windowB]; [windowC]])
    (transaction (surfaces := obligingSurfaces) [windowA; windowB] (λ _, ret ())
       (worldOf [[windowA; windowB]; [windowC]])).2.
Proof.
  apply (transaction_keeps_groups (surfaces := obligingSurfaces) [windowA; windowB]
           (λ _, ret ())).
  intros σ. by split.
Defined.

(** ** Joining a group *)

Section JoinEvent.
Context {surfaces : Surfaces} {collation : Collation}.

(** What is left of the handler for a 'join' event a window receives about
    itself, once it has synced and no transaction holds the event back. *)
Lemma handleGroupChanged_join_self (this : WindowIdentity) (event : GroupEvent.t)
    (σ σ1 : World) (w : DesktopWindow) :
  GroupEvent.reason event = "join" →
  GroupEvent.name event = GroupEvent.sourceWindowName event →
  GroupEvent.uuid event = GroupEvent.sourceWindowAppUuid event →
  syncWindow this σ = (Ok (), σ1) →
  registry σ1 !! this = Some w →
  Forall (λ t, concerns (registry σ1 !! {| uuid := GroupEvent.targetWindowAppUuid event;
                                           name := GroupEvent.targetWindowName event |}) t
               = false)
         (activeTransactions σ1) →
  handleGroupChanged this event σ
  = match registry σ1 !! {| uuid := GroupEvent.targetWindowAppUuid event;
                            name := GroupEvent.targetWindowName event |} with
    | Some target =>
        if compareSnapAndEventWindowArrays (default [] (snapGroups σ1 !! _snapGroup w))
             (GroupEvent.targetGroup event)
        then (Ok (), σ1)
        else addToSnapGroup this (_snapGroup target) σ1
    | None => (Ok (), σ1)
    end.
Proof.
  intros Er En Eu S W F.
  unfold handleGroupChanged, string_neq. rewrite En, Eu, !String.eqb_refl. simpl.
  unfold bind at 1. rewrite S.
  rewrite (no_relevant_transactions _ _ F). simpl.
  unfold bind at 1, window at 1. rewrite W.
  unfold bind at 1, groupWindows at 1.
  rewrite Er. simpl.
  destruct (registry σ1 !! {| uuid := GroupEvent.targetWindowAppUuid event;
                              name := GroupEvent.targetWindowName event |}) as [target|];
    simpl; [|done].
  by destruct (compareSnapAndEventWindowArrays _ _).
Qed.

End JoinEvent.

(** X20.  A 'join' event only updates the model.  The source entity, once
    it has synced and with no transaction on the event's target window,
    compares the members of its snap group with the reported target group.
    If the target window is unknown, nothing changes; nor if the two hold
    the same identities in any order and the comparator tells those
    identities apart.  If they do not hold the same identities, the window
    is moved into the target's snap group and remembers the group it came
    from; no call is made on the native window, and no other window object
    is touched. *)
Theorem handleGroupChanged_join {surfaces : Surfaces} {collation : Collation}
    (this : WindowIdentity) (event : GroupEvent.t) (σ σ1 : World) (w : DesktopWindow) :
  let target := {| uuid := GroupEvent.targetWindowAppUuid event;
                   name := GroupEvent.targetWindowName event |} in
  let members := default [] (snapGroups σ1 !! _snapGroup w) in
  GroupEvent.reason event = "join" →
  GroupEvent.name event = GroupEvent.sourceWindowName event →
  GroupEvent.uuid event = GroupEvent.sourceWindowAppUuid event →
  syncWindow this σ = (Ok (), σ1) →
  registry σ1 !! this = Some w →
  Forall (λ t, concerns (registry σ1 !! target) t = false) (activeTransactions σ1) →
  (registry σ1 !! target = None → handleGroupChanged this event σ = (Ok (), σ1))
  ∧ (members ≡ₚ map toIdentity (GroupEvent.targetGroup event) → toldApart members →
     handleGroupChanged this event σ = (Ok (), σ1))
  ∧ (∀ targetWindow,
       registry σ1 !! target = Some targetWindow →
       ¬ members ≡ₚ map toIdentity (GroupEvent.targetGroup event) →
       ∃ σ2, handleGroupChanged this event σ = (Ok (), σ2)
         ∧ registry σ2
           = <[this := with_groups (_snapGroup targetWindow) (Some (_snapGroup w)) w]>
               (registry σ1)
         ∧ this ∈ default [] (snapGroups σ2 !! _snapGroup targetWindow)
         ∧ nativeCalls σ2 = nativeCalls σ1).
Proof.
  intros target members Er En Eu S W F.
  rewrite (handleGroupChanged_join_self this event σ σ1 w) by done.
  fold target. fold members. split; [by intros ->|]. split.
  - intros P Apart. apply (compareSnapAndEventWindowArrays_spec _ _ Apart) in P. rewrite P.
    by destruct (registry σ1 !! target).
  - intros targetWindow -> N.
    destruct (compareSnapAndEventWindowArrays members _) eqn:C.
    { by apply compareSnapAndEventWindowArrays_sound in C. }
    unfold addToSnapGroup, bind, window. rewrite W. simpl. unfold addWindow. simpl.
    destruct (bool_decide _) eqn:I.
    + eexists. split; [reflexivity|]. split; [done|]. split; [|done].
      by apply bool_decide_eq_true in I.
    + eexists. split; [reflexivity|]. split; [done|]. split; [|done]. simpl.
      rewrite lookup_insert_eq. simpl. apply elem_of_app. right. apply elem_of_cons. by left.
Qed.

Lemma handleGroupChanged_join_witness :
  let σ := worldOf [[windowA; windowB]; [windowC]] in
  let join := groupEvent windowC "join" windowC [] windowA [windowA; windowB; windowC] in
  ∃ σ2,
    handleGroupChanged (surfaces := obligingSurfaces) (collation := codeUnitOrder)
      windowC join σ = (Ok (), σ2)
    ∧ _snapGroup <$> registry σ2 !! windowC = Some 0
    ∧ _prevGroup <$> registry σ2 !! windowC = Some (Some 1)
    ∧ windowC ∈ default [] (snapGroups σ2 !! 0)
    ∧ nativeCalls σ2 = [].
Proof.
  intros σ join.
  destruct (handleGroupChanged_join (surfaces := obligingSurfaces) (collation := codeUnitOrder)
              windowC join σ σ (freshWindow windowC createTemporaryState 1)
              eq_refl eq_refl eq_refl eq_refl eq_refl (Forall_nil_2 _)) as (_ & _ & Join).
  destruct (Join (freshWindow windowA createTemporaryState 0) eq_refl) as (σ2 & E & R & M & C).
  - intros P. apply Permutation_length in P. vm_compute in P. lia.
  - exists σ2. split; [done|]. rewrite R. split; [done|]. split; [done|]. by split.
Defined.

(** ** Minimizing and restoring a group *)

Lemma hidden_apparentState {platform : Platform} (w : DesktopWindow) :
  hidden (apparentState w) = hidden (_currentState w).
Proof.
  unfold apparentState, currentState, Objects.alloc, Objects.Store.
  rewrite lookup_singleton_eq. simpl.
  destruct (String.eqb _ _); simpl; [|by rewrite lookup_singleton_eq].
  by rewrite lookup_insert_eq.
Qed.

Section Propagation.
Context {platform : Platform}.
Variable reported : string.

(** What the listener does to another member of the group. *)
Let touch (g : DesktopWindow) : DesktopWindow :=
  (applyProperties (single PState reported) g).2.

Lemma touch_quiet (g : DesktopWindow) : quiet reported (touch g).
Proof.
  unfold touch, applyProperties. simpl. destruct (isReady g) eqn:R.
  - destruct (updateState_service (single PState reported) SERVICE g ltac:(done) R)
      as (g' & -> & _ & C & _).
    right. right. exact (C PState).
  - rewrite (updateState_rejects_not_ready (single PState reported) SERVICE g) by done.
    right. by left.
Qed.

Lemma touch_pending (g : DesktopWindow) :
  isReady g = false ∨ state (_currentState g) = reported →
  _pendingActions (touch g) = _pendingActions g.
Proof.
  intros Q. unfold touch, applyProperties. simpl. destruct (isReady g) eqn:R.
  - destruct Q as [|Q]; [done|].
    unfold updateState. rewrite R. simpl. rewrite nativeActions_state, Q.
    rewrite string_neq_refl. simpl. apply app_nil_r.
  - by rewrite (updateState_rejects_not_ready (single PState reported) SERVICE g).
Qed.

Variable this : WindowIdentity.

Let step : World → WindowIdentity → World := passOn reported this.

Lemma stateListener_loop (w : DesktopWindow) (σ : World) :
  registry σ !! this = Some w →
  stateListener reported this σ
  = (Ok (),
     foldl step
       (with_registry
          (<[this := (updateState (single PState reported) APPLICATION w).2]> (registry σ)) σ)
       (default [] (snapGroups σ !! _snapGroup w))).
Proof.
  intros W. unfold stateListener. unfold bind at 1, window at 1. rewrite W.
  unfold bind at 1, store at 1. unfold bind at 1, groupWindows at 1.
  cbn [snapGroups with_registry].
  set (σa := with_registry _ σ). generalize σa. clear.
  induction (default [] (snapGroups σ !! _snapGroup w)) as [|member rest IH]; intros σa;
    [done|].
  cbn [forEachDetached foldl]. unfold bind at 1, detached at 1.
  rewrite IH. do 2 f_equal. unfold step, passOn, bind, window.
  destruct (registry σa !! member) as [g|]; [|done]. rewrite hidden_apparentState.
  by destruct (_ && _).
Qed.

Lemma step_quiet (σ : World) (member i : WindowIdentity) :
  (∀ win, registry σ !! i = Some win → quiet reported win) →
  ∀ win, registry (step σ member) !! i = Some win → quiet reported win.
Proof.
  intros Q win. unfold step, passOn. destruct (registry σ !! member) as [g|]; [|apply Q].
  destruct (_ && _); [|apply Q]. simpl. destruct (decide (member = i)) as [<-|N].
  - rewrite lookup_insert_eq. intros [= <-]. apply touch_quiet.
  - rewrite lookup_insert_ne by done. apply Q.
Qed.

Lemma loop_quiet (members : list WindowIdentity) (σ : World) (i : WindowIdentity) :
  (∀ win, registry σ !! i = Some win → quiet reported win) →
  ∀ win, registry (foldl step σ members) !! i = Some win → quiet reported win.
Proof.
  revert σ. induction members as [|member rest IH]; intros σ Q; [done|].
  simpl. apply IH. by apply step_quiet.
Qed.

Lemma loop_settles (members : list WindowIdentity) (σ : World) (i : WindowIdentity) :
  i ∈ members → i ≠ this →
  ∀ win, registry (foldl step σ members) !! i = Some win → quiet reported win.
Proof.
  revert σ. induction members as [|member rest IH]; intros σ I N; [by apply elem_of_nil in I|].
  simpl. destruct (decide (i = member)) as [->|N'].
  - apply loop_quiet. intros win. unfold step, passOn.
    destruct (registry σ !! member) as [g|] eqn:G; [|by rewrite G].
    rewrite bool_decide_eq_true_2 by done. simpl.
    destruct (hidden (_currentState g)) eqn:H; simpl.
    + rewrite G. intros [= <-]. by left.
    + rewrite lookup_insert_eq. intros [= <-]. apply touch_quiet.
  - apply elem_of_cons in I as [|I]; [done|]. by apply IH.
Qed.

Lemma step_pending (σ : World) (member : WindowIdentity) :
  (member ≠ this → ∀ win, registry σ !! member = Some win → quiet reported win) →
  ∀ i, _pendingActions <$> registry (step σ member) !! i
       = _pendingActions <$> registry σ !! i.
Proof.
  intros Q i. unfold step, passOn. destruct (registry σ !! member) as [g|] eqn:G; [|done].
  destruct (bool_decide (member ≠ this)) eqn:N; [|done]. apply bool_decide_eq_true in N.
  destruct (hidden (_currentState g)) eqn:H; [done|]. simpl.
  destruct (decide (member = i)) as [<-|N']; [|by rewrite lookup_insert_ne].
  rewrite lookup_insert_eq, G. simpl. f_equal. apply touch_pending.
  destruct (Q N g eq_refl) as [|[|]]; [congruence|by left|by right].
Qed.

Lemma loop_pending (members : list WindowIdentity) (σ : World) :
  (∀ member, member ∈ members → member ≠ this →
     ∀ win, registry σ !! member = Some win → quiet reported win) →
  ∀ i, _pendingActions <$> registry (foldl step σ members) !! i
       = _pendingActions <$> registry σ !! i.
Proof.
  revert σ. induction members as [|member rest IH]; intros σ Q i; [done|].
  simpl. rewrite IH.
  - apply step_pending. intros N. apply Q; [|done]. apply elem_of_cons. by left.
  - intros m I N. apply step_quiet. apply Q; [|done]. apply elem_of_cons. by right.
Qed.

Lemma loop_this (members : list WindowIdentity) (σ : World) :
  registry (foldl step σ members) !! this = registry σ !! this
  ∧ snapGroups (foldl step σ members) = snapGroups σ
  ∧ nativeCalls (foldl step σ members) = nativeCalls σ.
Proof.
  revert σ. induction members as [|member rest IH]; intros σ; [done|].
  simpl. destruct (IH (step σ member)) as (-> & -> & ->). unfold step, passOn.
  destruct (registry σ !! member) as [g|]; [|done].
  destruct (bool_decide (member ≠ this)) eqn:N; [|done]. apply bool_decide_eq_true in N.
  destruct (negb _); [|done]. simpl. by rewrite lookup_insert_ne.
Qed.

End Propagation.

(** X21.  Minimizing or restoring a group does not loop.  When the runtime
    reports that a window was minimized (or restored), its listener passes
    the state on to the visible members of its snap group.  Afterwards every
    member is hidden, not READY, or in the reported state; and when the
    runtime then reports the same state for any window of that group, its
    listener queues no native command on any window and calls nothing on
    the surface. *)
Theorem stateListener_settles {platform : Platform} (reported : string)
    (this that : WindowIdentity) (σ : World) (w : DesktopWindow) :
  registry σ !! this = Some w →
  let σ1 := (stateListener reported this σ).2 in
  (∀ member win,
     member ∈ default [] (snapGroups σ !! _snapGroup w) →
     registry σ1 !! member = Some win → quiet reported win)
  ∧ ∀ wt,
      registry σ1 !! that = Some wt →
      _snapGroup wt = _snapGroup w →
      let σ2 := (stateListener reported that σ1).2 in
      (∀ i, _pendingActions <$> registry σ2 !! i = _pendingActions <$> registry σ1 !! i)
      ∧ nativeCalls σ2 = nativeCalls σ1.
Proof.
  intros W σ1. unfold σ1. rewrite (stateListener_loop reported this w σ W). simpl.
  set (applied := (updateState (single PState reported) APPLICATION w).2).
  set (σa := with_registry _ σ).
  set (members := default [] (snapGroups σ !! _snapGroup w)).
  destruct (loop_this reported this members σa) as (T & G & C).
  assert (quiet reported applied) as QA.
  { right. right. unfold applied.
    destruct (updateState_application (single PState reported) w) as (w' & -> & _ & Cur & _).
    exact (Cur PState). }
  assert (∀ member win, member ∈ members →
            registry (foldl (passOn reported this) σa members) !! member = Some win →
            quiet reported win) as Settled.
  { intros member win I. destruct (decide (member = this)) as [->|N].
    - rewrite T. unfold σa. simpl. rewrite lookup_insert_eq. by intros [= <-].
    - by apply loop_settles. }
  split; [exact Settled|].
  intros wt Wt Gt.
  rewrite (stateListener_loop reported that wt _ Wt). simpl.
  rewrite Gt, G. unfold σa at 2. simpl. fold members.
  set (σb := with_registry _ (foldl (passOn reported this) σa members)).
  destruct (loop_this reported that members σb) as (_ & _ & C2).
  split; [|by rewrite C2].
  intros i. rewrite (loop_pending reported that members σb).
  - unfold σb. simpl. destruct (decide (that = i)) as [<-|N]; [|by rewrite lookup_insert_ne].
    by rewrite lookup_insert_eq, Wt.
  - intros member I N win. unfold σb. simpl. rewrite lookup_insert_ne by done.
    by apply Settled.
Qed.

Lemma stateListener_settles_witness :
  let σ := worldOf [[windowA; windowB; windowC]] in
  let σ1 := (stateListener (platform := singleMonitor) "minimized" windowA σ).2 in
  let σ2 := (stateListener (platform := singleMonitor) "minimized" windowB σ1).2 in
  (map promise <$> (_pendingActions <$> registry σ1 !! windowB)) = Some [nativeCall minimize]
  ∧ (∀ i, _pendingActions <$> registry σ2 !! i = _pendingActions <$> registry σ1 !! i)
  ∧ nativeCalls σ2 = nativeCalls σ1.
Proof.
  intros σ σ1 σ2. split; [reflexivity|].
  destruct (stateListener_settles (platform := singleMonitor) "minimized" windowA windowB σ
              (freshWindow windowA createTemporaryState 0) eq_refl) as [_ Second].
  exact (Second (default exampleWindow (registry σ1 !! windowB)) eq_refl eq_refl).
Defined.

(** ** Moving a window between snap groups *)

(** X22.  [setSnapGroup] updates the model first ("Update state
    synchronously"), so the move does not depend on the surface: whatever
    [leaveGroup], [sync] and [mergeGroups] answer, and whether or not the
    method rejects, the window ends up in the new snap group and on its
    member list; unless it was on that list already, it is off the member
    list of the group it came from; and no other window changes group. *)
Theorem setSnapGroup_moves_model {surfaces : Surfaces} (this : WindowIdentity)
    (group : GroupRef) (σ : World) (w : DesktopWindow) :
  registry σ !! this = Some w →
  group ≠ _snapGroup w →
  ∃ outcome σ',
    setSnapGroup this group σ = (outcome, σ')
    ∧ _snapGroup <$> registry σ' !! this = Some group
    ∧ this ∈ default [] (snapGroups σ' !! group)
    ∧ (this ∉ default [] (snapGroups σ !! group) →
       this ∉ default [] (snapGroups σ' !! _snapGroup w))
    ∧ ∀ i, i ≠ this → _snapGroup <$> registry σ' !! i = _snapGroup <$> registry σ !! i.
Proof.
  intros W N. unfold setSnapGroup. unfold bind at 1, window at 1. rewrite W.
  rewrite bool_decide_eq_true_2 by done.
  unfold bind at 1, groupWindows at 1. unfold bind at 1.
  destruct (addToSnapGroup this group σ) as [added σa] eqn:EA.
  assert (added = Ok ()
          ∧ _snapGroup <$> registry σa !! this = Some group
          ∧ this ∈ default [] (snapGroups σa !! group)
          ∧ (this ∉ default [] (snapGroups σ !! group) →
             this ∉ default [] (snapGroups σa !! _snapGroup w))
          ∧ ∀ i, i ≠ this → _snapGroup <$> registry σa !! i = _snapGroup <$> registry σ !! i)
    as (-> & G & I & O & F).
  { unfold addToSnapGroup, bind, window in EA. rewrite W in EA. simpl in EA.
    unfold addWindow in EA. simpl in EA.
    destruct (bool_decide _) eqn:In in EA; injection EA as <- <-.
    - apply bool_decide_eq_true in In. simpl. rewrite lookup_insert_eq.
      split; [done|]. split; [done|]. split; [done|]. split; [done|].
      intros i Ni. by rewrite lookup_insert_ne.
    - simpl. rewrite !lookup_insert_eq. rewrite (lookup_insert_ne _ group) by done.
      rewrite lookup_insert_eq. simpl.
      split; [done|]. split; [done|].
      split; [apply elem_of_app; right; apply elem_of_cons; by left|].
      split; [|intros i Ni; rewrite lookup_insert_ne by done; done].
      intros _ [? _]%list_elem_of_filter. done. }
  match goal with
  | |- ∃ outcome σ', ?rest σa = _ ∧ _ =>
      assert (keepsGroups rest) as K; [|specialize (K σa); destruct (rest σa) as [outcome σ']]
  end.
  { apply keeps_bind.
    - destruct (bool_decide _); [apply keeps_unsnap|apply keeps_ret].
    - intros _. apply keeps_bind; [apply keeps_window|]. intros w'.
      apply keeps_bind; [apply keeps_groupWindows|]. intros joined.
      destruct (bool_decide _); [apply keeps_snap|apply keeps_ret]. }
  destruct K as [KG KR]. simpl in KG, KR. exists outcome, σ'. split; [done|].
  rewrite KG, !KR. split; [done|]. split; [done|]. split; [done|].
  intros i Ni. rewrite KR. by apply F.
Qed.

Lemma setSnapGroup_moves_model_witness :
  ∃ outcome σ',
    setSnapGroup (surfaces := obligingSurfaces) windowC 0
      (worldOf [[windowA; windowB]; [windowC]]) = (outcome, σ')
    ∧ _snapGroup <$> registry σ' !! windowC = Some 0
    ∧ windowC ∈ default [] (snapGroups σ' !! 0)
    ∧ windowC ∉ default [] (snapGroups σ' !! 1).
Proof.
  destruct (setSnapGroup_moves_model (surfaces := obligingSurfaces) windowC 0
              (worldOf [[windowA; windowB]; [windowC]])
              (freshWindow windowC createTemporaryState 1) eq_refl ltac:(discriminate))
    as (outcome & σ' & E & G & I & O & _).
  exists outcome, σ'. split; [done|]. split; [done|]. split; [done|].
  apply O. vm_compute. intros [|[|[]%elem_of_nil]%elem_of_cons]%elem_of_cons; discriminate.
Defined.

(** ** The diff and updates of application origin *)

(** X24.  An update of application origin does not maintain the diff.  When
    the service has modified a property and the application then changes it
    to a value other than the current one, [currentState] and
    [applicationState] both take the new value, but the entry of
    [modifiedState] stays: it no longer is the difference between the two
    states. *)
Theorem application_update_keeps_stale_entry {platform : Platform} (k : Property)
    (v m : ftype k) (w : DesktopWindow) :
  get (_modifiedState w) k = Some m →
  differs k v (get (_currentState w) k) = true →
  let w' := (updateState (single k v) APPLICATION w).2 in
  get (_currentState w') k = v
  ∧ get (_applicationState w') k = v
  ∧ get (_modifiedState w') k = Some m
  ∧ ¬ modifiedIsDiff w'.
Proof.
  intros M D w'. unfold w'.
  destruct (updateState_application (single k v) w) as (w1 & -> & A & C & _ & Mod & _).
  simpl. specialize (A k). specialize (C k). rewrite get_single_eq in A, C.
  rewrite D in A. rewrite Mod. split; [done|]. split; [done|]. split; [done|].
  intros Diff. specialize (Diff k). rewrite Mod, M, A, C, differs_refl in Diff. done.
Qed.

Lemma application_update_keeps_stale_entry_witness :
  let modified :=
    (updateState (platform := singleMonitor) (single POpacity (1 # 2)%Q) SERVICE
       exampleWindow).2 in
  let w' :=
    (updateState (platform := singleMonitor) (single POpacity (7 # 10)%Q) APPLICATION
       modified).2 in
  modifiedIsDiff modified
  ∧ opacity (_applicationState w') = (7 # 10)%Q
  ∧ opacity (_modifiedState w') = Some (1 # 2)%Q
  ∧ ¬ modifiedIsDiff w'.
Proof.
  intros modified w'. split; [by intros []|].
  destruct (application_update_keeps_stale_entry (platform := singleMonitor) POpacity
              (7 # 10)%Q (1 # 2)%Q modified eq_refl eq_refl) as (_ & A & M & D).
  by repeat split.
Defined.

(** ** The comparison of [isModified] *)

Lemma number_neq_false (a b : Q) : number_neq a b = false ↔ (a == b)%Q.
Proof.
  unfold number_neq. rewrite negb_false_iff. apply Qeq_bool_iff.
Qed.

Lemma bool_neq_false (a b : bool) : bool_neq a b = false ↔ a = b.
Proof. unfold bool_neq. rewrite negb_false_iff. apply Bool.eqb_true_iff. Qed.

Lemma string_neq_false (a b : string) : string_neq a b = false ↔ a = b.
Proof. unfold string_neq. rewrite negb_false_iff. apply String.eqb_eq. Qed.

Lemma constraint_neq_false (a b : ResizeConstraint) :
  constraint_neq a b = false
  ↔ (minSize a == minSize b)%Q ∧ (maxSize a == maxSize b)%Q
    ∧ resizableMin a = resizableMin b ∧ resizableMax a = resizableMax b.
Proof.
  unfold constraint_neq. rewrite !orb_false_iff, !number_neq_false, !bool_neq_false.
  tauto.
Qed.

(** X23.  [isModified] compares by value, consistently: on the values of
    any one property, "not modified" is an equivalence relation.  Points and
    resize constraints are compared field by field, so two different objects
    with equal fields count as unmodified. *)
Theorem isModified_same_is_equivalence (k : Property) :
  Equivalence (λ a b : ftype k, differs k a b = false).
Proof.
  split.
  - intros a. apply differs_refl.
  - intros a b. destruct k; simpl;
      rewrite ?orb_false_iff, ?number_neq_false, ?bool_neq_false, ?string_neq_false,
        ?constraint_neq_false;
      intuition (try (symmetry; assumption)).
  - intros a b c. destruct k; simpl;
      rewrite ?orb_false_iff, ?number_neq_false, ?bool_neq_false, ?string_neq_false,
        ?constraint_neq_false;
      intuition (try (etransitivity; eassumption)).
Qed.

(** ** Native calls and windows that are not READY *)

Section CallsReady.
Context {surfaces : Surfaces}.



End CallsReady.

